(** * NPO Radio 2 Top 2000: now-playing resolution and matching pipeline

    A shallow embedding of the Home Assistant integration
    [custom_components/npo_top2000] and the properties of its matcher,
    metadata client, coordinator and notification rules.

    Conventions of the embedding:
    - Python [int] is [Z]; [float] is the binary64 [float] of the kernel,
      with its rounding; [str] is a [string] holding the UTF-8 of the text,
      and [str.lower] and [str.strip] work on its characters as Python
      does;
    - [datetime] values are [Z] (microseconds);
    - the SQLite tables are lists of rows in rowid order;
    - [async] methods are computations in a state-and-exception monad over
      the [world]: storage, client cache, coordinator fields and the trace of
      calls made to the outside (upstream sources, cover-art service, storage
      writes, Home Assistant services);
    - what the outside answers (similarity scores of rapidfuzz, upstream
      responses, I/O failures, the clock) is an [environment]. *)

From Stdlib Require Import String Ascii List ZArith NArith Lia Bool Floats.
From Stdlib Require Import Sorting.Sorted Sorting.Permutation.
Import ListNotations.

Local Open Scope string_scope.
Local Open Scope list_scope.
Local Open Scope Z_scope.

(* ------------------------------------------------------------------ *)
(** ** Unicode: the characters of a text and their lowercase *)

Module Unicode.
Local Open Scope N_scope.

(** *** UTF-8 *)

(** A byte [10xxxxxx], which continues a sequence. *)
Definition continuation (y : N) : bool := (0x80 <=? y) && (y <? 0xC0).

(** A byte that begins no well-formed sequence stands for itself, above
    the code points. *)
Definition stray (x : N) : N := 0x110000 + x.

(** The characters (code points) of a text.  A sequence is read when it
    is the shortest one for its value; surrogates are read as they are
    written, so that every [str] of Python has its text. *)
Fixpoint decode (s : string) : list N :=
  match s with
  | EmptyString => []
  | String a r =>
      let x := N_of_ascii a in
      if x <? 0x80 then x :: decode r
      else
        match r with
        | EmptyString => [stray x]
        | String b r1 =>
            let y := N_of_ascii b in
            let v2 := (x - 0xC0) * 0x40 + (y - 0x80) in
            if (0xC0 <=? x) && (x <? 0xE0) && continuation y && (0x80 <=? v2)
            then v2 :: decode r1
            else
              match r1 with
              | EmptyString => stray x :: decode r
              | String c r2 =>
                  let z := N_of_ascii c in
                  let v3 := ((x - 0xE0) * 0x40 + (y - 0x80)) * 0x40
                            + (z - 0x80) in
                  if (0xE0 <=? x) && (x <? 0xF0) && continuation y
                     && continuation z && (0x800 <=? v3)
                  then v3 :: decode r2
                  else
                    match r2 with
                    | EmptyString => stray x :: decode r
                    | String d r3 =>
                        let t := N_of_ascii d in
                        let v4 := (((x - 0xF0) * 0x40 + (y - 0x80)) * 0x40
                                   + (z - 0x80)) * 0x40 + (t - 0x80) in
                        if (0xF0 <=? x) && (x <? 0xF8) && continuation y
                           && continuation z && continuation t
                           && (0x10000 <=? v4) && (v4 <? 0x110000)
                        then v4 :: decode r3
                        else stray x :: decode r
                    end
              end
        end
  end.

Definition byte (n : N) : ascii := ascii_of_N n.

Definition encode_point (c : N) (rest : string) : string :=
  if c <? 0x80 then String (byte c) rest
  else if c <? 0x800 then
    String (byte (0xC0 + c / 0x40)) (String (byte (0x80 + c mod 0x40)) rest)
  else if c <? 0x10000 then
    String (byte (0xE0 + c / 0x1000))
      (String (byte (0x80 + (c / 0x40) mod 0x40))
         (String (byte (0x80 + c mod 0x40)) rest))
  else if c <? 0x110000 then
    String (byte (0xF0 + c / 0x40000))
      (String (byte (0x80 + (c / 0x1000) mod 0x40))
         (String (byte (0x80 + (c / 0x40) mod 0x40))
            (String (byte (0x80 + c mod 0x40)) rest)))
  else String (byte (c - 0x110000)) rest.

Definition encode (l : list N) : string :=
  fold_right encode_point EmptyString l.

(** *** Lowercase *)

(** The lowercase mappings of the Unicode Character Database (version
    14.0.0, that of CPython 3.11), as runs: [(first, count, step, image)]
    stands for [first + k * step |-> image + k * step] with [k < count].
    The dotted capital I (U+0130) and the capital sigma (U+03A3) are dealt
    with apart, below. *)
Definition lowercase_runs : list (N * N * N * N) :=
  [(0x41, 26, 1, 0x61); (0xC0, 23, 1, 0xE0); (0xD8, 7, 1, 0xF8);
   (0x100, 24, 2, 0x101); (0x132, 3, 2, 0x133); (0x139, 8, 2, 0x13A);
   (0x14A, 23, 2, 0x14B); (0x178, 1, 1, 0xFF); (0x179, 3, 2, 0x17A);
   (0x181, 1, 1, 0x253); (0x182, 2, 2, 0x183); (0x186, 1, 1, 0x254);
   (0x187, 1, 1, 0x188); (0x189, 2, 1, 0x256); (0x18B, 1, 1, 0x18C);
   (0x18E, 1, 1, 0x1DD); (0x18F, 1, 1, 0x259); (0x190, 1, 1, 0x25B);
   (0x191, 1, 1, 0x192); (0x193, 1, 1, 0x260); (0x194, 1, 1, 0x263);
   (0x196, 1, 1, 0x269); (0x197, 1, 1, 0x268); (0x198, 1, 1, 0x199);
   (0x19C, 1, 1, 0x26F); (0x19D, 1, 1, 0x272); (0x19F, 1, 1, 0x275);
   (0x1A0, 3, 2, 0x1A1); (0x1A6, 1, 1, 0x280); (0x1A7, 1, 1, 0x1A8);
   (0x1A9, 1, 1, 0x283); (0x1AC, 1, 1, 0x1AD); (0x1AE, 1, 1, 0x288);
   (0x1AF, 1, 1, 0x1B0); (0x1B1, 2, 1, 0x28A); (0x1B3, 2, 2, 0x1B4);
   (0x1B7, 1, 1, 0x292); (0x1B8, 1, 1, 0x1B9); (0x1BC, 1, 1, 0x1BD);
   (0x1C4, 1, 1, 0x1C6); (0x1C5, 1, 1, 0x1C6); (0x1C7, 1, 1, 0x1C9);
   (0x1C8, 1, 1, 0x1C9); (0x1CA, 1, 1, 0x1CC); (0x1CB, 9, 2, 0x1CC);
   (0x1DE, 9, 2, 0x1DF); (0x1F1, 1, 1, 0x1F3); (0x1F2, 2, 2, 0x1F3);
   (0x1F6, 1, 1, 0x195); (0x1F7, 1, 1, 0x1BF); (0x1F8, 20, 2, 0x1F9);
   (0x220, 1, 1, 0x19E); (0x222, 9, 2, 0x223); (0x23A, 1, 1, 0x2C65);
   (0x23B, 1, 1, 0x23C); (0x23D, 1, 1, 0x19A); (0x23E, 1, 1, 0x2C66);
   (0x241, 1, 1, 0x242); (0x243, 1, 1, 0x180); (0x244, 1, 1, 0x289);
   (0x245, 1, 1, 0x28C); (0x246, 5, 2, 0x247); (0x370, 2, 2, 0x371);
   (0x376, 1, 1, 0x377); (0x37F, 1, 1, 0x3F3); (0x386, 1, 1, 0x3AC);
   (0x388, 3, 1, 0x3AD); (0x38C, 1, 1, 0x3CC); (0x38E, 2, 1, 0x3CD);
   (0x391, 17, 1, 0x3B1); (0x3A4, 8, 1, 0x3C4); (0x3CF, 1, 1, 0x3D7);
   (0x3D8, 12, 2, 0x3D9); (0x3F4, 1, 1, 0x3B8); (0x3F7, 1, 1, 0x3F8);
   (0x3F9, 1, 1, 0x3F2); (0x3FA, 1, 1, 0x3FB); (0x3FD, 3, 1, 0x37B);
   (0x400, 16, 1, 0x450); (0x410, 32, 1, 0x430); (0x460, 17, 2, 0x461);
   (0x48A, 27, 2, 0x48B); (0x4C0, 1, 1, 0x4CF); (0x4C1, 7, 2, 0x4C2);
   (0x4D0, 48, 2, 0x4D1); (0x531, 38, 1, 0x561); (0x10A0, 38, 1, 0x2D00);
   (0x10C7, 1, 1, 0x2D27); (0x10CD, 1, 1, 0x2D2D); (0x13A0, 80, 1, 0xAB70);
   (0x13F0, 6, 1, 0x13F8); (0x1C90, 43, 1, 0x10D0); (0x1CBD, 3, 1, 0x10FD);
   (0x1E00, 75, 2, 0x1E01); (0x1E9E, 1, 1, 0xDF); (0x1EA0, 48, 2, 0x1EA1);
   (0x1F08, 8, 1, 0x1F00); (0x1F18, 6, 1, 0x1F10); (0x1F28, 8, 1, 0x1F20);
   (0x1F38, 8, 1, 0x1F30); (0x1F48, 6, 1, 0x1F40); (0x1F59, 4, 2, 0x1F51);
   (0x1F68, 8, 1, 0x1F60); (0x1F88, 8, 1, 0x1F80); (0x1F98, 8, 1, 0x1F90);
   (0x1FA8, 8, 1, 0x1FA0); (0x1FB8, 2, 1, 0x1FB0); (0x1FBA, 2, 1, 0x1F70);
   (0x1FBC, 1, 1, 0x1FB3); (0x1FC8, 4, 1, 0x1F72); (0x1FCC, 1, 1, 0x1FC3);
   (0x1FD8, 2, 1, 0x1FD0); (0x1FDA, 2, 1, 0x1F76); (0x1FE8, 2, 1, 0x1FE0);
   (0x1FEA, 2, 1, 0x1F7A); (0x1FEC, 1, 1, 0x1FE5); (0x1FF8, 2, 1, 0x1F78);
   (0x1FFA, 2, 1, 0x1F7C); (0x1FFC, 1, 1, 0x1FF3); (0x2126, 1, 1, 0x3C9);
   (0x212A, 1, 1, 0x6B); (0x212B, 1, 1, 0xE5); (0x2132, 1, 1, 0x214E);
   (0x2160, 16, 1, 0x2170); (0x2183, 1, 1, 0x2184); (0x24B6, 26, 1, 0x24D0);
   (0x2C00, 48, 1, 0x2C30); (0x2C60, 1, 1, 0x2C61); (0x2C62, 1, 1, 0x26B);
   (0x2C63, 1, 1, 0x1D7D); (0x2C64, 1, 1, 0x27D); (0x2C67, 3, 2, 0x2C68);
   (0x2C6D, 1, 1, 0x251); (0x2C6E, 1, 1, 0x271); (0x2C6F, 1, 1, 0x250);
   (0x2C70, 1, 1, 0x252); (0x2C72, 1, 1, 0x2C73); (0x2C75, 1, 1, 0x2C76);
   (0x2C7E, 2, 1, 0x23F); (0x2C80, 50, 2, 0x2C81); (0x2CEB, 2, 2, 0x2CEC);
   (0x2CF2, 1, 1, 0x2CF3); (0xA640, 23, 2, 0xA641); (0xA680, 14, 2, 0xA681);
   (0xA722, 7, 2, 0xA723); (0xA732, 31, 2, 0xA733); (0xA779, 2, 2, 0xA77A);
   (0xA77D, 1, 1, 0x1D79); (0xA77E, 5, 2, 0xA77F); (0xA78B, 1, 1, 0xA78C);
   (0xA78D, 1, 1, 0x265); (0xA790, 2, 2, 0xA791); (0xA796, 10, 2, 0xA797);
   (0xA7AA, 1, 1, 0x266); (0xA7AB, 1, 1, 0x25C); (0xA7AC, 1, 1, 0x261);
   (0xA7AD, 1, 1, 0x26C); (0xA7AE, 1, 1, 0x26A); (0xA7B0, 1, 1, 0x29E);
   (0xA7B1, 1, 1, 0x287); (0xA7B2, 1, 1, 0x29D); (0xA7B3, 1, 1, 0xAB53);
   (0xA7B4, 8, 2, 0xA7B5); (0xA7C4, 1, 1, 0xA794); (0xA7C5, 1, 1, 0x282);
   (0xA7C6, 1, 1, 0x1D8E); (0xA7C7, 2, 2, 0xA7C8); (0xA7D0, 1, 1, 0xA7D1);
   (0xA7D6, 2, 2, 0xA7D7); (0xA7F5, 1, 1, 0xA7F6); (0xFF21, 26, 1, 0xFF41);
   (0x10400, 40, 1, 0x10428); (0x104B0, 36, 1, 0x104D8);
   (0x10570, 19, 2, 0x10597); (0x10571, 10, 1, 0x10598);
   (0x1057D, 14, 1, 0x105A4); (0x1058D, 6, 1, 0x105B4);
   (0x10595, 1, 1, 0x105BC); (0x10C80, 51, 1, 0x10CC0);
   (0x118A0, 32, 1, 0x118C0); (0x16E40, 32, 1, 0x16E60);
   (0x1E900, 34, 1, 0x1E922)].

(** The characters with the property Cased that are not Case_Ignorable, as
    ranges [(first, last)]. *)
Definition cased_ranges : list (N * N) :=
  [(0x41, 0x5A); (0x61, 0x7A); (0xAA, 0xAA); (0xB5, 0xB5); (0xBA, 0xBA);
   (0xC0, 0xD6); (0xD8, 0xF6); (0xF8, 0x1BA); (0x1BC, 0x1BF);
   (0x1C4, 0x293); (0x295, 0x2AF); (0x370, 0x373); (0x376, 0x377);
   (0x37B, 0x37D); (0x37F, 0x37F); (0x386, 0x386); (0x388, 0x38A);
   (0x38C, 0x38C); (0x38E, 0x3A1); (0x3A3, 0x3F5); (0x3F7, 0x481);
   (0x48A, 0x52F); (0x531, 0x556); (0x560, 0x588); (0x10A0, 0x10C5);
   (0x10C7, 0x10C7); (0x10CD, 0x10CD); (0x10D0, 0x10FA); (0x10FD, 0x10FF);
   (0x13A0, 0x13F5); (0x13F8, 0x13FD); (0x1C80, 0x1C88); (0x1C90, 0x1CBA);
   (0x1CBD, 0x1CBF); (0x1D00, 0x1D2B); (0x1D6B, 0x1D77); (0x1D79, 0x1D9A);
   (0x1E00, 0x1F15); (0x1F18, 0x1F1D); (0x1F20, 0x1F45); (0x1F48, 0x1F4D);
   (0x1F50, 0x1F57); (0x1F59, 0x1F59); (0x1F5B, 0x1F5B); (0x1F5D, 0x1F5D);
   (0x1F5F, 0x1F7D); (0x1F80, 0x1FB4); (0x1FB6, 0x1FBC); (0x1FBE, 0x1FBE);
   (0x1FC2, 0x1FC4); (0x1FC6, 0x1FCC); (0x1FD0, 0x1FD3); (0x1FD6, 0x1FDB);
   (0x1FE0, 0x1FEC); (0x1FF2, 0x1FF4); (0x1FF6, 0x1FFC); (0x2102, 0x2102);
   (0x2107, 0x2107); (0x210A, 0x2113); (0x2115, 0x2115); (0x2119, 0x211D);
   (0x2124, 0x2124); (0x2126, 0x2126); (0x2128, 0x2128); (0x212A, 0x212D);
   (0x212F, 0x2134); (0x2139, 0x2139); (0x213C, 0x213F); (0x2145, 0x2149);
   (0x214E, 0x214E); (0x2160, 0x217F); (0x2183, 0x2184); (0x24B6, 0x24E9);
   (0x2C00, 0x2C7B); (0x2C7E, 0x2CE4); (0x2CEB, 0x2CEE); (0x2CF2, 0x2CF3);
   (0x2D00, 0x2D25); (0x2D27, 0x2D27); (0x2D2D, 0x2D2D); (0xA640, 0xA66D);
   (0xA680, 0xA69B); (0xA722, 0xA76F); (0xA771, 0xA787); (0xA78B, 0xA78E);
   (0xA790, 0xA7CA); (0xA7D0, 0xA7D1); (0xA7D3, 0xA7D3); (0xA7D5, 0xA7D9);
   (0xA7F5, 0xA7F6); (0xA7FA, 0xA7FA); (0xAB30, 0xAB5A); (0xAB60, 0xAB68);
   (0xAB70, 0xABBF); (0xFB00, 0xFB06); (0xFB13, 0xFB17); (0xFF21, 0xFF3A);
   (0xFF41, 0xFF5A); (0x10400, 0x1044F); (0x104B0, 0x104D3);
   (0x104D8, 0x104FB); (0x10570, 0x1057A); (0x1057C, 0x1058A);
   (0x1058C, 0x10592); (0x10594, 0x10595); (0x10597, 0x105A1);
   (0x105A3, 0x105B1); (0x105B3, 0x105B9); (0x105BB, 0x105BC);
   (0x10C80, 0x10CB2); (0x10CC0, 0x10CF2); (0x118A0, 0x118DF);
   (0x16E40, 0x16E7F); (0x1D400, 0x1D454); (0x1D456, 0x1D49C);
   (0x1D49E, 0x1D49F); (0x1D4A2, 0x1D4A2); (0x1D4A5, 0x1D4A6);
   (0x1D4A9, 0x1D4AC); (0x1D4AE, 0x1D4B9); (0x1D4BB, 0x1D4BB);
   (0x1D4BD, 0x1D4C3); (0x1D4C5, 0x1D505); (0x1D507, 0x1D50A);
   (0x1D50D, 0x1D514); (0x1D516, 0x1D51C); (0x1D51E, 0x1D539);
   (0x1D53B, 0x1D53E); (0x1D540, 0x1D544); (0x1D546, 0x1D546);
   (0x1D54A, 0x1D550); (0x1D552, 0x1D6A5); (0x1D6A8, 0x1D6C0);
   (0x1D6C2, 0x1D6DA); (0x1D6DC, 0x1D6FA); (0x1D6FC, 0x1D714);
   (0x1D716, 0x1D734); (0x1D736, 0x1D74E); (0x1D750, 0x1D76E);
   (0x1D770, 0x1D788); (0x1D78A, 0x1D7A8); (0x1D7AA, 0x1D7C2);
   (0x1D7C4, 0x1D7CB); (0x1DF00, 0x1DF09); (0x1DF0B, 0x1DF1E);
   (0x1E900, 0x1E943); (0x1F130, 0x1F149); (0x1F150, 0x1F169);
   (0x1F170, 0x1F189)].

(** The characters with the property Case_Ignorable. *)
Definition case_ignorable_ranges : list (N * N) :=
  [(0x27, 0x27); (0x2E, 0x2E); (0x3A, 0x3A); (0x5E, 0x5E); (0x60, 0x60);
   (0xA8, 0xA8); (0xAD, 0xAD); (0xAF, 0xAF); (0xB4, 0xB4); (0xB7, 0xB8);
   (0x2B0, 0x36F); (0x374, 0x375); (0x37A, 0x37A); (0x384, 0x385);
   (0x387, 0x387); (0x483, 0x489); (0x559, 0x559); (0x55F, 0x55F);
   (0x591, 0x5BD); (0x5BF, 0x5BF); (0x5C1, 0x5C2); (0x5C4, 0x5C5);
   (0x5C7, 0x5C7); (0x5F4, 0x5F4); (0x600, 0x605); (0x610, 0x61A);
   (0x61C, 0x61C); (0x640, 0x640); (0x64B, 0x65F); (0x670, 0x670);
   (0x6D6, 0x6DD); (0x6DF, 0x6E8); (0x6EA, 0x6ED); (0x70F, 0x70F);
   (0x711, 0x711); (0x730, 0x74A); (0x7A6, 0x7B0); (0x7EB, 0x7F5);
   (0x7FA, 0x7FA); (0x7FD, 0x7FD); (0x816, 0x82D); (0x859, 0x85B);
   (0x888, 0x888); (0x890, 0x891); (0x898, 0x89F); (0x8C9, 0x902);
   (0x93A, 0x93A); (0x93C, 0x93C); (0x941, 0x948); (0x94D, 0x94D);
   (0x951, 0x957); (0x962, 0x963); (0x971, 0x971); (0x981, 0x981);
   (0x9BC, 0x9BC); (0x9C1, 0x9C4); (0x9CD, 0x9CD); (0x9E2, 0x9E3);
   (0x9FE, 0x9FE); (0xA01, 0xA02); (0xA3C, 0xA3C); (0xA41, 0xA42);
   (0xA47, 0xA48); (0xA4B, 0xA4D); (0xA51, 0xA51); (0xA70, 0xA71);
   (0xA75, 0xA75); (0xA81, 0xA82); (0xABC, 0xABC); (0xAC1, 0xAC5);
   (0xAC7, 0xAC8); (0xACD, 0xACD); (0xAE2, 0xAE3); (0xAFA, 0xAFF);
   (0xB01, 0xB01); (0xB3C, 0xB3C); (0xB3F, 0xB3F); (0xB41, 0xB44);
   (0xB4D, 0xB4D); (0xB55, 0xB56); (0xB62, 0xB63); (0xB82, 0xB82);
   (0xBC0, 0xBC0); (0xBCD, 0xBCD); (0xC00, 0xC00); (0xC04, 0xC04);
   (0xC3C, 0xC3C); (0xC3E, 0xC40); (0xC46, 0xC48); (0xC4A, 0xC4D);
   (0xC55, 0xC56); (0xC62, 0xC63); (0xC81, 0xC81); (0xCBC, 0xCBC);
   (0xCBF, 0xCBF); (0xCC6, 0xCC6); (0xCCC, 0xCCD); (0xCE2, 0xCE3);
   (0xD00, 0xD01); (0xD3B, 0xD3C); (0xD41, 0xD44); (0xD4D, 0xD4D);
   (0xD62, 0xD63); (0xD81, 0xD81); (0xDCA, 0xDCA); (0xDD2, 0xDD4);
   (0xDD6, 0xDD6); (0xE31, 0xE31); (0xE34, 0xE3A); (0xE46, 0xE4E);
   (0xEB1, 0xEB1); (0xEB4, 0xEBC); (0xEC6, 0xEC6); (0xEC8, 0xECD);
   (0xF18, 0xF19); (0xF35, 0xF35); (0xF37, 0xF37); (0xF39, 0xF39);
   (0xF71, 0xF7E); (0xF80, 0xF84); (0xF86, 0xF87); (0xF8D, 0xF97);
   (0xF99, 0xFBC); (0xFC6, 0xFC6); (0x102D, 0x1030); (0x1032, 0x1037);
   (0x1039, 0x103A); (0x103D, 0x103E); (0x1058, 0x1059); (0x105E, 0x1060);
   (0x1071, 0x1074); (0x1082, 0x1082); (0x1085, 0x1086); (0x108D, 0x108D);
   (0x109D, 0x109D); (0x10FC, 0x10FC); (0x135D, 0x135F); (0x1712, 0x1714);
   (0x1732, 0x1733); (0x1752, 0x1753); (0x1772, 0x1773); (0x17B4, 0x17B5);
   (0x17B7, 0x17BD); (0x17C6, 0x17C6); (0x17C9, 0x17D3); (0x17D7, 0x17D7);
   (0x17DD, 0x17DD); (0x180B, 0x180F); (0x1843, 0x1843); (0x1885, 0x1886);
   (0x18A9, 0x18A9); (0x1920, 0x1922); (0x1927, 0x1928); (0x1932, 0x1932);
   (0x1939, 0x193B); (0x1A17, 0x1A18); (0x1A1B, 0x1A1B); (0x1A56, 0x1A56);
   (0x1A58, 0x1A5E); (0x1A60, 0x1A60); (0x1A62, 0x1A62); (0x1A65, 0x1A6C);
   (0x1A73, 0x1A7C); (0x1A7F, 0x1A7F); (0x1AA7, 0x1AA7); (0x1AB0, 0x1ACE);
   (0x1B00, 0x1B03); (0x1B34, 0x1B34); (0x1B36, 0x1B3A); (0x1B3C, 0x1B3C);
   (0x1B42, 0x1B42); (0x1B6B, 0x1B73); (0x1B80, 0x1B81); (0x1BA2, 0x1BA5);
   (0x1BA8, 0x1BA9); (0x1BAB, 0x1BAD); (0x1BE6, 0x1BE6); (0x1BE8, 0x1BE9);
   (0x1BED, 0x1BED); (0x1BEF, 0x1BF1); (0x1C2C, 0x1C33); (0x1C36, 0x1C37);
   (0x1C78, 0x1C7D); (0x1CD0, 0x1CD2); (0x1CD4, 0x1CE0); (0x1CE2, 0x1CE8);
   (0x1CED, 0x1CED); (0x1CF4, 0x1CF4); (0x1CF8, 0x1CF9); (0x1D2C, 0x1D6A);
   (0x1D78, 0x1D78); (0x1D9B, 0x1DFF); (0x1FBD, 0x1FBD); (0x1FBF, 0x1FC1);
   (0x1FCD, 0x1FCF); (0x1FDD, 0x1FDF); (0x1FED, 0x1FEF); (0x1FFD, 0x1FFE);
   (0x200B, 0x200F); (0x2018, 0x2019); (0x2024, 0x2024); (0x2027, 0x2027);
   (0x202A, 0x202E); (0x2060, 0x2064); (0x2066, 0x206F); (0x2071, 0x2071);
   (0x207F, 0x207F); (0x2090, 0x209C); (0x20D0, 0x20F0); (0x2C7C, 0x2C7D);
   (0x2CEF, 0x2CF1); (0x2D6F, 0x2D6F); (0x2D7F, 0x2D7F); (0x2DE0, 0x2DFF);
   (0x2E2F, 0x2E2F); (0x3005, 0x3005); (0x302A, 0x302D); (0x3031, 0x3035);
   (0x303B, 0x303B); (0x3099, 0x309E); (0x30FC, 0x30FE); (0xA015, 0xA015);
   (0xA4F8, 0xA4FD); (0xA60C, 0xA60C); (0xA66F, 0xA672); (0xA674, 0xA67D);
   (0xA67F, 0xA67F); (0xA69C, 0xA69F); (0xA6F0, 0xA6F1); (0xA700, 0xA721);
   (0xA770, 0xA770); (0xA788, 0xA78A); (0xA7F2, 0xA7F4); (0xA7F8, 0xA7F9);
   (0xA802, 0xA802); (0xA806, 0xA806); (0xA80B, 0xA80B); (0xA825, 0xA826);
   (0xA82C, 0xA82C); (0xA8C4, 0xA8C5); (0xA8E0, 0xA8F1); (0xA8FF, 0xA8FF);
   (0xA926, 0xA92D); (0xA947, 0xA951); (0xA980, 0xA982); (0xA9B3, 0xA9B3);
   (0xA9B6, 0xA9B9); (0xA9BC, 0xA9BD); (0xA9CF, 0xA9CF); (0xA9E5, 0xA9E6);
   (0xAA29, 0xAA2E); (0xAA31, 0xAA32); (0xAA35, 0xAA36); (0xAA43, 0xAA43);
   (0xAA4C, 0xAA4C); (0xAA70, 0xAA70); (0xAA7C, 0xAA7C); (0xAAB0, 0xAAB0);
   (0xAAB2, 0xAAB4); (0xAAB7, 0xAAB8); (0xAABE, 0xAABF); (0xAAC1, 0xAAC1);
   (0xAADD, 0xAADD); (0xAAEC, 0xAAED); (0xAAF3, 0xAAF4); (0xAAF6, 0xAAF6);
   (0xAB5B, 0xAB5F); (0xAB69, 0xAB6B); (0xABE5, 0xABE5); (0xABE8, 0xABE8);
   (0xABED, 0xABED); (0xFB1E, 0xFB1E); (0xFBB2, 0xFBC2); (0xFE00, 0xFE0F);
   (0xFE13, 0xFE13); (0xFE20, 0xFE2F); (0xFE52, 0xFE52); (0xFE55, 0xFE55);
   (0xFEFF, 0xFEFF); (0xFF07, 0xFF07); (0xFF0E, 0xFF0E); (0xFF1A, 0xFF1A);
   (0xFF3E, 0xFF3E); (0xFF40, 0xFF40); (0xFF70, 0xFF70); (0xFF9E, 0xFF9F);
   (0xFFE3, 0xFFE3); (0xFFF9, 0xFFFB); (0x101FD, 0x101FD);
   (0x102E0, 0x102E0); (0x10376, 0x1037A); (0x10780, 0x10785);
   (0x10787, 0x107B0); (0x107B2, 0x107BA); (0x10A01, 0x10A03);
   (0x10A05, 0x10A06); (0x10A0C, 0x10A0F); (0x10A38, 0x10A3A);
   (0x10A3F, 0x10A3F); (0x10AE5, 0x10AE6); (0x10D24, 0x10D27);
   (0x10EAB, 0x10EAC); (0x10F46, 0x10F50); (0x10F82, 0x10F85);
   (0x11001, 0x11001); (0x11038, 0x11046); (0x11070, 0x11070);
   (0x11073, 0x11074); (0x1107F, 0x11081); (0x110B3, 0x110B6);
   (0x110B9, 0x110BA); (0x110BD, 0x110BD); (0x110C2, 0x110C2);
   (0x110CD, 0x110CD); (0x11100, 0x11102); (0x11127, 0x1112B);
   (0x1112D, 0x11134); (0x11173, 0x11173); (0x11180, 0x11181);
   (0x111B6, 0x111BE); (0x111C9, 0x111CC); (0x111CF, 0x111CF);
   (0x1122F, 0x11231); (0x11234, 0x11234); (0x11236, 0x11237);
   (0x1123E, 0x1123E); (0x112DF, 0x112DF); (0x112E3, 0x112EA);
   (0x11300, 0x11301); (0x1133B, 0x1133C); (0x11340, 0x11340);
   (0x11366, 0x1136C); (0x11370, 0x11374); (0x11438, 0x1143F);
   (0x11442, 0x11444); (0x11446, 0x11446); (0x1145E, 0x1145E);
   (0x114B3, 0x114B8); (0x114BA, 0x114BA); (0x114BF, 0x114C0);
   (0x114C2, 0x114C3); (0x115B2, 0x115B5); (0x115BC, 0x115BD);
   (0x115BF, 0x115C0); (0x115DC, 0x115DD); (0x11633, 0x1163A);
   (0x1163D, 0x1163D); (0x1163F, 0x11640); (0x116AB, 0x116AB);
   (0x116AD, 0x116AD); (0x116B0, 0x116B5); (0x116B7, 0x116B7);
   (0x1171D, 0x1171F); (0x11722, 0x11725); (0x11727, 0x1172B);
   (0x1182F, 0x11837); (0x11839, 0x1183A); (0x1193B, 0x1193C);
   (0x1193E, 0x1193E); (0x11943, 0x11943); (0x119D4, 0x119D7);
   (0x119DA, 0x119DB); (0x119E0, 0x119E0); (0x11A01, 0x11A0A);
   (0x11A33, 0x11A38); (0x11A3B, 0x11A3E); (0x11A47, 0x11A47);
   (0x11A51, 0x11A56); (0x11A59, 0x11A5B); (0x11A8A, 0x11A96);
   (0x11A98, 0x11A99); (0x11C30, 0x11C36); (0x11C38, 0x11C3D);
   (0x11C3F, 0x11C3F); (0x11C92, 0x11CA7); (0x11CAA, 0x11CB0);
   (0x11CB2, 0x11CB3); (0x11CB5, 0x11CB6); (0x11D31, 0x11D36);
   (0x11D3A, 0x11D3A); (0x11D3C, 0x11D3D); (0x11D3F, 0x11D45);
   (0x11D47, 0x11D47); (0x11D90, 0x11D91); (0x11D95, 0x11D95);
   (0x11D97, 0x11D97); (0x11EF3, 0x11EF4); (0x13430, 0x13438);
   (0x16AF0, 0x16AF4); (0x16B30, 0x16B36); (0x16B40, 0x16B43);
   (0x16F4F, 0x16F4F); (0x16F8F, 0x16F9F); (0x16FE0, 0x16FE1);
   (0x16FE3, 0x16FE4); (0x1AFF0, 0x1AFF3); (0x1AFF5, 0x1AFFB);
   (0x1AFFD, 0x1AFFE); (0x1BC9D, 0x1BC9E); (0x1BCA0, 0x1BCA3);
   (0x1CF00, 0x1CF2D); (0x1CF30, 0x1CF46); (0x1D167, 0x1D169);
   (0x1D173, 0x1D182); (0x1D185, 0x1D18B); (0x1D1AA, 0x1D1AD);
   (0x1D242, 0x1D244); (0x1DA00, 0x1DA36); (0x1DA3B, 0x1DA6C);
   (0x1DA75, 0x1DA75); (0x1DA84, 0x1DA84); (0x1DA9B, 0x1DA9F);
   (0x1DAA1, 0x1DAAF); (0x1E000, 0x1E006); (0x1E008, 0x1E018);
   (0x1E01B, 0x1E021); (0x1E023, 0x1E024); (0x1E026, 0x1E02A);
   (0x1E130, 0x1E13D); (0x1E2AE, 0x1E2AE); (0x1E2EC, 0x1E2EF);
   (0x1E8D0, 0x1E8D6); (0x1E944, 0x1E94B); (0x1F3FB, 0x1F3FF);
   (0xE0001, 0xE0001); (0xE0020, 0xE007F); (0xE0100, 0xE01EF)].

Fixpoint mapped (runs : list (N * N * N * N)) (c : N) : N :=
  match runs with
  | [] => c
  | (first, count, step, image) :: rest =>
      if (first <=? c) && (c <? first + count * step)
         && ((c - first) mod step =? 0)
      then image + (c - first)
      else mapped rest c
  end.

(** The lowercase of one character; only the dotted capital I has a
    lowercase of two characters. *)
Definition to_lower (c : N) : list N :=
  if c =? 0x130 then [0x69; 0x307] else [mapped lowercase_runs c].

Definition within (ranges : list (N * N)) (c : N) : bool :=
  existsb (fun r => (fst r <=? c) && (c <=? snd r)) ranges.

Definition cased (c : N) : bool := within cased_ranges c.
Definition case_ignorable (c : N) : bool := within case_ignorable_ranges c.

Fixpoint first_not_ignorable (l : list N) : option N :=
  match l with
  | [] => None
  | c :: r => if case_ignorable c then first_not_ignorable r else Some c
  end.

(** A capital sigma is final when a cased character comes before it and
    none after it, case-ignorable characters apart. *)
Definition final_sigma (before after : list N) : bool :=
  match first_not_ignorable before with
  | Some c =>
      cased c &&
      match first_not_ignorable after with
      | Some d => negb (cased d)
      | None => true
      end
  | None => false
  end.

(** [before] holds the characters already passed, the nearest first. *)
Fixpoint lower_from (before l : list N) : list N :=
  match l with
  | [] => []
  | c :: r =>
      (if c =? 0x3A3
       then [if final_sigma before r then 0x3C2 else 0x3C3]
       else to_lower c)
      ++ lower_from (c :: before) r
  end.

Definition lower (l : list N) : list N := lower_from [] l.

End Unicode.

(* ------------------------------------------------------------------ *)
(** ** Python helpers *)

Module Py.

(** [s.lower()]: every character gives way to its lowercase; a capital
    sigma becomes a final or a medial small sigma by what surrounds it. *)
Definition lower (s : string) : string :=
  Unicode.encode (Unicode.lower (Unicode.decode s)).

(** The white space [s.strip()] removes, in UTF-8: the characters U+0009
    to U+000D, U+001C to U+0020, *)
Definition space1 (a : ascii) : bool :=
  let x := N_of_ascii a in
  ((9 <=? x) && (x <=? 13) || (28 <=? x) && (x <=? 32))%N.

(** U+0085 and U+00A0, *)
Definition space2 (a b : ascii) : bool :=
  let x := N_of_ascii a in
  let y := N_of_ascii b in
  ((x =? 0xC2) && ((y =? 0x85) || (y =? 0xA0)))%N.

(** U+1680, U+2000 to U+200A, U+2028, U+2029, U+202F, U+205F and U+3000. *)
Definition space3 (a b c : ascii) : bool :=
  let x := N_of_ascii a in
  let y := N_of_ascii b in
  let z := N_of_ascii c in
  ((x =? 0xE1) && (y =? 0x9A) && (z =? 0x80)
   || (x =? 0xE2) && (y =? 0x80)
      && ((0x80 <=? z) && (z <=? 0x8A) || (z =? 0xA8) || (z =? 0xA9)
          || (z =? 0xAF))
   || (x =? 0xE2) && (y =? 0x81) && (z =? 0x9F)
   || (x =? 0xE3) && (y =? 0x80) && (z =? 0x80))%N.

(** The text is one white-space character. *)
Definition blank (s : string) : bool :=
  match s with
  | String a EmptyString => space1 a
  | String a (String b EmptyString) => space2 a b
  | String a (String b (String c EmptyString)) => space3 a b c
  | _ => false
  end.

(** [s.lstrip()]. *)
Fixpoint lstrip (s : string) : string :=
  match s with
  | EmptyString => s
  | String a r =>
      if space1 a then lstrip r
      else
        match r with
        | EmptyString => s
        | String b r1 =>
            if space2 a b then lstrip r1
            else
              match r1 with
              | EmptyString => s
              | String c r2 => if space3 a b c then lstrip r2 else s
              end
        end
  end.

(** [s.rstrip()]: what is left of the text after a character is dropped
    when it is white space and nothing else is left after it. *)
Fixpoint rstrip (s : string) : string :=
  match s with
  | EmptyString => EmptyString
  | String a r =>
      let r' := rstrip r in
      if blank (String a r') then EmptyString else String a r'
  end.

(** [s.strip()]. *)
Definition strip (s : string) : string := rstrip (lstrip s).

(** [pat in s] on strings. *)
Fixpoint contains (pat s : string) : bool :=
  (String.prefix pat s ||
   match s with
   | EmptyString => false
   | String _ r => contains pat r
   end)%bool.

(** Truthiness of an optional string ([None] and the empty string are falsy). *)
Definition truthy_str (o : option string) : bool :=
  match o with
  | Some (String _ _) => true
  | _ => false
  end.

(** Truthiness of an optional integer ([None] and [0] are falsy). *)
Definition truthy_int (o : option Z) : bool :=
  match o with
  | Some z => negb (z =? 0)
  | None => false
  end.

(** [s.split(sep, 1)] when [sep] is a single character that occurs in [s]:
    the text before the first occurrence and the text after it. *)
Fixpoint split_once (sep : ascii) (s : string) : option (string * string) :=
  match s with
  | EmptyString => None
  | String c r =>
      if Ascii.eqb c sep then Some (EmptyString, r)
      else match split_once sep r with
           | Some (a, b) => Some (String c a, b)
           | None => None
           end
  end.

End Py.

(* ------------------------------------------------------------------ *)
(** ** SQL helpers *)

Module Sql.

Section Order.
Context {A : Type}.
Variable le : A -> A -> bool.

Fixpoint insert_by (x : A) (l : list A) : list A :=
  match l with
  | [] => [x]
  | y :: r => if le x y then x :: l else y :: insert_by x r
  end.

(** [ORDER BY]: rows sorted by [le], rows that compare equal stay in
    table order. *)
Definition order_by (l : list A) : list A := fold_right insert_by [] l.
End Order.

(** [LOWER(x)] of SQLite, which folds the letters A to Z only. *)
Definition lower_ascii (c : ascii) : ascii :=
  let n := nat_of_ascii c in
  if (Nat.leb 65 n && Nat.leb n 90)%bool then ascii_of_nat (n + 32) else c.

Fixpoint lower (s : string) : string :=
  match s with
  | EmptyString => EmptyString
  | String c r => String (lower_ascii c) (lower r)
  end.

(** [LIMIT n]: SQLite treats a negative limit as no limit. *)
Definition limit {A : Type} (n : Z) (l : list A) : list A :=
  if n <? 0 then l else firstn (Z.to_nat n) l.

End Sql.

(* ------------------------------------------------------------------ *)
(** ** database.py: tables and queries *)

Module Database.

(** Row of [songs]. *)
Record song_row := {
  row_id : Z;
  row_position : Z;
  row_artist : string;
  row_title : string;
  row_year : option Z;
  row_musicbrainz_id : option string;
  row_cover_art_url : option string;
  row_cover_art_cached_at : option Z
}.

(** Row of [position_history]. *)
Record history_row := {
  ph_song_id : Z;
  ph_year : Z;
  ph_position : Z
}.

(** Row of [fun_facts]. *)
Record fun_fact_row := {
  ff_song_id : Z;
  ff_fact_text : string;
  ff_fact_order : Z
}.

(** The singleton row of [playlist_state]. *)
Record playlist_state_row := {
  ps_current_position : Z;
  ps_current_song_id : Z;
  ps_detected_at : Z;
  ps_npo_metadata : string * string * option string
}.

(** Row of [notification_rules]; [enabled] is the stored integer. *)
Record rule_row := {
  rule_id : Z;
  rule_type : string;
  match_pattern : string;
  rule_enabled : Z
}.

(** The singleton row of [notification_settings]; the two JSON columns are
    held decoded, [None] standing for NULL or the empty text. *)
Record settings_row := {
  col_notification_targets : option (list string);
  col_notify_current_song : bool;
  col_notify_upcoming_song : bool;
  col_upcoming_notify_positions : option (list Z)
}.

Record database := {
  songs : list song_row;
  position_history : list history_row;
  fun_facts : list fun_fact_row;
  playlist_state : option playlist_state_row;
  notification_rules : list rule_row;
  notification_settings : option settings_row
}.

(** The song dictionaries handed out by the queries.  A key that a query
    does not set reads as [None] / [[]] through [dict.get]. *)
Record song := {
  d_id : Z;
  d_position : Z;
  d_artist : string;
  d_title : string;
  d_year : option Z;
  d_cover_art_url : option string;
  d_cover_art_cached_at : option Z;
  d_fun_facts : list string;
  d_position_history : list (Z * Z)
}.

(** The rule dictionaries of [get_notification_rules]. *)
Record rule := {
  r_id : Z;
  r_rule_type : string;
  r_match_pattern : string;
  r_enabled : bool
}.

(** The settings dictionary of [get_notification_settings]. *)
Record settings := {
  notification_targets : list string;
  notify_current_song : bool;
  notify_upcoming_song : bool;
  upcoming_notify_positions : list Z
}.

Definition FUZZY_MATCH_THRESHOLD : float := 85.
Definition CACHE_DURATION_HOURS : Z := 24.

(** [get_position_history]: years before 2025 of one song, most recent
    first, at most [limit] of them. *)
Definition get_position_history_q (db : database) (song_id : Z) (limit : Z)
  : list (Z * Z) :=
  map (fun h => (ph_year h, ph_position h))
      (Sql.limit limit
         (Sql.order_by (fun a b => ph_year b <=? ph_year a)
            (filter (fun h => (ph_song_id h =? song_id) && (ph_year h <? 2025))%bool
                    (position_history db)))).

(** [SELECT fact_text ... WHERE song_id = ? ORDER BY fact_order]. *)
Definition fun_facts_q (db : database) (song_id : Z) : list string :=
  map ff_fact_text
      (Sql.order_by (fun a b => ff_fact_order a <=? ff_fact_order b)
         (filter (fun f => ff_song_id f =? song_id) (fun_facts db))).

(** The dictionary [match_song] and [get_song_by_position] build from a row
    before the fun facts and the history are attached. *)
Definition dict_of_row (r : song_row) : song :=
  {| d_id := row_id r;
     d_position := row_position r;
     d_artist := row_artist r;
     d_title := row_title r;
     d_year := row_year r;
     d_cover_art_url := row_cover_art_url r;
     d_cover_art_cached_at := row_cover_art_cached_at r;
     d_fun_facts := [];
     d_position_history := [] |}.

Definition with_facts_and_history (db : database) (s : song) : song :=
  {| d_id := d_id s;
     d_position := d_position s;
     d_artist := d_artist s;
     d_title := d_title s;
     d_year := d_year s;
     d_cover_art_url := d_cover_art_url s;
     d_cover_art_cached_at := d_cover_art_cached_at s;
     d_fun_facts := fun_facts_q db (d_id s);
     d_position_history := get_position_history_q db (d_id s) 5 |}.

Section Matcher.
(** [rapidfuzz.fuzz.partial_ratio]. *)
Variable partial_ratio : string -> string -> float.

(** [(artist_score + title_score) / 2], rounded as the sum of two floats
    is. *)
Definition combined_score (artist title : string) (row : song_row) : float :=
  ((partial_ratio (Py.lower artist) (Py.lower (row_artist row)) +
    partial_ratio (Py.lower title) (Py.lower (row_title row))) / 2)%float.

(** The [for song in songs] loop of [match_song], from a given
    [(best_match, best_score)]. *)
Fixpoint scan (artist title : string) (rows : list song_row)
         (best_match : option song_row) (best_score : float)
  : option song_row * float :=
  match rows with
  | [] => (best_match, best_score)
  | row :: rest =>
      let c := combined_score artist title row in
      if ((best_score <? c)%float && (FUZZY_MATCH_THRESHOLD <=? c)%float)%bool
      then scan artist title rest (Some row) c
      else scan artist title rest best_match best_score
  end.

(** The loop from [best_match = None], [best_score = 0]. *)
Definition best_candidate (db : database) (artist title : string)
  : option song_row * float :=
  scan artist title (songs db) None 0%float.

(** What [match_song] returns when storage answers. *)
Definition match_song_q (db : database) (artist title : string)
  : option song :=
  match fst (best_candidate db artist title) with
  | Some row => Some (with_facts_and_history db (dict_of_row row))
  | None => None
  end.
End Matcher.

(** [get_song_by_position]: [fetchone] of [WHERE position = ?]. *)
Definition get_song_by_position_q (db : database) (position : Z)
  : option song :=
  match filter (fun r => row_position r =? position) (songs db) with
  | r :: _ => Some (with_facts_and_history db (dict_of_row r))
  | [] => None
  end.



(** [get_notification_rules(enabled_only=True)]. *)
Definition get_notification_rules_q (db : database) (enabled_only : bool)
  : list rule :=
  map (fun r =>
         {| r_id := rule_id r;
            r_rule_type := rule_type r;
            r_match_pattern := match_pattern r;
            r_enabled := negb (rule_enabled r =? 0) |})
      (if enabled_only
       then filter (fun r => rule_enabled r =? 1) (notification_rules db)
       else notification_rules db).

Definition default_targets : list string := ["persistent_notification"].
Definition default_positions : list Z := [1; 2; 3].

(** [get_notification_settings], with its defaults. *)
Definition get_notification_settings_q (db : database) : settings :=
  match notification_settings db with
  | None =>
      {| notification_targets := default_targets;
         notify_current_song := true;
         notify_upcoming_song := false;
         upcoming_notify_positions := default_positions |}
  | Some row =>
      {| notification_targets :=
           match col_notification_targets row with
           | Some t => t
           | None => default_targets
           end;
         notify_current_song := col_notify_current_song row;
         notify_upcoming_song := col_notify_upcoming_song row;
         upcoming_notify_positions :=
           match col_upcoming_notify_positions row with
           | Some p => p
           | None => default_positions
           end |}
  end.

(** Time is counted in microseconds, the resolution of [datetime]. *)
Definition seconds (n : Z) : Z := n * 1000000.
Definition hours (n : Z) : Z := seconds (n * 3600).

(** The row test of [is_cover_art_cached]: the stored [cover_art_cached_at]
    when the row exists and both columns are set, [None] where the method
    returns [False] before looking at the clock. *)
Definition cover_art_stamp_q (db : database) (song_id : Z) : option Z :=
  match filter (fun r => row_id r =? song_id) (songs db) with
  | [] => None
  | row :: _ =>
      match row_cover_art_url row, row_cover_art_cached_at row with
      | Some (String _ _), Some cached_at => Some cached_at
      | _, _ => None
      end
  end.

(** [cache_valid] of [is_cover_art_cached]. *)
Definition cache_valid (now cached_at : Z) : bool :=
  now - cached_at <? hours CACHE_DURATION_HOURS.

(** [update_cover_art]: [UPDATE songs SET ... WHERE id = ?]. *)
Definition update_cover_art_q (db : database) (song_id : Z)
           (cover_art_url : string) (musicbrainz_id : option string)
           (now : Z) : database :=
  {| songs :=
       map (fun r =>
              if row_id r =? song_id
              then {| row_id := row_id r;
                      row_position := row_position r;
                      row_artist := row_artist r;
                      row_title := row_title r;
                      row_year := row_year r;
                      row_musicbrainz_id := musicbrainz_id;
                      row_cover_art_url := Some cover_art_url;
                      row_cover_art_cached_at := Some now |}
              else r)
           (songs db);
     position_history := position_history db;
     fun_facts := fun_facts db;
     playlist_state := playlist_state db;
     notification_rules := notification_rules db;
     notification_settings := notification_settings db |}.

(** [update_playlist_state]: [INSERT OR REPLACE] of the row with [id = 1]. *)
Definition update_playlist_state_q (db : database) (position song_id : Z)
           (npo_metadata : string * string * option string) (now : Z)
  : database :=
  {| songs := songs db;
     position_history := position_history db;
     fun_facts := fun_facts db;
     playlist_state :=
       Some {| ps_current_position := position;
               ps_current_song_id := song_id;
               ps_detected_at := now;
               ps_npo_metadata := npo_metadata |};
     notification_rules := notification_rules db;
     notification_settings := notification_settings db |}.

End Database.

(* ------------------------------------------------------------------ *)
(** ** The world the integration runs in *)

(** An observation: the dictionary returned by a metadata source.  The
    stream and the aggregator do not set [cover_art_url]. *)
Record metadata := {
  md_artist : string;
  md_title : string;
  md_cover_art_url : option string
}.

(** The three sources of [NPOClient], in the order they are tried. *)
Inductive stage := Website | Icecast | Onlineradiobox.

(** What a source does when asked: raise, return [None], or return an
    observation. *)
Inductive stage_outcome :=
| StageRaises
| StageNone
| StageFound (m : metadata).

(** The message composed by [_send_notification]: the heading, the song
    line, the year when truthy, the first fun fact when there is one. *)
Record message := {
  msg_upcoming : bool;
  msg_position : Z;
  msg_artist : string;
  msg_title : string;
  msg_year : option Z;
  msg_fun_fact : option string
}.

(** The payload of a service call: the message, with the notification id
    of a persistent notification or the image of a notify service. *)
Inductive payload :=
| Persistent (m : message) (song_id : Z) (is_current : bool)
| Notify (m : message) (image : option string).

(** Calls that leave the integration. *)
Inductive event :=
| Upstream (s : stage)
| CoverLookup (artist title : string)
| CoverArtWrite (song_id : Z) (cover_art_url : string)
                (musicbrainz_id : option string)
| PlaylistStateWrite (position song_id : Z) (npo_metadata : metadata)
| ServiceCall (domain service : string) (p : payload).

Inductive exn := IOError | TypeError | UpdateFailed.

Inductive outcome (A : Type) :=
| Ok (a : A)
| Raise (e : exn).
Arguments Ok {A} a.
Arguments Raise {A} e.

(** The reason a tick gives when it resolves no song. *)
Inductive tick_error :=
| NoMetadataAvailable
| NotInTop2000 (artist title : string).

(** The dictionary returned by [_async_update_data]. *)
Record tick_data := {
  current_song : option Database.song;
  song_changed : bool;
  error : option tick_error;
  npo_metadata : option metadata
}.

Record world := {
  calls : nat;                          (* clock reads and I/O calls so far *)
  db : Database.database;               (* the SQLite file *)
  cached_metadata : option metadata;    (* NPOClient._cached_metadata *)
  last_fetch : option Z;                (* NPOClient._last_fetch *)
  last_song_id : option Z;              (* coordinator._last_song_id *)
  data : option tick_data;              (* coordinator.data *)
  last_update_success : bool;           (* coordinator.last_update_success *)
  trace : list event                    (* calls made, oldest first *)
}.

(** The answers of the outside, by the number of the call. *)
Record environment := {
  partial_ratio : string -> string -> float;  (* rapidfuzz.fuzz.partial_ratio *)
  clock : nat -> Z;                           (* datetime.now() *)
  io_fault : nat -> bool;                     (* the storage or service call raises *)
  upstream : nat -> stage -> stage_outcome;   (* the metadata sources *)
  search_musicbrainz : nat -> string -> string -> option string * option string
}.

Definition bump (w : world) : world :=
  {| calls := S (calls w); db := db w; cached_metadata := cached_metadata w;
     last_fetch := last_fetch w; last_song_id := last_song_id w;
     data := data w; last_update_success := last_update_success w;
     trace := trace w |}.

Definition record (e : event) (w : world) : world :=
  {| calls := calls w; db := db w; cached_metadata := cached_metadata w;
     last_fetch := last_fetch w; last_song_id := last_song_id w;
     data := data w; last_update_success := last_update_success w;
     trace := trace w ++ [e] |}.

Definition set_db (d : Database.database) (w : world) : world :=
  {| calls := calls w; db := d; cached_metadata := cached_metadata w;
     last_fetch := last_fetch w; last_song_id := last_song_id w;
     data := data w; last_update_success := last_update_success w;
     trace := trace w |}.

Definition set_cache (m : metadata) (at_ : Z) (w : world) : world :=
  {| calls := calls w; db := db w; cached_metadata := Some m;
     last_fetch := Some at_; last_song_id := last_song_id w;
     data := data w; last_update_success := last_update_success w;
     trace := trace w |}.

Definition set_last_song_id (i : Z) (w : world) : world :=
  {| calls := calls w; db := db w; cached_metadata := cached_metadata w;
     last_fetch := last_fetch w; last_song_id := Some i;
     data := data w; last_update_success := last_update_success w;
     trace := trace w |}.

Definition set_data (d : option tick_data) (ok : bool) (w : world) : world :=
  {| calls := calls w; db := db w; cached_metadata := cached_metadata w;
     last_fetch := last_fetch w; last_song_id := last_song_id w;
     data := d; last_update_success := ok;
     trace := trace w |}.

(** *** Computations: state that survives an exception *)

Definition M (A : Type) : Type := world -> outcome A * world.

Definition ret {A} (a : A) : M A := fun w => (Ok a, w).

Definition bind {A B} (m : M A) (k : A -> M B) : M B :=
  fun w =>
    match m w with
    | (Ok a, w') => k a w'
    | (Raise e, w') => (Raise e, w')
    end.

Definition raise {A} (e : exn) : M A := fun w => (Raise e, w).

(** [try: m  except Exception as err: h err]. *)
Definition try_except {A} (m : M A) (h : exn -> M A) : M A :=
  fun w =>
    match m w with
    | (Ok a, w') => (Ok a, w')
    | (Raise e, w') => h e w'
    end.

Definition gets {A} (f : world -> A) : M A := fun w => (Ok (f w), w).
Definition modify (f : world -> world) : M unit := fun w => (Ok tt, f w).

Declare Scope monad_scope.
Delimit Scope monad_scope with monad.
Notation "x <- m ;; k" := (bind m (fun x => k))
  (at level 61, m at next level, right associativity) : monad_scope.
Notation "m ;; k" := (bind m (fun _ => k))
  (at level 61, right associativity) : monad_scope.
Local Open Scope monad_scope.

Section Outside.
Variable env : environment.

(** [datetime.now()]. *)
Definition now : M Z := fun w => (Ok (clock env (calls w)), bump w).

(** A call to storage or to a Home Assistant service: it may raise. *)
Definition io : M unit :=
  fun w => (if io_fault env (calls w) then Raise IOError else Ok tt, bump w).

Definition emit (e : event) : M unit := modify (record e).
End Outside.

(* ------------------------------------------------------------------ *)
(** ** database.py: the methods of [DatabaseManager] *)

Module DatabaseManager.
Import Database.

Section Methods.
Variable env : environment.

Definition get_position_history (song_id limit : Z) : M (list (Z * Z)) :=
  io env ;;
  d <- gets db ;;
  ret (get_position_history_q d song_id limit).

(** The fun facts are read on the connection the row came from; the
    history is read by [get_position_history] on one of its own. *)
Definition attach (s : song) : M song :=
  d <- gets db ;;
  let facts := fun_facts_q d (d_id s) in
  history <- get_position_history (d_id s) 5 ;;
  ret {| d_id := d_id s;
         d_position := d_position s;
         d_artist := d_artist s;
         d_title := d_title s;
         d_year := d_year s;
         d_cover_art_url := d_cover_art_url s;
         d_cover_art_cached_at := d_cover_art_cached_at s;
         d_fun_facts := facts;
         d_position_history := history |}.

Definition match_song (artist title : string) : M (option song) :=
  io env ;;
  d <- gets db ;;
  match fst (best_candidate (partial_ratio env) d artist title) with
  | Some row => s <- attach (dict_of_row row) ;; ret (Some s)
  | None => ret None
  end.

Definition get_song_by_position (position : Z) : M (option song) :=
  io env ;;
  d <- gets db ;;
  match filter (fun r => row_position r =? position) (songs d) with
  | [] => ret None
  | row :: _ => s <- attach (dict_of_row row) ;; ret (Some s)
  end.

(** The [for row in rows] loop of [get_upcoming_songs]. *)
Fixpoint upcoming_loop (rows : list song_row) : M (list song) :=
  match rows with
  | [] => ret []
  | row :: rest =>
      history <- get_position_history (row_id row) 5 ;;
      upcoming <- upcoming_loop rest ;;
      ret ({| d_id := row_id row;
              d_position := row_position row;
              d_artist := row_artist row;
              d_title := row_title row;
              d_year := row_year row;
              d_cover_art_url := row_cover_art_url row;
              d_cover_art_cached_at := None;
              d_fun_facts := [];
              d_position_history := history |} :: upcoming)
  end.


Definition update_cover_art (song_id : Z) (cover_art_url : string)
           (musicbrainz_id : option string) : M unit :=
  emit (CoverArtWrite song_id cover_art_url musicbrainz_id) ;;
  io env ;;
  t <- now env ;;
  modify (fun w =>
            set_db (update_cover_art_q (db w) song_id cover_art_url
                                       musicbrainz_id t) w).

Definition is_cover_art_cached (song_id : Z) : M bool :=
  io env ;;
  d <- gets db ;;
  match cover_art_stamp_q d song_id with
  | None => ret false
  | Some cached_at => t <- now env ;; ret (cache_valid t cached_at)
  end.

Definition update_playlist_state (position song_id : Z)
           (npo_metadata : metadata) : M unit :=
  emit (PlaylistStateWrite position song_id npo_metadata) ;;
  io env ;;
  t <- now env ;;
  modify (fun w =>
            set_db (update_playlist_state_q (db w) position song_id
                      (md_artist npo_metadata, md_title npo_metadata,
                       md_cover_art_url npo_metadata) t) w).

Definition get_notification_rules (enabled_only : bool) : M (list rule) :=
  io env ;;
  d <- gets db ;;
  ret (get_notification_rules_q d enabled_only).

Definition get_notification_settings : M settings :=
  io env ;;
  d <- gets db ;;
  ret (get_notification_settings_q d).
End Methods.

End DatabaseManager.

(* ------------------------------------------------------------------ *)
(** ** npo_client.py *)

Module NPOClient.

Definition cache_duration : Z := Database.seconds 30.

Section Client.
Variable env : environment.

(** One of [_scrape_npo_website], [_fetch_icecast_metadata],
    [_scrape_onlineradiobox]: the request goes out, and the source
    raises, finds nothing, or returns an observation. *)
Definition fetch_stage (s : stage) : M (option metadata) :=
  emit (Upstream s) ;;
  fun w =>
    (match upstream env (calls w) s with
     | StageRaises => Raise IOError
     | StageNone => Ok None
     | StageFound m => Ok (Some m)
     end, bump w).

Definition _cache_metadata (m : metadata) : M unit :=
  t <- now env ;;
  modify (set_cache m t).

(** One [try] block of [get_current_metadata]: the observation of the
    stage, cached, or [None] when the chain has to go on. *)
Definition try_stage (s : stage) : M (option metadata) :=
  try_except
    (r <- fetch_stage s ;;
     match r with
     | Some m => _cache_metadata m ;; ret (Some m)
     | None => ret None
     end)
    (fun _ => ret None).

Definition fallback_chain : M (option metadata) :=
  r1 <- try_stage Website ;;
  match r1 with
  | Some m => ret (Some m)
  | None =>
      r2 <- try_stage Icecast ;;
      match r2 with
      | Some m => ret (Some m)
      | None =>
          r3 <- try_stage Onlineradiobox ;;
          match r3 with
          | Some m => ret (Some m)
          | None => ret None
          end
      end
  end.

Definition get_current_metadata : M (option metadata) :=
  c <- gets cached_metadata ;;
  f <- gets last_fetch ;;
  match c, f with
  | Some m, Some fetched =>
      t <- now env ;;
      if t - fetched <? cache_duration then ret (Some m)
      else fallback_chain
  | _, _ => fallback_chain
  end.
End Client.

End NPOClient.

(* ------------------------------------------------------------------ *)
(** ** coverart.py *)

Module CoverArtClient.

Section Client.
Variable env : environment.

(** [_search_musicbrainz] catches every exception itself and answers
    [(musicbrainz_id, cover_url)]. *)
Definition _search_musicbrainz (artist title : string)
  : M (option string * option string) :=
  emit (CoverLookup artist title) ;;
  fun w => (Ok (search_musicbrainz env (calls w) artist title), bump w).

(** [get_cover_art].  [cached_at] arrives as the text SQLite returned for
    the [TIMESTAMP] column (the text [is_cover_art_cached] parses with
    [fromisoformat]), so [datetime.now() - cached_at] raises [TypeError],
    before the [try] block is entered. *)
Definition get_cover_art (artist title : string)
           (cached_url : option string) (cached_at : option Z)
  : M (option string * option string) :=
  match Py.truthy_str cached_url, cached_at with
  | true, Some _ => _ <- now env ;; raise TypeError
  | _, _ =>
      try_except
        (r <- _search_musicbrainz artist title ;;
         let (musicbrainz_id, cover_url) := r in
         if Py.truthy_str cover_url then ret (cover_url, musicbrainz_id)
         else ret (None, musicbrainz_id))
        (fun _ => ret (None, None))
  end.
End Client.

End CoverArtClient.

(* ------------------------------------------------------------------ *)
(** ** coordinator.py *)

Module Coordinator.
Import Database.

Definition with_cover_art_url (s : song) (url : string) : song :=
  {| d_id := d_id s;
     d_position := d_position s;
     d_artist := d_artist s;
     d_title := d_title s;
     d_year := d_year s;
     d_cover_art_url := Some url;
     d_cover_art_cached_at := d_cover_art_cached_at s;
     d_fun_facts := d_fun_facts s;
     d_position_history := d_position_history s |}.

(** The [for rule in rules] loop of [_matches_notification_rules], on the
    lowered artist and title: the rule whose branch returns [True]. *)
Fixpoint first_matching_rule (rules : list rule) (artist title : string)
  : option rule :=
  match rules with
  | [] => None
  | rule :: rest =>
      let pattern := Py.lower (r_match_pattern rule) in
      if (String.eqb (r_rule_type rule) "artist" && Py.contains pattern artist)%bool
      then Some rule
      else if (String.eqb (r_rule_type rule) "title" && Py.contains pattern title)%bool
      then Some rule
      else first_matching_rule rest artist title
  end.

(** [_matches_notification_rules] on the rules it loaded. *)
Definition matches_rules (rules : list rule) (s : song) : bool :=
  match rules with
  | [] => false
  | _ =>
      match first_matching_rule rules (Py.lower (d_artist s))
                                (Py.lower (d_title s)) with
      | Some _ => true
      | None => false
      end
  end.

(** The text of the notification. *)
Definition compose_message (s : song) (is_current : bool) : message :=
  {| msg_upcoming := negb is_current;
     msg_position := d_position s;
     msg_artist := d_artist s;
     msg_title := d_title s;
     msg_year := if Py.truthy_int (d_year s) then d_year s else None;
     msg_fun_fact := hd_error (d_fun_facts s) |}.

(** The service a target names and the payload it is called with. *)
Definition service_of_target (s : song) (is_current : bool) (target : string)
  : string * string * payload :=
  let m := compose_message s is_current in
  if String.eqb target "persistent_notification"
  then ("persistent_notification", "create", Persistent m (d_id s) is_current)
  else
    match Py.split_once "."%char target with
    | Some (domain, service) => (domain, service, Notify m (d_cover_art_url s))
    | None => ("notify", target, Notify m (d_cover_art_url s))
    end.

Section Coordinator.
Variable env : environment.

Definition _fetch_and_cache_cover_art (song_data : song)
           (npo_cover_url : option string) : M song :=
  let song_id := d_id song_data in
  match npo_cover_url with
  | Some (String c r) =>
      let url := String c r in
      DatabaseManager.update_cover_art env song_id url None ;;
      ret (with_cover_art_url song_data url)
  | _ =>
      cached <- DatabaseManager.is_cover_art_cached env song_id ;;
      if cached : bool then ret song_data
      else
        r <- CoverArtClient.get_cover_art env
               (d_artist song_data) (d_title song_data)
               (d_cover_art_url song_data)
               (d_cover_art_cached_at song_data) ;;
        match r with
        | (Some (String c r as url), mb_id) =>
            DatabaseManager.update_cover_art env song_id url mb_id ;;
            ret (with_cover_art_url song_data url)
        | _ => ret song_data
        end
  end.

Definition _matches_notification_rules (song_data : song) : M bool :=
  rules <- DatabaseManager.get_notification_rules env true ;;
  ret (matches_rules rules song_data).

(** [hass.services.async_call]. *)
Definition async_call (domain service : string) (p : payload) : M unit :=
  emit (ServiceCall domain service p) ;;
  io env.

(** The [for target in targets] loop of [_send_notification]; a failed
    call is logged and the loop goes on. *)
Fixpoint send_loop (song_data : song) (is_current : bool)
         (targets : list string) : M unit :=
  match targets with
  | [] => ret tt
  | target :: rest =>
      try_except
        (let '(domain, service, p) :=
           service_of_target song_data is_current target in
         async_call domain service p)
        (fun _ => ret tt) ;;
      send_loop song_data is_current rest
  end.

Definition _send_notification (song_data : song) (settings : settings)
           (is_current : bool) : M unit :=
  send_loop song_data is_current (notification_targets settings).

Definition _check_and_send_notifications (song_data : song)
           (is_current : bool) : M unit :=
  settings <- DatabaseManager.get_notification_settings env ;;
  if (is_current && negb (notify_current_song settings))%bool then ret tt
  else if (negb is_current && negb (notify_upcoming_song settings))%bool
  then ret tt
  else
    matched <- _matches_notification_rules song_data ;;
    if matched : bool
    then _send_notification song_data settings is_current
    else ret tt.

(** The [for offset in positions_to_check] loop. *)
Fixpoint upcoming_loop (settings : settings) (current_position : Z)
         (positions_to_check : list Z) : M unit :=
  match positions_to_check with
  | [] => ret tt
  | offset :: rest =>
      let upcoming_position := current_position - offset in
      (if upcoming_position <? 1 then ret tt
       else
         upcoming_song <-
           DatabaseManager.get_song_by_position env upcoming_position ;;
         match upcoming_song with
         | None => ret tt
         | Some s =>
             matched <- _matches_notification_rules s ;;
             if matched : bool then _send_notification s settings false
             else ret tt
         end) ;;
      upcoming_loop settings current_position rest
  end.

(** The song in [self.data], when [self.data] and its [current_song] are
    truthy. *)
Definition published_song (w : world) : option song :=
  match data w with
  | Some d => current_song d
  | None => None
  end.

Definition async_check_upcoming_notifications : M unit :=
  cur <- gets published_song ;;
  match cur with
  | None => ret tt
  | Some current =>
      settings <- DatabaseManager.get_notification_settings env ;;
      if negb (notify_upcoming_song settings) then ret tt
      else upcoming_loop settings (d_position current)
             (upcoming_notify_positions settings)
  end.


(** [song_id != self._last_song_id]. *)
Definition differs (song_id : Z) (last : option Z) : bool :=
  match last with
  | Some l => negb (song_id =? l)
  | None => true
  end.

(** Steps 3 to 6 of [_async_update_data], run when the song changed. *)
Definition on_song_changed (song_match : song) (npo : metadata) : M song :=
  modify (set_last_song_id (d_id song_match)) ;;
  s <- _fetch_and_cache_cover_art song_match (md_cover_art_url npo) ;;
  DatabaseManager.update_playlist_state env (d_position s) (d_id s) npo ;;
  _check_and_send_notifications s true ;;
  async_check_upcoming_notifications ;;
  ret s.

(** The body of the [try] block of [_async_update_data]. *)
Definition update_body : M tick_data :=
  npo <- NPOClient.get_current_metadata env ;;
  match npo with
  | None =>
      ret {| current_song := None; song_changed := false;
             error := Some NoMetadataAvailable; npo_metadata := None |}
  | Some npo_md =>
      let artist := md_artist npo_md in
      let title := md_title npo_md in
      song_match <- DatabaseManager.match_song env artist title ;;
      match song_match with
      | None =>
          ret {| current_song := None; song_changed := false;
                 error := Some (NotInTop2000 artist title);
                 npo_metadata := Some npo_md |}
      | Some sm =>
          last <- gets last_song_id ;;
          let changed := differs (d_id sm) last in
          s <- (if changed then on_song_changed sm npo_md else ret sm) ;;
          ret {| current_song := Some s; song_changed := changed;
                 error := None; npo_metadata := Some npo_md |}
      end
  end.

Definition _async_update_data : M tick_data :=
  try_except update_body (fun _ => raise UpdateFailed).
End Coordinator.

End Coordinator.

(* ------------------------------------------------------------------ *)
(** ** The order of the binary64 numbers *)

Module Binary64.

(** The place of a number among the binary64 values: its class (minus
    infinity, negative, zero, positive, plus infinity), then exponent and
    mantissa, counted downwards for the negative numbers. *)
Definition rank (x : spec_float) : Z * Z * Z :=
  match x with
  | S754_nan => (0, 0, 0)
  | S754_zero _ => (0, 0, 0)
  | S754_infinity s => (if s then -2 else 2, 0, 0)
  | S754_finite s m e =>
      if s then (-1, - e, - Zpos m) else (1, e, Zpos m)
  end.

Definition is_number (x : spec_float) : bool :=
  match x with S754_nan => false | _ => true end.

Definition lex_compare (a b : Z * Z * Z) : comparison :=
  let '(a1, a2, a3) := a in
  let '(b1, b2, b3) := b in
  match a1 ?= b1 with
  | Eq => match a2 ?= b2 with
          | Eq => a3 ?= b3
          | c => c
          end
  | c => c
  end.

Definition lex_lt (a b : Z * Z * Z) : Prop :=
  let '(a1, a2, a3) := a in
  let '(b1, b2, b3) := b in
  a1 < b1 \/ (a1 = b1 /\ (a2 < b2 \/ (a2 = b2 /\ a3 < b3))).

(** A float that is not NaN, and its place. *)
Definition number (x : float) : Prop := is_number (Prim2SF x) = true.
Definition place (x : float) : Z * Z * Z := rank (Prim2SF x).

End Binary64.

(* ------------------------------------------------------------------ *)
(** ** Vocabulary of the properties *)

Module Spec.
Import Database.

(** No storage or service call raises. *)
Definition reliable (env : environment) : Prop :=
  forall k, io_fault env k = false.

(** The observation a source yields, if it yields one. *)
Definition found (o : stage_outcome) : option metadata :=
  match o with
  | StageFound m => Some m
  | _ => None
  end.

Definition is_upstream (e : event) : Prop :=
  match e with Upstream _ => True | _ => False end.

Definition is_cover_art (e : event) : Prop :=
  match e with CoverLookup _ _ | CoverArtWrite _ _ _ => True | _ => False end.

Definition is_state_write (e : event) : Prop :=
  match e with PlaylistStateWrite _ _ _ => True | _ => False end.

Definition payload_message (p : payload) : message :=
  match p with
  | Persistent m _ _ => m
  | Notify m _ => m
  end.

(** A notification sent for the current song ([is_current = true]) or for
    an upcoming one ([is_current = false]). *)
Definition is_dispatch (is_current : bool) (e : event) : Prop :=
  match e with
  | ServiceCall _ _ p => msg_upcoming (payload_message p) = negb is_current
  | _ => False
  end.

Definition no_event (e : event) : Prop := False.

(** A side effect of a transition: anything but a request to a source. *)
Definition is_side_effect (e : event) : bool :=
  match e with Upstream _ => false | _ => true end.

(** The step of a tick an event belongs to: acquisition (0), cover art
    (1), playback state (2), notification of the current song (3),
    notifications of the upcoming window (4). *)
Definition step_of (e : event) : nat :=
  match e with
  | Upstream _ => 0
  | CoverLookup _ _ | CoverArtWrite _ _ _ => 1
  | PlaylistStateWrite _ _ _ => 2
  | ServiceCall _ _ p => if msg_upcoming (payload_message p) then 4 else 3
  end%nat.

(** Events listed step by step: no event of a later step before one of an
    earlier step. *)
Definition in_step_order (l : list event) : Prop :=
  StronglySorted (fun a b => (step_of a <= step_of b)%nat) l.

(** In step order, with every event in the steps [lo] to [hi]. *)
Definition ordered_within (lo hi : nat) (l : list event) : Prop :=
  in_step_order l /\
  Forall (fun e => (lo <= step_of e <= hi)%nat) l.

Definition same_coordinator (w w' : world) : Prop :=
  last_song_id w' = last_song_id w /\
  data w' = data w /\
  last_update_success w' = last_update_success w.

(** The events [w'] has after those of [w] all satisfy [P]. *)
Definition emitted (P : event -> Prop) (w w' : world) : Prop :=
  exists new, trace w' = trace w ++ new /\ Forall P new.

(** From [w] to [w']: the coordinator's fields are kept, storage is kept
    when [keep_db] is set, and only events in [P] are emitted. *)
Definition moves (keep_db : bool) (P : event -> Prop) (w w' : world) : Prop :=
  same_coordinator w w' /\
  (keep_db = true -> db w' = db w) /\
  emitted P w w'.

(** Every run of [m] relates the worlds before and after by [R]. *)
Definition preserved {A} (R : world -> world -> Prop) (m : M A) : Prop :=
  forall w r w', m w = (r, w') -> R w w'.

(** The service calls of one [_send_notification], one per target. *)
Definition dispatch_events (s : song) (is_current : bool)
           (targets : list string) : list event :=
  map (fun target =>
         let '(domain, service, p) :=
           Coordinator.service_of_target s is_current target in
         ServiceCall domain service p)
      targets.

(** A rule applies to a song: an [artist] rule whose lowered pattern
    occurs in the lowered artist, or a [title] rule whose lowered pattern
    occurs in the lowered title. *)
Definition occurs_in (pat s : string) : Prop :=
  exists pre post, s = (pre ++ pat ++ post)%string.

Definition rule_applies (r : rule) (s : song) : Prop :=
  (r_rule_type r = "artist" /\
   occurs_in (Py.lower (r_match_pattern r)) (Py.lower (d_artist s))) \/
  (r_rule_type r = "title" /\
   occurs_in (Py.lower (r_match_pattern r)) (Py.lower (d_title s))).

(** The upcoming window as the specification words it: for each offset,
    the candidate position [current_position - offset]; candidates below 1
    are skipped; the entry at a candidate position, when it matches an
    enabled rule, is notified with [is_current = false]. *)
Definition upcoming_window (d : database) (current_position : Z)
           (offsets : list Z) : list song :=
  flat_map
    (fun offset =>
       let candidate := current_position - offset in
       if candidate <? 1 then []
       else match get_song_by_position_q d candidate with
            | Some s =>
                if Coordinator.matches_rules (get_notification_rules_q d true) s
                then [s] else []
            | None => []
            end)
    offsets.

(** A row replaces the best candidate of the matcher exactly when its
    score is strictly above the best score and reaches the threshold. *)
Definition accepts (pr : string -> string -> float) (artist title : string)
           (best_score : float) (row : song_row) : Prop :=
  (best_score <? combined_score pr artist title row)%float = true /\
  (FUZZY_MATCH_THRESHOLD <=? combined_score pr artist title row)%float = true.

(** The dictionaries a tick returns for a resolved song. *)
Definition unchanged_result (s : song) (md : metadata) : tick_data :=
  {| current_song := Some s; song_changed := false;
     error := None; npo_metadata := Some md |}.

Definition changed_result (s : song) (md : metadata) : tick_data :=
  {| current_song := Some s; song_changed := true;
     error := None; npo_metadata := Some md |}.

Definition any_event (e : event) : Prop := True.

(** The four steps of a transition, after [_last_song_id] has been set. *)
Definition side_effects (env : environment) (s : song) (md : metadata)
  : M song :=
  s1 <- Coordinator._fetch_and_cache_cover_art env s (md_cover_art_url md) ;;
  DatabaseManager.update_playlist_state env (d_position s1) (d_id s1) md ;;
  Coordinator._check_and_send_notifications env s1 true ;;
  Coordinator.async_check_upcoming_notifications env ;;
  ret s1.

End Spec.

(* ------------------------------------------------------------------ *)
(** ** Sample catalog, settings and surroundings *)

Module Samples.
Import Database.

(** A similarity in the manner of [partial_ratio], enough for the samples:
    100 for equal texts and for a non-empty text that occurs in the other,
    0 otherwise. *)
Definition occurrence_ratio (a b : string) : float :=
  if String.eqb a b then 100%float
  else match a, b with
       | EmptyString, _ | _, EmptyString => 0%float
       | _, _ =>
           if (Py.contains a b || Py.contains b a)%bool then 100%float
           else 0%float
       end.

Definition queen : song_row :=
  {| row_id := 1; row_position := 499;
     row_artist := "Queen"; row_title := "Bohemian Rhapsody";
     row_year := Some 1975; row_musicbrainz_id := None;
     row_cover_art_url := Some "https://img.example/queen.jpg";
     row_cover_art_cached_at := Some 0 |}.

Definition eagles : song_row :=
  {| row_id := 2; row_position := 500;
     row_artist := "Eagles"; row_title := "Hotel California";
     row_year := Some 1977; row_musicbrainz_id := None;
     row_cover_art_url := None; row_cover_art_cached_at := None |}.

Definition radar_love_live : song_row :=
  {| row_id := 3; row_position := 498;
     row_artist := "Golden Earring"; row_title := "Radar Love (Live)";
     row_year := Some 1977; row_musicbrainz_id := None;
     row_cover_art_url := None; row_cover_art_cached_at := None |}.

Definition radar_love : song_row :=
  {| row_id := 4; row_position := 497;
     row_artist := "Golden Earring"; row_title := "Radar Love";
     row_year := Some 1973; row_musicbrainz_id := None;
     row_cover_art_url := None; row_cover_art_cached_at := None |}.

Definition catalog : database :=
  {| songs := [queen; eagles; radar_love_live; radar_love];
     position_history :=
       [ {| ph_song_id := 1; ph_year := 2024; ph_position := 2 |};
         {| ph_song_id := 1; ph_year := 2025; ph_position := 1 |};
         {| ph_song_id := 2; ph_year := 2023; ph_position := 7 |} ];
     fun_facts :=
       [ {| ff_song_id := 1; ff_fact_text := "Recorded in 1975.";
            ff_fact_order := 2 |};
         {| ff_song_id := 1; ff_fact_text := "Six minutes long.";
            ff_fact_order := 1 |} ];
     playlist_state := None;
     notification_rules :=
       [ {| rule_id := 1; rule_type := "artist"; match_pattern := "QUEEN";
            rule_enabled := 1 |};
         {| rule_id := 2; rule_type := "position_range"; match_pattern := "1-10";
            rule_enabled := 1 |};
         {| rule_id := 3; rule_type := "title"; match_pattern := "california";
            rule_enabled := 0 |};
         {| rule_id := 4; rule_type := "title"; match_pattern := "Hotel";
            rule_enabled := 1 |} ];
     notification_settings :=
       Some {| col_notification_targets :=
                 Some ["persistent_notification"; "notify.mobile_app_phone"];
               col_notify_current_song := true;
               col_notify_upcoming_song := true;
               col_upcoming_notify_positions := Some [1; 2; 3] |} |}.

(** What the stream says is playing. *)
Definition on_air : metadata :=
  {| md_artist := "EAGLES"; md_title := "Hotel California";
     md_cover_art_url := None |}.

(** The website is down, the stream answers, nothing raises in storage. *)
Definition calm : environment :=
  {| partial_ratio := occurrence_ratio;
     clock := fun k => hours 48 + Z.of_nat k;
     io_fault := fun _ => false;
     upstream := fun _ s =>
       match s with
       | Website => StageRaises
       | Icecast => StageFound on_air
       | Onlineradiobox => StageNone
       end;
     search_musicbrainz := fun _ _ _ =>
       (Some "mbid-1", Some "https://coverart.example/front-500.jpg") |}.

(** As [calm], but the call numbered [k] to storage or to a service raises. *)
Definition faulty (k : nat) : environment :=
  {| partial_ratio := occurrence_ratio;
     clock := clock calm;
     io_fault := Nat.eqb k;
     upstream := upstream calm;
     search_musicbrainz := search_musicbrainz calm |}.

(** On the first tick of [fresh] below, call 7 is the cover-art write of
    [update_cover_art] and call 9 the write of [update_playlist_state];
    call 13 is the first service call. *)
Definition cover_art_write_fails : environment := faulty 7.
Definition state_write_fails : environment := faulty 9.
Definition first_target_fails : environment := faulty 13.

(** The integration just set up: nothing cached, nothing tracked. *)
Definition fresh : world :=
  {| calls := 0; db := catalog; cached_metadata := None; last_fetch := None;
     last_song_id := None; data := None; last_update_success := true;
     trace := [] |}.

(** After the first tick, with the dictionary it returned in [self.data]:
    the Eagles are tracked and published. *)
Definition playing : world :=
  match Coordinator._async_update_data calm fresh with
  | (Ok d, w) => set_data (Some d) true w
  | (Raise _, w) => w
  end.

(** The dictionary the first tick returns. *)
Definition eagles_published : song :=
  {| d_id := 2; d_position := 500;
     d_artist := "Eagles"; d_title := "Hotel California";
     d_year := Some 1977;
     d_cover_art_url := Some "https://coverart.example/front-500.jpg";
     d_cover_art_cached_at := None;
     d_fun_facts := [];
     d_position_history := [(2023, 7)] |}.

(** The stream announces Queen, whose cover art was cached two days ago. *)
Definition queen_on_air : metadata :=
  {| md_artist := "Queen"; md_title := "Bohemian Rhapsody";
     md_cover_art_url := None |}.

Definition calm_queen : environment :=
  {| partial_ratio := occurrence_ratio;
     clock := clock calm;
     io_fault := fun _ => false;
     upstream := fun _ s =>
       match s with
       | Icecast => StageFound queen_on_air
       | _ => StageNone
       end;
     search_musicbrainz := search_musicbrainz calm |}.

(** Later: the cache of the client has expired and the stream announces
    the live "Radar Love". *)
Definition radar_on_air : metadata :=
  {| md_artist := "Golden Earring"; md_title := "Radar Love (Live)";
     md_cover_art_url := Some "https://img.example/radar.jpg" |}.

Definition calm_radar : environment :=
  {| partial_ratio := occurrence_ratio;
     clock := fun k => hours 49 + Z.of_nat k;
     io_fault := fun _ => false;
     upstream := fun _ s =>
       match s with
       | Website => StageFound radar_on_air
       | _ => StageNone
       end;
     search_musicbrainz := search_musicbrainz calm |}.

End Samples.


(* ------------------------------------------------------------------ *)
(** ** database.py: the statements of the importer and of the options flow *)

Module Store.
Import Database.

Definition with_songs (d : database) (l : list song_row) : database :=
  {| songs := l;
     position_history := position_history d;
     fun_facts := fun_facts d;
     playlist_state := playlist_state d;
     notification_rules := notification_rules d;
     notification_settings := notification_settings d |}.

Definition with_position_history (d : database) (l : list history_row)
  : database :=
  {| songs := songs d;
     position_history := l;
     fun_facts := fun_facts d;
     playlist_state := playlist_state d;
     notification_rules := notification_rules d;
     notification_settings := notification_settings d |}.

Definition with_fun_facts (d : database) (l : list fun_fact_row) : database :=
  {| songs := songs d;
     position_history := position_history d;
     fun_facts := l;
     playlist_state := playlist_state d;
     notification_rules := notification_rules d;
     notification_settings := notification_settings d |}.

Definition with_notification_rules (d : database) (l : list rule_row)
  : database :=
  {| songs := songs d;
     position_history := position_history d;
     fun_facts := fun_facts d;
     playlist_state := playlist_state d;
     notification_rules := l;
     notification_settings := notification_settings d |}.

Definition with_notification_settings (d : database) (r : option settings_row)
  : database :=
  {| songs := songs d;
     position_history := position_history d;
     fun_facts := fun_facts d;
     playlist_state := playlist_state d;
     notification_rules := notification_rules d;
     notification_settings := r |}.

(** [is_populated]: the count of [songs] is above zero. *)
Definition is_populated_q (d : database) : bool :=
  0 <? Z.of_nat (length (songs d)).

(** The row [insert_song] writes: the columns the statement does not list
    are NULL. *)
Definition inserted_song (lastrowid position : Z) (artist title : string)
           (year : option Z) : song_row :=
  {| row_id := lastrowid;
     row_position := position;
     row_artist := artist;
     row_title := title;
     row_year := year;
     row_musicbrainz_id := None;
     row_cover_art_url := None;
     row_cover_art_cached_at := None |}.

(** [insert_song]: [INSERT OR REPLACE INTO songs].  A row that holds the
    position is deleted (the column is UNIQUE) and the new row is appended
    under [lastrowid], the rowid SQLite assigns (AUTOINCREMENT: above every
    rowid of the table).  Foreign keys are not enforced on these
    connections, so the rows of the other tables stay. *)
Definition insert_song_q (d : database) (lastrowid position : Z)
           (artist title : string) (year : option Z) : database :=
  with_songs d
    (filter (fun r => negb (row_position r =? position)) (songs d)
     ++ [inserted_song lastrowid position artist title year]).

(** [insert_fun_fact]: [INSERT INTO fun_facts]. *)
Definition insert_fun_fact_q (d : database) (song_id : Z) (fact_text : string)
           (fact_order : Z) : database :=
  with_fun_facts d
    (fun_facts d ++ [ {| ff_song_id := song_id;
                         ff_fact_text := fact_text;
                         ff_fact_order := fact_order |} ]).

(** [get_song_by_artist_title]: [fetchone] of
    [WHERE LOWER(artist) = LOWER(?) AND LOWER(title) = LOWER(?)]; the
    dictionary carries no [cover_art_cached_at], no [fun_facts] and no
    [position_history]. *)
Definition get_song_by_artist_title_q (d : database) (artist title : string)
  : option song :=
  match filter (fun r =>
                  (String.eqb (Sql.lower (row_artist r)) (Sql.lower artist) &&
                   String.eqb (Sql.lower (row_title r)) (Sql.lower title))%bool)
               (songs d) with
  | [] => None
  | row :: _ =>
      Some {| d_id := row_id row;
              d_position := row_position row;
              d_artist := row_artist row;
              d_title := row_title row;
              d_year := row_year row;
              d_cover_art_url := row_cover_art_url row;
              d_cover_art_cached_at := None;
              d_fun_facts := [];
              d_position_history := [] |}
  end.

(** [add_notification_rule]: [INSERT INTO notification_rules], under the
    rowid SQLite assigns; the boolean is stored as 0 or 1. *)
Definition add_notification_rule_q (d : database) (lastrowid : Z)
           (rule_type match_pattern : string) (enabled : bool) : database :=
  with_notification_rules d
    (notification_rules d
     ++ [ {| rule_id := lastrowid;
             Database.rule_type := rule_type;
             Database.match_pattern := match_pattern;
             rule_enabled := if enabled then 1 else 0 |} ]).

(** [delete_notification_rule]: [DELETE ... WHERE id = ?]. *)
Definition delete_notification_rule_q (d : database) (rule_id : Z) : database :=
  with_notification_rules d
    (filter (fun r => negb (Database.rule_id r =? rule_id))
            (notification_rules d)).

(** [add_position_history]: [INSERT OR REPLACE INTO position_history].  The
    row of the same song and year is deleted ([UNIQUE(song_id, year)]) and
    the new row is appended. *)
Definition add_position_history_q (d : database) (song_id year position : Z)
  : database :=
  with_position_history d
    (filter (fun h => negb ((ph_song_id h =? song_id) && (ph_year h =? year)))
            (position_history d)
     ++ [ {| ph_song_id := song_id; ph_year := year;
             ph_position := position |} ]).

(** [x or default] on a list. *)
Definition or_default {A} (x : option (list A)) (default : list A) : list A :=
  match x with
  | Some (a :: l) => a :: l
  | _ => default
  end.

(** [update_notification_settings].  With nothing to update the method
    returns; otherwise the given columns of the row are updated, and when
    there is no row ([rowcount == 0]) one is inserted, with the defaults
    where a value is [None] or falsy. *)
Definition update_notification_settings_q (d : database)
           (notification_targets : option (list string))
           (notify_current_song notify_upcoming_song : option bool)
           (upcoming_notify_positions : option (list Z)) : database :=
  match notification_targets, notify_current_song, notify_upcoming_song,
        upcoming_notify_positions with
  | None, None, None, None => d
  | _, _, _, _ =>
      with_notification_settings d
        (Some
           match notification_settings d with
           | Some row =>
               {| col_notification_targets :=
                    match notification_targets with
                    | Some t => Some t
                    | None => col_notification_targets row
                    end;
                  col_notify_current_song :=
                    match notify_current_song with
                    | Some b => b
                    | None => col_notify_current_song row
                    end;
                  col_notify_upcoming_song :=
                    match notify_upcoming_song with
                    | Some b => b
                    | None => col_notify_upcoming_song row
                    end;
                  col_upcoming_notify_positions :=
                    match upcoming_notify_positions with
                    | Some p => Some p
                    | None => col_upcoming_notify_positions row
                    end |}
           | None =>
               {| col_notification_targets :=
                    Some (or_default notification_targets default_targets);
                  col_notify_current_song :=
                    match notify_current_song with
                    | Some b => b
                    | None => true
                    end;
                  col_notify_upcoming_song :=
                    match notify_upcoming_song with
                    | Some b => b
                    | None => false
                    end;
                  col_upcoming_notify_positions :=
                    Some (or_default upcoming_notify_positions
                                     default_positions) |}
           end)
  end.

Section Methods.
Variable env : environment.

Definition get_song_by_artist_title (artist title : string)
  : M (option song) :=
  io env ;;
  d <- gets db ;;
  ret (get_song_by_artist_title_q d artist title).

(** [get_playlist_state]: the singleton row, or [None]. *)
Definition get_playlist_state : M (option playlist_state_row) :=
  io env ;;
  d <- gets db ;;
  ret (playlist_state d).

Definition add_position_history (song_id year position : Z) : M unit :=
  io env ;;
  modify (fun w =>
            set_db (add_position_history_q (db w) song_id year position) w).

Definition update_notification_settings
           (notification_targets : option (list string))
           (notify_current_song notify_upcoming_song : option bool)
           (upcoming_notify_positions : option (list Z)) : M unit :=
  io env ;;
  modify (fun w =>
            set_db (update_notification_settings_q (db w)
                      notification_targets notify_current_song
                      notify_upcoming_song upcoming_notify_positions) w).
End Methods.

End Store.

(* ------------------------------------------------------------------ *)
(** ** npo_client.py: what the answer of a source is read as *)

Module Sources.

Fixpoint skip (n : nat) (s : string) : string :=
  match n, s with
  | O, _ => s
  | S n', String _ r => skip n' r
  | S _, EmptyString => EmptyString
  end.

(** [s.split(sep, 1)] when [sep] occurs in [s]: the text before the first
    occurrence and the text after it; [None] when [sep] does not occur. *)
Fixpoint split_first (sep s : string) : option (string * string) :=
  if String.prefix sep s
  then Some (EmptyString, skip (String.length sep) s)
  else
    match s with
    | EmptyString => None
    | String c r =>
        match split_first sep r with
        | Some (a, b) => Some (String c a, b)
        | None => None
        end
    end.

(** What comes back from [session.get]: the request or the reading of the
    body raises, or there is a response with its status. *)
Inductive reply (A : Type) :=
| Unreachable
| Response (status : Z) (content : A).
Arguments Unreachable {A}.
Arguments Response {A} status content.

(** The "Artist - Title" text both fallback sources parse. *)
Definition artist_dash_title (text : string) : stage_outcome :=
  if Py.contains " - " text
  then
    match split_first " - " text with
    | Some (artist, title) =>
        StageFound {| md_artist := Py.strip artist;
                      md_title := Py.strip title;
                      md_cover_art_url := None |}
    | None => StageRaises
    end
  else StageNone.

(** The two headers [_fetch_icecast_metadata] looks at. *)
Record icecast_headers := {
  icy_name : option string;
  ice_audio_info : option string
}.

(** [headers.get("icy-name") or headers.get("ice-audio-info")]. *)
Definition icy_meta (h : icecast_headers) : option string :=
  if Py.truthy_str (icy_name h) then icy_name h else ice_audio_info h.

Definition _fetch_icecast_metadata (r : reply icecast_headers)
  : stage_outcome :=
  match r with
  | Unreachable => StageRaises
  | Response status headers =>
      if negb (status =? 200) then StageRaises
      else
        match icy_meta headers with
        | Some (String c text) => artist_dash_title (String c text)
        | _ => StageNone
        end
  end.

(** The element [soup.find(class_=["track_history_item", "track-title"])]
    finds: the stripped text of its artist and title elements, when it has
    them, and its own stripped text. *)
Record track_info := {
  artist_elem : option string;
  title_elem : option string;
  text : string
}.

Definition _scrape_onlineradiobox (r : reply (option track_info))
  : stage_outcome :=
  match r with
  | Unreachable => StageRaises
  | Response status found =>
      if negb (status =? 200) then StageRaises
      else
        match found with
        | None => StageNone
        | Some info =>
            match artist_elem info, title_elem info with
            | Some artist, Some title =>
                StageFound {| md_artist := artist;
                              md_title := title;
                              md_cover_art_url := None |}
            | _, _ => artist_dash_title (text info)
            end
        end
  end.

End Sources.

(* ------------------------------------------------------------------ *)
(** ** config_flow.py: the notification settings of the options flow *)

Module ConfigFlow.
Import Database.

(** [s.split(",")] on one character: every piece, the empty ones
    included. *)
Fixpoint split (sep : ascii) (s : string) : list string :=
  match s with
  | EmptyString => [EmptyString]
  | String c r =>
      if Ascii.eqb c sep then EmptyString :: split sep r
      else
        match split sep r with
        | piece :: rest => String c piece :: rest
        | [] => [String c EmptyString]
        end
  end.

(** [sep.join(l)]. *)
Fixpoint join (sep : string) (l : list string) : string :=
  match l with
  | [] => EmptyString
  | x :: rest =>
      match rest with
      | [] => x
      | _ => (x ++ sep ++ join sep rest)%string
      end
  end.

(** [[s.strip() for s in text.split(",") if s.strip()]]. *)
Definition stripped_pieces (text : string) : list string :=
  filter (fun s => negb (String.eqb s EmptyString))
         (map Py.strip (split "," text)).

(** The targets the step stores. *)
Definition notify_services (text : string) : list string :=
  match stripped_pieces text with
  | [] => ["persistent_notification"]
  | l => l
  end.

Section Positions.
(** [int] of Python on a text; [None] stands for [ValueError]. *)
Variable int : string -> option Z.

Fixpoint ints (l : list string) : option (list Z) :=
  match l with
  | [] => Some []
  | p :: rest =>
      match int p with
      | None => None
      | Some n =>
          match ints rest with
          | None => None
          | Some ns => Some (n :: ns)
          end
      end
  end.

(** The positions the step stores: [[1, 2, 3]] on a [ValueError]. *)
Definition upcoming_positions (text : string) : list Z :=
  match ints (stripped_pieces text) with
  | Some l => l
  | None => [1; 2; 3]
  end.
End Positions.

Section Flow.
Variable env : environment.
Variable int : string -> option Z.

(** [async_step_notification_settings] on the form that was submitted. *)
Definition async_step_notification_settings
           (notification_targets : string)
           (notify_current_song notify_upcoming_song : bool)
           (upcoming_notify_positions : string) : M unit :=
  Store.update_notification_settings env
    (Some (notify_services notification_targets))
    (Some notify_current_song)
    (Some notify_upcoming_song)
    (Some (upcoming_positions int upcoming_notify_positions)).
End Flow.

End ConfigFlow.

(* ------------------------------------------------------------------ *)
(** ** Further vocabulary *)

Module Terms.
Import Database.

(** What [LOWER] of SQLite does to a character: the letters A to Z go to
    a to z, every other character stays. *)
Definition ascii_fold (c : N) : N :=
  if ((65 <=? c) && (c <=? 90))%N then (c + 32)%N else c.

(** The rows behind [get_position_history]. *)
Definition history_rows (d : database) (song_id limit : Z) : list history_row :=
  Sql.limit limit
    (Sql.order_by (fun a b => ph_year b <=? ph_year a)
       (filter (fun h => (ph_song_id h =? song_id) && (ph_year h <? 2025))%bool
               (position_history d))).

(** The part of storage a tick has no business with: the songs up to their
    cover-art columns, the position history, the fun facts, the rules and
    the notification settings. *)
Definition same_catalog (d d' : database) : Prop :=
  map (fun r => (row_id r, row_position r, row_artist r, row_title r,
                 row_year r)) (songs d')
  = map (fun r => (row_id r, row_position r, row_artist r, row_title r,
                   row_year r)) (songs d) /\
  position_history d' = position_history d /\
  fun_facts d' = fun_facts d /\
  notification_rules d' = notification_rules d /\
  notification_settings d' = notification_settings d.

Definition keeps_catalog (w w' : world) : Prop := same_catalog (db w) (db w').

End Terms.

(* ------------------------------------------------------------------ *)
(** ** sensor.py *)

Module Sensor.
Import Database.

(** [position_trend_direction]: "up", "down", "same". *)
Inductive direction := Up | Down | Same.

(** The trend both sensors compute from the first entry of the position
    history: the direction and the number of places ([None] when the
    history is empty and no trend is set). *)
Definition position_trend (s : song) : option (direction * Z) :=
  match d_position_history s with
  | [] => None
  | (_, prev_pos) :: _ =>
      let current_pos := d_position s in
      if current_pos <? prev_pos then Some (Up, prev_pos - current_pos)
      else if prev_pos <? current_pos then Some (Down, current_pos - prev_pos)
      else Some (Same, 0)
  end.

End Sensor.

(* ------------------------------------------------------------------ *)
(** ** Further samples *)

Module Fixtures.
Import Database.

(** Every source is down. *)
Definition off_air : environment :=
  {| partial_ratio := Samples.occurrence_ratio;
     clock := clock Samples.calm;
     io_fault := fun _ => false;
     upstream := fun _ _ => StageRaises;
     search_musicbrainz := search_musicbrainz Samples.calm |}.

End Fixtures.
(* ================================================================== *)
(** * Properties *)

Module FrameFacts.
Import Spec.

Lemma emitted_refl P w : emitted P w w.
Proof. exists []. split; [now rewrite app_nil_r|constructor]. Qed.

Lemma emitted_trans P w1 w2 w3 :
  emitted P w1 w2 -> emitted P w2 w3 -> emitted P w1 w3.
Proof.
  intros (n1 & E1 & F1) (n2 & E2 & F2). exists (n1 ++ n2). split.
  - now rewrite E2, E1, app_assoc.
  - apply Forall_app; auto.
Qed.

Lemma moves_refl kd P w : moves kd P w w.
Proof. repeat split; auto using emitted_refl. Qed.

Lemma moves_trans kd P w1 w2 w3 :
  moves kd P w1 w2 -> moves kd P w2 w3 -> moves kd P w1 w3.
Proof.
  intros ((A1 & A2 & A3) & B & C) ((A1' & A2' & A3') & B' & C').
  repeat split; try congruence.
  - intros K. rewrite (B' K). auto.
  - eapply emitted_trans; eauto.
Qed.

Lemma moves_weaken (kd kd' : bool) (P Q : event -> Prop) w w' :
  (kd' = true -> kd = true) -> (forall e, P e -> Q e) ->
  moves kd P w w' -> moves kd' Q w w'.
Proof.
  intros K I (A & B & (n & E & F)). repeat split; try apply A; auto.
  exists n. split; [exact E|]. eapply Forall_impl; eauto.
Qed.

Lemma moves_bump kd P w : moves kd P w (bump w).
Proof. repeat split; auto. apply (emitted_refl P w). Qed.

Lemma moves_record kd (P : event -> Prop) e w : P e -> moves kd P w (record e w).
Proof.
  intros H. repeat split; auto. exists [e]. split; [reflexivity|].
  constructor; [exact H|constructor].
Qed.

Section Preserved.
Variable R : world -> world -> Prop.
Hypothesis R_refl : forall w, R w w.
Hypothesis R_trans : forall w1 w2 w3, R w1 w2 -> R w2 w3 -> R w1 w3.

Lemma preserved_ret {A} (a : A) : preserved R (ret a).
Proof. intros w r w' H. inversion H; subst. apply R_refl. Qed.

Lemma preserved_raise {A} (e : exn) : preserved R (@raise A e).
Proof. intros w r w' H. inversion H; subst. apply R_refl. Qed.

Lemma preserved_gets {A} (f : world -> A) : preserved R (gets f).
Proof. intros w r w' H. inversion H; subst. apply R_refl. Qed.

Lemma preserved_bind {A B} (m : M A) (k : A -> M B) :
  preserved R m -> (forall a, preserved R (k a)) -> preserved R (bind m k).
Proof.
  intros Hm Hk w r w' H. unfold bind in H.
  destruct (m w) as [[a|e] w1] eqn:E.
  - eapply R_trans; [eapply Hm; eauto|eapply Hk; eauto].
  - inversion H; subst. eapply Hm; eauto.
Qed.

Lemma preserved_try_except {A} (m : M A) (h : exn -> M A) :
  preserved R m -> (forall e, preserved R (h e)) ->
  preserved R (try_except m h).
Proof.
  intros Hm Hh w r w' H. unfold try_except in H.
  destruct (m w) as [[a|e] w1] eqn:E.
  - inversion H; subst. eapply Hm; eauto.
  - eapply R_trans; [eapply Hm; eauto|eapply Hh; eauto].
Qed.
End Preserved.

Section Primitives.
Variable env : environment.
Variable kd : bool.
Variable P : event -> Prop.

Lemma preserved_now : preserved (moves kd P) (now env).
Proof. intros w r w' H. inversion H; subst. apply moves_bump. Qed.

Lemma preserved_io : preserved (moves kd P) (io env).
Proof. intros w r w' H. inversion H; subst. apply moves_bump. Qed.

Lemma preserved_emit e : P e -> preserved (moves kd P) (emit e).
Proof. intros Pe w r w' H. inversion H; subst. now apply moves_record. Qed.
End Primitives.

(** Steps through a computation built from the monad's operations. *)
Ltac frame_step :=
  first
    [ apply preserved_ret; [apply moves_refl]
    | apply preserved_raise; [apply moves_refl]
    | apply preserved_gets; [apply moves_refl]
    | apply preserved_now
    | apply preserved_io
    | apply preserved_emit; simpl; auto
    | apply preserved_bind; [apply moves_trans | | intros ]
    | apply preserved_try_except; [apply moves_trans | | intros ] ].

Ltac frame_case :=
  match goal with
  | |- preserved _ (match ?x with _ => _ end) => destruct x
  | |- preserved _ (if ?b then _ else _) => destruct b
  | |- preserved _ (let '(_, _) := ?x in _) => destruct x
  end.

Ltac frame := repeat (first [frame_step | frame_case | assumption]).

Section Storage.
Variable env : environment.
Variable kd : bool.
Variable P : event -> Prop.

Lemma preserved_get_position_history song_id limit :
  preserved (moves kd P) (DatabaseManager.get_position_history env song_id limit).
Proof. unfold DatabaseManager.get_position_history. frame. Qed.

Lemma preserved_attach s :
  preserved (moves kd P) (DatabaseManager.attach env s).
Proof.
  unfold DatabaseManager.attach. frame.
Qed.

Lemma preserved_match_song artist title :
  preserved (moves kd P) (DatabaseManager.match_song env artist title).
Proof.
  unfold DatabaseManager.match_song. frame.
Qed.

Lemma preserved_get_song_by_position position :
  preserved (moves kd P) (DatabaseManager.get_song_by_position env position).
Proof.
  unfold DatabaseManager.get_song_by_position. frame.
Qed.

Lemma preserved_get_notification_rules b :
  preserved (moves kd P) (DatabaseManager.get_notification_rules env b).
Proof. unfold DatabaseManager.get_notification_rules. frame. Qed.

Lemma preserved_get_notification_settings :
  preserved (moves kd P) (DatabaseManager.get_notification_settings env).
Proof. unfold DatabaseManager.get_notification_settings. frame. Qed.

Lemma preserved_is_cover_art_cached song_id :
  preserved (moves kd P) (DatabaseManager.is_cover_art_cached env song_id).
Proof. unfold DatabaseManager.is_cover_art_cached. frame. Qed.
End Storage.

Lemma preserved_modify (R : world -> world -> Prop) (f : world -> world) :
  (forall w, R w (f w)) -> preserved R (modify f).
Proof. intros H w r w' E. inversion E; subst. apply H. Qed.

Section Client.
Variable env : environment.

Lemma preserved_fetch_stage kd s :
  preserved (moves kd is_upstream) (NPOClient.fetch_stage env s).
Proof.
  unfold NPOClient.fetch_stage. frame.
  intros w r w' H. inversion H; subst. apply moves_bump.
Qed.

Lemma preserved_cache_metadata kd P m :
  preserved (moves kd P) (NPOClient._cache_metadata env m).
Proof.
  unfold NPOClient._cache_metadata. frame.
  apply preserved_modify. intros w. repeat split; auto. apply (emitted_refl P w).
Qed.

Lemma preserved_try_stage kd s :
  preserved (moves kd is_upstream) (NPOClient.try_stage env s).
Proof.
  unfold NPOClient.try_stage.
  apply preserved_try_except; [apply moves_trans| |intros; frame].
  apply preserved_bind; [apply moves_trans|apply preserved_fetch_stage|].
  intros [m|]; [|frame].
  apply preserved_bind; [apply moves_trans|apply preserved_cache_metadata|].
  intros; frame.
Qed.

Lemma preserved_fallback_chain kd :
  preserved (moves kd is_upstream) (NPOClient.fallback_chain env).
Proof.
  unfold NPOClient.fallback_chain.
  repeat (first [ apply preserved_try_stage
                | apply preserved_bind; [apply moves_trans| |intros [?|]]
                | frame_step ]).
Qed.

Lemma preserved_get_current_metadata kd :
  preserved (moves kd is_upstream) (NPOClient.get_current_metadata env).
Proof.
  unfold NPOClient.get_current_metadata.
  apply preserved_bind; [apply moves_trans|frame|intros c].
  apply preserved_bind; [apply moves_trans|frame|intros f].
  destruct c; [destruct f|]; try apply preserved_fallback_chain.
  apply preserved_bind; [apply moves_trans|frame|intros t].
  destruct (t - z <? NPOClient.cache_duration); [frame|].
  apply preserved_fallback_chain.
Qed.
End Client.

Section Effects.
Variable env : environment.

Lemma preserved_update_cover_art song_id url mb :
  preserved (moves false is_cover_art)
            (DatabaseManager.update_cover_art env song_id url mb).
Proof.
  unfold DatabaseManager.update_cover_art. frame.
  apply preserved_modify. intros w. repeat split; auto; [discriminate|].
  apply (emitted_refl is_cover_art w).
Qed.

Lemma preserved_update_playlist_state position song_id md :
  preserved (moves false is_state_write)
            (DatabaseManager.update_playlist_state env position song_id md).
Proof.
  unfold DatabaseManager.update_playlist_state. frame.
  apply preserved_modify. intros w. repeat split; auto; [discriminate|].
  apply (emitted_refl is_state_write w).
Qed.

Lemma preserved_search_musicbrainz kd artist title :
  preserved (moves kd is_cover_art)
            (CoverArtClient._search_musicbrainz env artist title).
Proof.
  unfold CoverArtClient._search_musicbrainz. frame.
  intros w r w' H. inversion H; subst. apply moves_bump.
Qed.

Lemma preserved_get_cover_art kd artist title url stamp :
  preserved (moves kd is_cover_art)
            (CoverArtClient.get_cover_art env artist title url stamp).
Proof.
  unfold CoverArtClient.get_cover_art.
  destruct (Py.truthy_str url), stamp; try solve [frame].
  all: apply preserved_try_except; [apply moves_trans| |intros; frame].
  all: apply preserved_bind;
    [apply moves_trans|apply preserved_search_musicbrainz|intros [a b]; frame].
Qed.

Lemma preserved_fetch_and_cache_cover_art s url :
  preserved (moves false is_cover_art)
            (Coordinator._fetch_and_cache_cover_art env s url).
Proof.
  unfold Coordinator._fetch_and_cache_cover_art.
  assert (W : forall u mb,
             preserved (moves false is_cover_art)
               (DatabaseManager.update_cover_art env (Database.d_id s) u mb ;;
                ret (Coordinator.with_cover_art_url s u))).
  { intros. apply preserved_bind;
      [apply moves_trans|apply preserved_update_cover_art|intros; frame]. }
  assert (L : preserved (moves false is_cover_art)
                (cached <- DatabaseManager.is_cover_art_cached env (Database.d_id s) ;;
                 if cached : bool then ret s
                 else
                   r <- CoverArtClient.get_cover_art env
                          (Database.d_artist s) (Database.d_title s)
                          (Database.d_cover_art_url s)
                          (Database.d_cover_art_cached_at s) ;;
                   match r with
                   | (Some (String c r0 as u), mb_id) =>
                       DatabaseManager.update_cover_art env (Database.d_id s) u mb_id ;;
                       ret (Coordinator.with_cover_art_url s u)
                   | _ => ret s
                   end)).
  { apply preserved_bind;
      [apply moves_trans|apply preserved_is_cover_art_cached|intros [|]; [frame|]].
    apply preserved_bind;
      [apply moves_trans|apply preserved_get_cover_art|].
    intros [[[|c r0]|] mb]; try solve [frame]. apply W. }
  destruct url as [[|c r]|]; auto.
Qed.

Lemma service_of_target_is_dispatch s is_current target domain service p :
  Coordinator.service_of_target s is_current target = (domain, service, p) ->
  is_dispatch is_current (ServiceCall domain service p).
Proof.
  unfold Coordinator.service_of_target. intros H.
  destruct (String.eqb target "persistent_notification");
    [|destruct (Py.split_once "." target) as [[a b]|]];
    inversion H; subst; reflexivity.
Qed.

Lemma preserved_send_loop s is_current targets :
  preserved (moves true (is_dispatch is_current))
            (Coordinator.send_loop env s is_current targets).
Proof.
  induction targets as [|t rest IH]; simpl; [frame|].
  apply preserved_bind; [apply moves_trans| |intros; exact IH].
  apply preserved_try_except; [apply moves_trans| |intros; frame].
  destruct (Coordinator.service_of_target s is_current t) as [[dm sv] p] eqn:E.
  unfold Coordinator.async_call.
  apply preserved_bind; [apply moves_trans| |intros; frame].
  apply preserved_emit. eapply service_of_target_is_dispatch; eauto.
Qed.

Lemma preserved_matches_notification_rules kd P s :
  preserved (moves kd P) (Coordinator._matches_notification_rules env s).
Proof. unfold Coordinator._matches_notification_rules. frame. Qed.

Lemma preserved_check_and_send s is_current :
  preserved (moves true (is_dispatch is_current))
            (Coordinator._check_and_send_notifications env s is_current).
Proof.
  unfold Coordinator._check_and_send_notifications.
  apply preserved_bind;
    [apply moves_trans|apply preserved_get_notification_settings|intros st].
  destruct (is_current && negb (Database.notify_current_song st))%bool; [frame|].
  destruct (negb is_current && negb (Database.notify_upcoming_song st))%bool; [frame|].
  apply preserved_bind;
    [apply moves_trans|apply preserved_matches_notification_rules|intros [|]; [|frame]].
  apply preserved_send_loop.
Qed.

Lemma preserved_upcoming_loop st p offsets :
  preserved (moves true (is_dispatch false))
            (Coordinator.upcoming_loop env st p offsets).
Proof.
  induction offsets as [|o rest IH]; simpl; [frame|].
  apply preserved_bind; [apply moves_trans| |intros; exact IH].
  destruct (p - o <? 1); [frame|].
  apply preserved_bind;
    [apply moves_trans|apply preserved_get_song_by_position|intros [s|]; [|frame]].
  apply preserved_bind;
    [apply moves_trans|apply preserved_matches_notification_rules|intros [|]; [|frame]].
  apply preserved_send_loop.
Qed.

Lemma preserved_check_upcoming :
  preserved (moves true (is_dispatch false))
            (Coordinator.async_check_upcoming_notifications env).
Proof.
  unfold Coordinator.async_check_upcoming_notifications.
  apply preserved_bind; [apply moves_trans|frame|intros [cur|]; [|frame]].
  apply preserved_bind;
    [apply moves_trans|apply preserved_get_notification_settings|intros st].
  destruct (negb (Database.notify_upcoming_song st)); [frame|].
  apply preserved_upcoming_loop.
Qed.
End Effects.

End FrameFacts.

Module SqlFacts.

Section OrderBy.
Context {A : Type}.
Variable key : A -> Z.

(** [ORDER BY key DESC]. *)
Local Abbreviation desc := (fun a b : A => key b <=? key a).

Lemma insert_by_perm x l : Permutation (Sql.insert_by desc x l) (x :: l).
Proof.
  induction l as [|y r IH]; simpl; [constructor; constructor|].
  destruct (key y <=? key x); [apply Permutation_refl|].
  eapply perm_trans; [apply perm_skip, IH|apply perm_swap].
Qed.

Lemma order_by_perm l : Permutation (Sql.order_by desc l) l.
Proof.
  induction l as [|x l IH]; simpl; [constructor|].
  eapply perm_trans; [apply insert_by_perm|now apply perm_skip].
Qed.

Lemma insert_by_sorted x l :
  StronglySorted (fun a b => key b <= key a) l ->
  StronglySorted (fun a b => key b <= key a) (Sql.insert_by desc x l).
Proof.
  induction l as [|y r IH]; intros S; simpl.
  - constructor; constructor.
  - inversion S as [|? ? Sr Fr]; subst.
    destruct (key y <=? key x) eqn:E.
    + apply Z.leb_le in E. constructor; [exact S|].
      constructor; [exact E|].
      eapply Forall_impl; [|exact Fr]. intros b Hb. simpl in Hb. lia.
    + apply Z.leb_gt in E. constructor; [now apply IH|].
      eapply Permutation_Forall; [apply Permutation_sym, insert_by_perm|].
      constructor; [lia|exact Fr].
Qed.

Lemma order_by_sorted l :
  StronglySorted (fun a b => key b <= key a) (Sql.order_by desc l).
Proof.
  induction l as [|x l IH]; simpl; [constructor|now apply insert_by_sorted].
Qed.

(** Distinct keys turn the order into a strict one. *)
Lemma sorted_strict l :
  NoDup (map key l) ->
  StronglySorted (fun a b => key b <= key a) l ->
  StronglySorted (fun a b => key b < key a) l.
Proof.
  induction l as [|x l IH]; intros N S; [constructor|].
  inversion S as [|? ? Sl Fl]; subst. simpl in N. inversion N as [|? ? Nx Nl]; subst.
  constructor; [now apply IH|].
  rewrite Forall_forall in *. intros b Hb.
  specialize (Fl b Hb). simpl in Fl.
  assert (key b <> key x).
  { intros E. apply Nx. rewrite <- E. now apply in_map. }
  lia.
Qed.

End OrderBy.

Lemma firstn_Forall {A} (P : A -> Prop) n (l : list A) :
  Forall P l -> Forall P (firstn n l).
Proof.
  revert n. induction l as [|x l IH]; intros [|n] F; simpl; try constructor.
  - now inversion F.
  - inversion F; subst. now apply IH.
Qed.

Lemma StronglySorted_firstn {A} (R : A -> A -> Prop) n (l : list A) :
  StronglySorted R l -> StronglySorted R (firstn n l).
Proof.
  revert n. induction l as [|x l IH]; intros [|n] S; simpl; try constructor.
  - inversion S; subst. now apply IH.
  - inversion S; subst. now apply firstn_Forall.
Qed.

Lemma limit_sorted {A} (R : A -> A -> Prop) n (l : list A) :
  StronglySorted R l -> StronglySorted R (Sql.limit n l).
Proof.
  unfold Sql.limit. destruct (n <? 0); [auto|apply StronglySorted_firstn].
Qed.

Lemma limit_Forall {A} (P : A -> Prop) n (l : list A) :
  Forall P l -> Forall P (Sql.limit n l).
Proof.
  unfold Sql.limit. destruct (n <? 0); [auto|apply firstn_Forall].
Qed.

Lemma limit_length {A} n (l : list A) :
  0 <= n -> Z.of_nat (length (Sql.limit n l)) <= n.
Proof.
  intros H. unfold Sql.limit.
  destruct (n <? 0) eqn:E; [apply Z.ltb_lt in E; lia|].
  pose proof (firstn_le_length (Z.to_nat n) l).
  rewrite length_firstn. lia.
Qed.

End SqlFacts.

Module StorageFacts.
Import Database Spec FrameFacts.

Section Reads.
Variable env : environment.

Lemma io_ok w r w' : io env w = (Ok r, w') -> w' = bump w.
Proof. unfold io. intros H. now inversion H. Qed.

Lemma io_reliable w : reliable env -> io env w = (Ok tt, bump w).
Proof. intros R. unfold io. now rewrite R. Qed.

(** A read that returns has returned what the query selects. *)
Lemma get_position_history_ok song_id limit w r w' :
  DatabaseManager.get_position_history env song_id limit w = (Ok r, w') ->
  r = get_position_history_q (db w) song_id limit /\ w' = bump w.
Proof.
  unfold DatabaseManager.get_position_history, bind, io, gets, ret.
  destruct (io_fault env (calls w)); intros H; inversion H; auto.
Qed.

Lemma get_position_history_reliable song_id limit w :
  reliable env ->
  DatabaseManager.get_position_history env song_id limit w
    = (Ok (get_position_history_q (db w) song_id limit), bump w).
Proof.
  intros R. unfold DatabaseManager.get_position_history, bind, io, gets, ret.
  now rewrite R.
Qed.

Lemma attach_reliable s w :
  reliable env ->
  DatabaseManager.attach env s w
    = (Ok (with_facts_and_history (db w) s), bump w).
Proof.
  intros R. unfold DatabaseManager.attach. unfold bind at 1. unfold gets at 1.
  unfold bind. rewrite (get_position_history_reliable _ _ _ R). reflexivity.
Qed.

Lemma match_song_reliable artist title w :
  reliable env ->
  exists w',
    DatabaseManager.match_song env artist title w
      = (Ok (match_song_q (partial_ratio env) (db w) artist title), w').
Proof.
  intros R. unfold DatabaseManager.match_song, match_song_q.
  unfold bind at 1. rewrite (io_reliable _ R).
  unfold bind at 1. unfold gets at 1.
  change (db (bump w)) with (db w).
  destruct (fst (best_candidate (partial_ratio env) (db w) artist title)).
  - unfold bind. rewrite (attach_reliable _ _ R). eexists; reflexivity.
  - eexists; reflexivity.
Qed.

(** Whenever [match_song] returns, it returns what the matcher selects on
    the stored catalog. *)
Lemma match_song_ok artist title w r w' :
  DatabaseManager.match_song env artist title w = (Ok r, w') ->
  r = match_song_q (partial_ratio env) (db w) artist title.
Proof.
  unfold DatabaseManager.match_song, match_song_q.
  unfold bind at 1.
  destruct (io env w) as [[[]|e] w1] eqn:E; [|discriminate].
  apply io_ok in E. subst w1.
  unfold bind at 1. unfold gets at 1.
  change (db (bump w)) with (db w).
  destruct (fst (best_candidate (partial_ratio env) (db w) artist title))
    as [row|]; [|now intros [= <-]].
  unfold bind at 1. unfold DatabaseManager.attach.
  unfold bind at 1. unfold gets at 1. unfold bind at 1.
  destruct (DatabaseManager.get_position_history env
              (d_id (dict_of_row row)) 5 (bump w)) as [[h|e] w2] eqn:H;
    [|discriminate].
  apply get_position_history_ok in H. destruct H as [-> ->].
  intros [= <-]. reflexivity.
Qed.

Lemma get_song_by_position_reliable position w :
  reliable env ->
  exists w',
    DatabaseManager.get_song_by_position env position w
      = (Ok (get_song_by_position_q (db w) position), w').
Proof.
  intros R. unfold DatabaseManager.get_song_by_position, get_song_by_position_q.
  unfold bind at 1. rewrite (io_reliable _ R).
  unfold bind at 1. unfold gets at 1.
  change (db (bump w)) with (db w).
  destruct (filter (fun r => row_position r =? position) (songs (db w))).
  - eexists; reflexivity.
  - unfold bind. rewrite (attach_reliable _ _ R). eexists; reflexivity.
Qed.

Lemma get_notification_rules_reliable b w :
  reliable env ->
  DatabaseManager.get_notification_rules env b w
    = (Ok (get_notification_rules_q (db w) b), bump w).
Proof.
  intros R. unfold DatabaseManager.get_notification_rules, bind, io, gets, ret.
  now rewrite R.
Qed.

Lemma get_notification_settings_reliable w :
  reliable env ->
  DatabaseManager.get_notification_settings env w
    = (Ok (get_notification_settings_q (db w)), bump w).
Proof.
  intros R. unfold DatabaseManager.get_notification_settings, bind, io, gets, ret.
  now rewrite R.
Qed.

Lemma matches_notification_rules_reliable s w :
  reliable env ->
  Coordinator._matches_notification_rules env s w
    = (Ok (Coordinator.matches_rules (get_notification_rules_q (db w) true) s),
       bump w).
Proof.
  intros R. unfold Coordinator._matches_notification_rules, bind.
  now rewrite (get_notification_rules_reliable _ _ R).
Qed.




End Reads.


Lemma StronglySorted_map {A B} (R : B -> B -> Prop) (f : A -> B) (l : list A) :
  StronglySorted (fun a b => R (f a) (f b)) l -> StronglySorted R (map f l).
Proof.
  induction 1; simpl; constructor; auto.
  rewrite Forall_map. assumption.
Qed.



End StorageFacts.

(* ------------------------------------------------------------------ *)
(** ** The comparisons of floats *)

Module FloatFacts.
Import Binary64.

Lemma SFcompare_rank (x y : spec_float) :
  SFcompare x y =
  if (is_number x && is_number y)%bool
  then Some (lex_compare (rank x) (rank y)) else None.
Proof.
  destruct x as [[]|[]| |[] mx ex], y as [[]|[]| |[] my ey];
    try reflexivity; simpl.
  all: rewrite ?Z.compare_opp, ?(Z.compare_antisym ey ex).
  all: destruct (ey ?= ex); simpl; try reflexivity.
  all: rewrite Pos.compare_cont_spec; now destruct (mx ?= my)%positive.
Qed.

Lemma lex_compare_lt a b : lex_compare a b = Lt <-> lex_lt a b.
Proof.
  destruct a as [[a1 a2] a3], b as [[b1 b2] b3]. simpl.
  destruct (Z.compare_spec a1 b1); [destruct (Z.compare_spec a2 b2);
    [destruct (Z.compare_spec a3 b3)|..]|..];
    split; intros; try discriminate; try lia; reflexivity.
Qed.

Lemma lex_compare_eq a b : lex_compare a b = Eq <-> a = b.
Proof.
  destruct a as [[a1 a2] a3], b as [[b1 b2] b3]. simpl.
  destruct (Z.compare_spec a1 b1); [destruct (Z.compare_spec a2 b2);
    [destruct (Z.compare_spec a3 b3)|..]|..];
    split; intros H'; try discriminate; try reflexivity;
    try (inversion H'; lia); subst; reflexivity.
Qed.

Lemma lex_compare_gt a b : lex_compare a b = Gt <-> lex_lt b a.
Proof.
  destruct a as [[a1 a2] a3], b as [[b1 b2] b3]. simpl.
  destruct (Z.compare_spec a1 b1); [destruct (Z.compare_spec a2 b2);
    [destruct (Z.compare_spec a3 b3)|..]|..];
    split; intros; try discriminate; try lia; reflexivity.
Qed.

Local Open Scope float_scope.

Lemma ltb_iff (x y : float) :
  (x <? y) = true <-> number x /\ number y /\ lex_lt (place x) (place y).
Proof.
  rewrite ltb_spec. unfold SFltb, number, place. rewrite SFcompare_rank.
  destruct (is_number (Prim2SF x)), (is_number (Prim2SF y)); simpl;
    try (split; [discriminate|intros (A & B & _); discriminate]).
  rewrite <- lex_compare_lt.
  destruct (lex_compare _ _); intuition congruence.
Qed.

Lemma leb_iff (x y : float) :
  (x <=? y) = true <->
  number x /\ number y /\ (lex_lt (place x) (place y) \/ place x = place y).
Proof.
  rewrite leb_spec. unfold SFleb, number, place. rewrite SFcompare_rank.
  destruct (is_number (Prim2SF x)), (is_number (Prim2SF y)); simpl;
    try (split; [discriminate|intros (A & B & _); discriminate]).
  rewrite <- lex_compare_lt, <- lex_compare_eq.
  destruct (lex_compare _ _); intuition congruence.
Qed.

Lemma eqb_iff (x y : float) :
  (x =? y) = true <-> number x /\ number y /\ place x = place y.
Proof.
  rewrite eqb_spec. unfold SFeqb, number, place. rewrite SFcompare_rank.
  destruct (is_number (Prim2SF x)), (is_number (Prim2SF y)); simpl;
    try (split; [discriminate|intros (A & B & _); discriminate]).
  rewrite <- lex_compare_eq.
  destruct (lex_compare _ _); intuition congruence.
Qed.

Ltac order :=
  repeat match goal with
         | H : (_ <? _) = true |- _ => apply ltb_iff in H; destruct H as (? & ? & H)
         | H : (_ <=? _) = true |- _ => apply leb_iff in H; destruct H as (? & ? & H)
         | H : (_ =? _) = true |- _ => apply eqb_iff in H; destruct H as (? & ? & H)
         end;
  repeat match goal with
         | |- context [place ?x] =>
             let a := fresh "a" in let b := fresh "b" in let c := fresh "c" in
             destruct (place x) as [[a b] c]
         | H : context [place ?x] |- _ =>
             let a := fresh "a" in let b := fresh "b" in let c := fresh "c" in
             destruct (place x) as [[a b] c]
         end;
  unfold lex_lt in *;
  repeat match goal with
         | H : (_, _, _) = (_, _, _) |- _ => inversion H; clear H; subst
         | H : _ \/ (_, _, _) = (_, _, _) |- _ => destruct H as [H|H]
         end.

Lemma ltb_trans x y z : (x <? y) = true -> (y <? z) = true -> (x <? z) = true.
Proof.
  intros A B. apply ltb_iff. order. repeat split; try assumption. lia.
Qed.

Lemma ltb_leb_trans x y z : (x <? y) = true -> (y <=? z) = true -> (x <? z) = true.
Proof.
  intros A B. apply ltb_iff. order; repeat split; try assumption; lia.
Qed.

Lemma leb_ltb_trans x y z : (x <=? y) = true -> (y <? z) = true -> (x <? z) = true.
Proof.
  intros A B. apply ltb_iff. order; repeat split; try assumption; lia.
Qed.

Lemma leb_trans x y z : (x <=? y) = true -> (y <=? z) = true -> (x <=? z) = true.
Proof.
  intros A B. apply leb_iff. order; repeat split; try assumption;
    first [left; lia | right; reflexivity].
Qed.

Lemma ltb_leb x y : (x <? y) = true -> (x <=? y) = true.
Proof. intros A. apply leb_iff. order. repeat split; try assumption. left. lia. Qed.

Lemma ltb_not_leb x y : (x <? y) = true -> (y <=? x) = false.
Proof.
  intros A. destruct (y <=? x) eqn:B; [|reflexivity]. exfalso.
  order; lia.
Qed.

Lemma leb_not_ltb x y : (x <=? y) = true -> (y <? x) = false.
Proof.
  intros A. destruct (y <? x) eqn:B; [|reflexivity]. exfalso.
  order; lia.
Qed.

Lemma ltb_irrefl x : (x <? x) = false.
Proof.
  destruct (x <? x) eqn:B; [|reflexivity]. exfalso. order; lia.
Qed.

(** Two numbers compare one way or the other; [x <=? x] says that [x] is
    a number. *)
Lemma leb_total x y :
  (x <=? x) = true -> (y <=? y) = true -> (x <=? y) = true \/ (y <? x) = true.
Proof.
  intros A B. rewrite leb_iff, ltb_iff.
  apply leb_iff in A. destruct A as (Nx & _ & _).
  apply leb_iff in B. destruct B as (Ny & _ & _).
  destruct (place x) as [[a1 a2] a3], (place y) as [[b1 b2] b3].
  unfold lex_lt.
  destruct (Z.lt_total a1 b1) as [?|[?|?]];
    destruct (Z.lt_total a2 b2) as [?|[?|?]];
    destruct (Z.lt_total a3 b3) as [?|[?|?]]; subst;
    first [ left; repeat split; try assumption; left; lia
          | left; repeat split; try assumption; right; reflexivity
          | right; repeat split; try assumption; lia ].
Qed.

Lemma eqb_leb x y : (x =? y) = true <-> (x <=? y) = true /\ (y <=? x) = true.
Proof.
  split.
  - intros A. split; apply leb_iff; order; repeat split; auto.
  - intros [A B]. apply eqb_iff. order; repeat split; auto; try lia.
    all: f_equal; try f_equal; lia.
Qed.

Lemma leb_refl_l x y : (x <=? y) = true -> (x <=? x) = true.
Proof. intros A. apply leb_iff. order; repeat split; auto. Qed.

Lemma leb_refl_r x y : (x <=? y) = true -> (y <=? y) = true.
Proof. intros A. apply leb_iff. order; repeat split; auto. Qed.

End FloatFacts.

Module MatcherFacts.
Import Database Spec StorageFacts FloatFacts.

Section Scan.
Variable partial_ratio : string -> string -> float.
Variables artist title : string.

Local Abbreviation score := (combined_score partial_ratio artist title).
Local Abbreviation accepts := (Spec.accepts partial_ratio artist title).

Lemma scan_cons_accept row rest bm bs :
  accepts bs row ->
  scan partial_ratio artist title (row :: rest) bm bs =
  scan partial_ratio artist title rest (Some row) (score row).
Proof. intros [H1 H2]. simpl. now rewrite H1, H2. Qed.

Lemma scan_cons_reject row rest bm bs :
  ~ accepts bs row ->
  scan partial_ratio artist title (row :: rest) bm bs =
  scan partial_ratio artist title rest bm bs.
Proof.
  intros N. simpl.
  destruct (bs <? score row)%float eqn:E1; [|reflexivity].
  destruct (FUZZY_MATCH_THRESHOLD <=? score row)%float eqn:E2; [|reflexivity].
  exfalso. apply N. now split.
Qed.

Lemma accepts_dec bs row : {accepts bs row} + {~ accepts bs row}.
Proof.
  unfold Spec.accepts.
  destruct (bs <? score row)%float;
    [destruct (FUZZY_MATCH_THRESHOLD <=? score row)%float|].
  - now left.
  - right. intros [_ H]. discriminate H.
  - right. intros [H _]. discriminate H.
Qed.

(** What the loop leaves: either nothing was accepted, or the accepted
    row splits the rows into rows before it that do not reach its score
    and rows after it that do not exceed it. *)
Lemma scan_spec rows : forall bm bs bm' bs',
  scan partial_ratio artist title rows bm bs = (bm', bs') ->
  (bm' = bm /\ bs' = bs /\ Forall (fun r => ~ accepts bs r) rows)
  \/ (exists before row after,
        rows = before ++ row :: after /\
        bm' = Some row /\ bs' = score row /\
        accepts bs row /\
        Forall (fun r => (score row <=? score r)%float = false) before /\
        Forall (fun r => (score row <? score r)%float = false) after).
Proof.
  induction rows as [|row rest IH]; intros bm bs bm' bs' H.
  - simpl in H. inversion H; subst. left. repeat split. constructor.
  - destruct (accepts_dec bs row) as [A|N].
    + rewrite (scan_cons_accept _ _ _ _ A) in H.
      right.
      destruct (IH _ _ _ _ H)
        as [(-> & -> & F)|(b & r & a & -> & -> & -> & Ar & Fb & Fa)].
      * exists [], row, rest. repeat split; try tauto; try apply A.
        -- constructor.
        -- eapply Forall_impl; [|exact F]. intros r Hr. simpl in Hr.
           destruct (score row <? score r)%float eqn:L; [|reflexivity].
           exfalso. apply Hr. split; [exact L|].
           destruct A as [_ A2].
           apply ltb_leb. eapply leb_ltb_trans; eauto.
      * destruct A as [A1 A2], Ar as [Ar1 Ar2].
        exists (row :: b), r, a. repeat split; try assumption.
        -- eapply ltb_trans; eauto.
        -- constructor; [|exact Fb]. now apply ltb_not_leb.
    + rewrite (scan_cons_reject _ _ _ _ N) in H.
      destruct (IH _ _ _ _ H)
        as [(-> & -> & F)|(b & r & a & -> & -> & -> & Ar & Fb & Fa)].
      * left. repeat split. constructor; assumption.
      * right. exists (row :: b), r, a. repeat split; try tauto; try apply Ar.
        constructor; [|exact Fb].
        destruct (score r <=? score row)%float eqn:L; [|reflexivity].
        exfalso. apply N. destruct Ar as [A1 A2]. split.
        -- eapply ltb_leb_trans; eauto.
        -- eapply leb_trans; eauto.
Qed.

Lemma scan_app l1 : forall l2 bm bs,
  scan partial_ratio artist title (l1 ++ l2) bm bs =
  scan partial_ratio artist title l2
       (fst (scan partial_ratio artist title l1 bm bs))
       (snd (scan partial_ratio artist title l1 bm bs)).
Proof.
  induction l1 as [|r l1 IH]; intros l2 bm bs; [reflexivity|].
  simpl.
  destruct ((bs <? combined_score partial_ratio artist title r)%float
            && (FUZZY_MATCH_THRESHOLD
                  <=? combined_score partial_ratio artist title r)%float)%bool;
    apply IH.
Qed.

(** The best score never decreases: what exceeds the best score at the
    end of the loop exceeds the best score it began with. *)
Lemma scan_monotone rows : forall bm bs c,
  (snd (scan partial_ratio artist title rows bm bs) <? c)%float = true ->
  (bs <? c)%float = true.
Proof.
  induction rows as [|r rows IH]; intros bm bs c; simpl; [auto|].
  destruct (bs <? combined_score partial_ratio artist title r)%float eqn:E1;
    simpl; [|apply IH].
  destruct (FUZZY_MATCH_THRESHOLD
              <=? combined_score partial_ratio artist title r)%float;
    [|apply IH].
  intros H. apply IH in H. eapply ltb_trans; eauto.
Qed.

(** A later row whose score equals that of an earlier row is never
    taken: the loop ends as if the later row were not there. *)
Lemma scan_skips_later_tie l1 e1 l2 e2 l3 bm bs :
  (score e1 =? score e2)%float = true ->
  scan partial_ratio artist title (l1 ++ e1 :: l2 ++ e2 :: l3) bm bs =
  scan partial_ratio artist title (l1 ++ e1 :: l2 ++ l3) bm bs.
Proof.
  intros E. apply eqb_leb in E. destruct E as [_ E21].
  rewrite !(scan_app l1).
  set (bm1 := fst (scan partial_ratio artist title l1 bm bs)).
  set (bs1 := snd (scan partial_ratio artist title l1 bm bs)).
  clearbody bm1 bs1.
  change (e1 :: l2 ++ e2 :: l3) with ([e1] ++ l2 ++ e2 :: l3).
  change (e1 :: l2 ++ l3) with ([e1] ++ l2 ++ l3).
  rewrite !(scan_app [e1]), !(scan_app l2).
  set (st1 := scan partial_ratio artist title [e1] bm1 bs1).
  assert (R1 : ~ accepts (snd st1) e2).
  { intros [A1 A2]. subst st1.
    destruct (accepts_dec bs1 e1) as [A|N].
    - rewrite (scan_cons_accept _ _ _ _ A) in A1. simpl in A1.
      apply ltb_not_leb in A1. congruence.
    - rewrite (scan_cons_reject _ _ _ _ N) in A1. simpl in A1.
      apply N. split.
      + eapply ltb_leb_trans; eauto.
      + eapply leb_trans; eauto. }
  assert (R2 : ~ accepts (snd (scan partial_ratio artist title l2
                                    (fst st1) (snd st1))) e2).
  { intros [A1 A2]. apply R1. split; [|exact A2].
    eapply scan_monotone; eauto. }
  now rewrite (scan_cons_reject _ _ _ _ R2).
Qed.
End Scan.

(** The row the loop settles on is the first row that attains its score. *)
Lemma best_candidate_first_seen
  (pr : string -> string -> float) (db : database) (artist title : string)
  (row : song_row) (sc : float) :
  best_candidate pr db artist title = (Some row, sc) ->
  exists before after,
    songs db = before ++ row :: after /\
    sc = combined_score pr artist title row /\
    (FUZZY_MATCH_THRESHOLD <=? sc)%float = true /\
    Forall (fun r => (combined_score pr artist title row
                      <=? combined_score pr artist title r)%float = false)
           before /\
    Forall (fun r => (combined_score pr artist title row
                      <? combined_score pr artist title r)%float = false)
           after.
Proof.
  intros H.
  destruct (scan_spec pr artist title _ _ _ _ _ H)
    as [(C & _)|(b & r & a & E & C & -> & [_ T] & Fb & Fa)]; [discriminate|].
  inversion C; subst r. exists b, a. auto.
Qed.

(** What [match_song] returns is read off the loop. *)
Lemma match_song_q_some (pr : string -> string -> float) (db : database)
      (artist title : string) (s : song) :
  match_song_q pr db artist title = Some s ->
  exists row sc,
    best_candidate pr db artist title = (Some row, sc) /\
    s = with_facts_and_history db (dict_of_row row).
Proof.
  unfold match_song_q.
  destruct (best_candidate pr db artist title) as [[row|] sc]; simpl;
    [|discriminate].
  intros [= <-]. eauto.
Qed.

(** C3: the loop replaces the best candidate only on a strictly greater
    combined score, so the entry [match_song] returns is the first entry,
    in enumeration order, that attains its score: no entry enumerated
    before it scores as much, no entry after it scores more.  A row whose
    score is not above the best score never replaces the best candidate,
    and a later row that ties with an earlier one leaves the outcome of the
    loop as if it were not in the catalog.  Scores are the floats the code
    computes and compares. *)
Theorem match_song_tie_break_first_seen
  (env : environment) (w w' : world) (artist title : string) (s : song) :
  DatabaseManager.match_song env artist title w = (Ok (Some s), w') ->
  (exists before row after,
      songs (db w) = before ++ row :: after /\
      s = with_facts_and_history (db w) (dict_of_row row) /\
      Forall (fun r =>
                (combined_score (partial_ratio env) artist title row
                 <=? combined_score (partial_ratio env) artist title r)%float
                = false)
             before /\
      Forall (fun r =>
                (combined_score (partial_ratio env) artist title row
                 <? combined_score (partial_ratio env) artist title r)%float
                = false)
             after) /\
  (forall r rest bm bs,
      (bs <? combined_score (partial_ratio env) artist title r)%float = false ->
      scan (partial_ratio env) artist title (r :: rest) bm bs
      = scan (partial_ratio env) artist title rest bm bs) /\
  (forall l1 e1 l2 e2 l3,
      (combined_score (partial_ratio env) artist title e1
       =? combined_score (partial_ratio env) artist title e2)%float = true ->
      scan (partial_ratio env) artist title (l1 ++ e1 :: l2 ++ e2 :: l3)
           None 0%float
      = scan (partial_ratio env) artist title (l1 ++ e1 :: l2 ++ l3)
             None 0%float).
Proof.
  intros H. split; [|split].
  - apply match_song_ok in H. symmetry in H.
    destruct (match_song_q_some _ _ _ _ _ H) as (row & sc & B & ->).
    destruct (best_candidate_first_seen _ _ _ _ _ _ B)
      as (b & a & E & _ & _ & Fb & Fa).
    exists b, row, a. auto.
  - intros r rest bm bs L. apply scan_cons_reject.
    intros [A _]. congruence.
  - intros. now apply scan_skips_later_tie.
Qed.

Lemma split_at_first {A} (P : A -> Prop) (b1 a1 b2 a2 : list A) (x y : A) :
  b1 ++ x :: a1 = b2 ++ y :: a2 ->
  Forall P b1 -> ~ P x -> Forall P b2 -> ~ P y ->
  b1 = b2 /\ x = y /\ a1 = a2.
Proof.
  revert b2. induction b1 as [|h b1 IH]; intros [|h2 b2] E F1 Nx F2 Ny; simpl in E.
  - inversion E; auto.
  - inversion E; subst. inversion F2; subst. contradiction.
  - inversion E; subst. inversion F1; subst. contradiction.
  - inversion E; subst. inversion F1; inversion F2; subst.
    destruct (IH b2 H1) as (-> & -> & ->); auto.
Qed.

Lemma match_song_q_none_iff
  (pr : string -> string -> float) (db : database) (artist title : string) :
  match_song_q pr db artist title = None <->
  Forall (fun r => (FUZZY_MATCH_THRESHOLD
                    <=? combined_score pr artist title r)%float = false)
         (songs db).
Proof.
  assert (T0 : (0 <? FUZZY_MATCH_THRESHOLD)%float = true) by reflexivity.
  unfold match_song_q, best_candidate.
  destruct (scan pr artist title (songs db) None 0%float) as [bm sc] eqn:H.
  destruct (scan_spec pr artist title _ _ _ _ _ H)
    as [(-> & -> & F)|(b & r & a & E & -> & S & [A1 A2] & Fb & Fa)]; simpl.
  - split; [intros _|reflexivity].
    eapply Forall_impl; [|exact F]. intros r N. simpl in N.
    destruct (FUZZY_MATCH_THRESHOLD <=? combined_score pr artist title r)%float
      eqn:L; [|reflexivity].
    exfalso. apply N. split; [|exact L].
    eapply ltb_leb_trans; eauto.
  - split; [discriminate|]. intro F. exfalso.
    rewrite E in F. apply Forall_app in F. destruct F as [_ F].
    inversion F; subst. congruence.
Qed.

(** C5: [match_song] returns [None] exactly when no catalog entry attains
    a combined score of 85 or more; this holds for every observation, the
    empty and the blank ones included, which are scored like any other; in
    particular the empty catalog gives [None].  The method returns
    whenever storage answers. *)
Theorem match_song_none_iff_below_threshold
  (env : environment) (w : world) (artist title : string) :
  (reliable env ->
   exists r w', DatabaseManager.match_song env artist title w = (Ok r, w')) /\
  (forall r w',
      DatabaseManager.match_song env artist title w = (Ok r, w') ->
      (r = None <->
       Forall (fun row =>
                 (FUZZY_MATCH_THRESHOLD
                  <=? combined_score (partial_ratio env) artist title row)%float
                 = false)
              (songs (db w)))) /\
  (forall r w',
      DatabaseManager.match_song env artist title w = (Ok r, w') ->
      songs (db w) = [] -> r = None).
Proof.
  split; [|split].
  - intros R. destruct (match_song_reliable env artist title w R) as (w' & E).
    eauto.
  - intros r w' H. apply match_song_ok in H. subst r.
    apply match_song_q_none_iff.
  - intros r w' H E. apply match_song_ok in H. subst r.
    apply match_song_q_none_iff. rewrite E. constructor.
Qed.

Lemma combined_score_identical (pr : string -> string -> float)
      (artist title : string) (E : song_row) :
  pr (Py.lower (row_artist E)) (Py.lower (row_artist E)) = 100%float ->
  pr (Py.lower (row_title E)) (Py.lower (row_title E)) = 100%float ->
  Py.lower artist = Py.lower (row_artist E) ->
  Py.lower title = Py.lower (row_title E) ->
  combined_score pr artist title E = 100%float.
Proof.
  intros Ia It Ha Ht. unfold combined_score. rewrite Ha, Ht, Ia, It. reflexivity.
Qed.

(** With the strings of [E] observed, the loop ends on the first row that
    scores 100. *)
Lemma best_candidate_identical_strings
  (pr : string -> string -> float) (db : database) (E : song_row)
  (artist title : string) :
  pr (Py.lower (row_artist E)) (Py.lower (row_artist E)) = 100%float ->
  pr (Py.lower (row_title E)) (Py.lower (row_title E)) = 100%float ->
  Forall (fun r => (100 <? combined_score pr artist title r)%float = false)
         (songs db) ->
  In E (songs db) ->
  Py.lower artist = Py.lower (row_artist E) ->
  Py.lower title = Py.lower (row_title E) ->
  exists before row after,
    songs db = before ++ row :: after /\
    match_song_q pr db artist title
      = Some (with_facts_and_history db (dict_of_row row)) /\
    (combined_score pr artist title row =? 100)%float = true /\
    Forall (fun r => (combined_score pr artist title r =? 100)%float = false)
           before.
Proof.
  intros Ia It B HE Ha Ht.
  pose proof (combined_score_identical pr artist title E Ia It Ha Ht) as SE.
  unfold match_song_q.
  destruct (best_candidate pr db artist title) as [bm sc] eqn:H.
  unfold best_candidate in H.
  destruct (scan_spec pr artist title _ _ _ _ _ H)
    as [(-> & -> & F)|(b & r & a & Es & -> & -> & [A1 A2] & Fb & Fa)].
  - exfalso. rewrite Forall_forall in F. apply (F E HE).
    unfold Spec.accepts. rewrite SE. split; reflexivity.
  - assert (N100 : (100 <=? 100)%float = true) by reflexivity.
    pose proof (leb_refl_r _ _ A2) as Nr.
    assert (S100 : (combined_score pr artist title r =? 100)%float = true).
    { assert (Br : (100 <? combined_score pr artist title r)%float = false).
      { rewrite Forall_forall in B. apply B. rewrite Es. apply in_elt. }
      rewrite Es in HE. apply in_app_or in HE.
      destruct HE as [Hb|[->|Hafter]].
      - exfalso. rewrite Forall_forall in Fb. apply Fb in Hb.
        rewrite SE in Hb.
        destruct (leb_total (combined_score pr artist title r) 100 Nr N100);
          congruence.
      - rewrite SE. reflexivity.
      - rewrite Forall_forall in Fa. apply Fa in Hafter. rewrite SE in Hafter.
        apply eqb_leb. split.
        + destruct (leb_total (combined_score pr artist title r) 100 Nr N100);
          congruence.
        + destruct (leb_total 100 (combined_score pr artist title r) N100 Nr);
          congruence. }
    exists b, r, a. simpl. repeat split; auto.
    eapply Forall_impl; [|exact Fb]. intros x Hx. simpl in Hx.
    destruct (combined_score pr artist title x =? 100)%float eqn:X100;
      [|reflexivity].
    exfalso. apply eqb_leb in X100, S100.
    destruct X100 as [_ X], S100 as [S _].
    pose proof (leb_trans _ _ _ S X). congruence.
Qed.

(** C4, amended: for a catalog entry [E] and an observation whose artist
    and title equal those of [E] up to case (with [partial_ratio] scoring
    100 on the strings of [E] against themselves and no entry scoring
    above 100), [match_song] returns an entry with combined score 100: the
    first entry, in enumeration order, that attains 100.  It is [E]
    whenever no entry enumerated before [E] attains 100 as well. *)
Theorem match_song_identical_strings
  (env : environment) (w : world) (E : song_row) (artist title : string) :
  partial_ratio env (Py.lower (row_artist E)) (Py.lower (row_artist E))
  = 100%float ->
  partial_ratio env (Py.lower (row_title E)) (Py.lower (row_title E))
  = 100%float ->
  Forall (fun r =>
            (100 <? combined_score (partial_ratio env) artist title r)%float
            = false)
         (songs (db w)) ->
  In E (songs (db w)) ->
  Py.lower artist = Py.lower (row_artist E) ->
  Py.lower title = Py.lower (row_title E) ->
  exists before row after,
    songs (db w) = before ++ row :: after /\
    (combined_score (partial_ratio env) artist title row =? 100)%float
    = true /\
    Forall (fun r =>
              (combined_score (partial_ratio env) artist title r =? 100)%float
              = false) before /\
    (forall r w',
        DatabaseManager.match_song env artist title w = (Ok r, w') ->
        r = Some (with_facts_and_history (db w) (dict_of_row row))) /\
    (reliable env ->
     exists w',
       DatabaseManager.match_song env artist title w
         = (Ok (Some (with_facts_and_history (db w) (dict_of_row row))), w')) /\
    (forall l1 l2,
        songs (db w) = l1 ++ E :: l2 ->
        Forall (fun r =>
                  (combined_score (partial_ratio env) artist title r
                   =? 100)%float = false) l1 ->
        row = E).
Proof.
  intros Ia It B HE Ha Ht.
  destruct (best_candidate_identical_strings
              (partial_ratio env) (db w) E artist title Ia It B HE Ha Ht)
    as (b & row & a & Es & M & S100 & Fb).
  exists b, row, a. split; [exact Es|]. split; [exact S100|].
  split; [exact Fb|]. split; [|split].
  - intros r w' H. apply match_song_ok in H. now rewrite H.
  - intros R. destruct (match_song_reliable env artist title w R) as (w' & H).
    exists w'. now rewrite H, M.
  - intros l1 l2 E2 F1. rewrite Es in E2.
    pose proof (combined_score_identical (partial_ratio env) artist title E
                  Ia It Ha Ht) as SE.
    destruct (split_at_first
                (fun r0 =>
                   (combined_score (partial_ratio env) artist title r0
                    =? 100)%float = false)
                b a l1 l2 row E E2 Fb) as (_ & -> & _); auto.
    + congruence.
    + rewrite SE. discriminate.
Qed.

Lemma occurrence_ratio_identical (s : string) :
  Samples.occurrence_ratio s s = 100%float.
Proof. unfold Samples.occurrence_ratio. now rewrite String.eqb_refl. Qed.

Lemma occurrence_ratio_le_100 (a b : string) :
  (Samples.occurrence_ratio a b <=? 100)%float = true.
Proof.
  unfold Samples.occurrence_ratio.
  destruct (String.eqb a b); [reflexivity|].
  destruct a, b; try reflexivity.
  destruct (_ || _)%bool; reflexivity.
Qed.

Lemma match_song_tie_break_first_seen_witness :
  exists before row after,
    songs Samples.catalog = before ++ row :: after /\
    row_id row = 3 /\
    Forall (fun r =>
              (combined_score Samples.occurrence_ratio "golden earring"
                              "radar love" row
               <=? combined_score Samples.occurrence_ratio "golden earring"
                                  "radar love" r)%float = false) before /\
    Forall (fun r =>
              (combined_score Samples.occurrence_ratio "golden earring"
                              "radar love" row
               <? combined_score Samples.occurrence_ratio "golden earring"
                                 "radar love" r)%float = false) after.
Proof.
  edestruct (match_song_tie_break_first_seen
               Samples.calm Samples.fresh) with
    (artist := "golden earring") (title := "radar love")
    as [(b & row & a & E & S & Fb & Fa) _].
  - vm_compute. reflexivity.
  - exists b, row, a. split; [exact E|]. split; [|split; assumption].
    apply (f_equal d_id) in S. simpl in S. symmetry. exact S.
Defined.

Lemma match_song_identical_strings_witness :
  exists before row after,
    songs Samples.catalog = before ++ row :: after /\
    (forall r w',
        DatabaseManager.match_song Samples.calm "golden earring" "radar love"
                                   Samples.fresh = (Ok r, w') ->
        r = Some (with_facts_and_history Samples.catalog (dict_of_row row))) /\
    (combined_score Samples.occurrence_ratio "golden earring" "radar love" row
     =? 100)%float = true.
Proof.
  destruct (match_song_identical_strings
              Samples.calm Samples.fresh Samples.radar_love
              "golden earring" "radar love"
              (occurrence_ratio_identical _) (occurrence_ratio_identical _))
    as (b & r & a & E & S & _ & M & _).
  - simpl songs. repeat (apply Forall_cons; [vm_compute; reflexivity|]).
    apply Forall_nil.
  - simpl. auto.
  - vm_compute. reflexivity.
  - vm_compute. reflexivity.
  - exists b, r, a. auto.
Defined.

(** C4, as stated, fails: with two entries that both score 100 against the
    observation, [match_song] returns the one enumerated first, which need
    not be the entry whose strings the observation repeats.  Here the
    observation repeats "Golden Earring - Radar Love" and the live version,
    enumerated earlier, is returned. *)
Lemma first_seen_entry_wins_over_repeated_strings :
  ~ (forall (env : environment) (w : world) (E : song_row)
            (artist title : string),
        (forall s, partial_ratio env s s = 100%float) ->
        (forall a b, (partial_ratio env a b <=? 100)%float = true) ->
        In E (songs (db w)) ->
        Py.lower artist = Py.lower (row_artist E) ->
        Py.lower title = Py.lower (row_title E) ->
        exists w',
          DatabaseManager.match_song env artist title w
            = (Ok (Some (with_facts_and_history (db w) (dict_of_row E))), w')).
Proof.
  intros H.
  destruct (H Samples.calm Samples.fresh Samples.radar_love
              "golden earring" "radar love"
              occurrence_ratio_identical occurrence_ratio_le_100)
    as (w' & C);
    [simpl; auto|vm_compute; reflexivity|vm_compute; reflexivity|].
  vm_compute in C. discriminate C.
Qed.

(** The score is the rounded one of the code: the floats nearest to
    93.33333333333333 and 76.66666666666666 add up to 170.0, so their
    average is 85.0 and the row is accepted, though the exact average of
    the two is below 85. *)
Example rounded_average_reaches_the_threshold :
  let pr := fun a _ : string =>
              if String.eqb a "queen" then 0x1.7555555555555p+6%float
              else 0x1.32aaaaaaaaaaap+6%float in
  combined_score pr "Queen" "Bohemian Rhapsody" Samples.queen = 85%float /\
  match_song_q pr Samples.catalog "Queen" "Bohemian Rhapsody"
  = Some (with_facts_and_history Samples.catalog (dict_of_row Samples.queen)).
Proof. split; vm_compute; reflexivity. Qed.

(** Of two rows whose rounded averages are equal the first one is kept,
    also when the exact averages differ: 93.33333333333333 with
    76.66666666666666 and 85.0 with 85.0 both give 85.0. *)
Example rounded_tie_keeps_the_first_row :
  let pr := fun a b : string =>
              if String.eqb b "queen" then 0x1.7555555555555p+6%float
              else if String.eqb b "bohemian rhapsody"
                   then 0x1.32aaaaaaaaaaap+6%float
                   else 85%float in
  option_map d_id
    (match_song_q pr Samples.catalog "Queen" "Bohemian Rhapsody") = Some 1.
Proof. vm_compute. reflexivity. Qed.

Lemma match_song_none_iff_below_threshold_witness :
  exists w',
    DatabaseManager.match_song Samples.calm "" "   " Samples.fresh
      = (Ok None, w').
Proof.
  destruct (match_song_none_iff_below_threshold
              Samples.calm Samples.fresh "" "   ") as (R & H & _).
  destruct R as (r & w' & E); [intros k; reflexivity|].
  exists w'. rewrite E. f_equal. f_equal.
  apply (H r w' E). simpl songs.
  repeat (apply Forall_cons; [vm_compute; reflexivity|]).
  apply Forall_nil.
Defined.

End MatcherFacts.

Module ClientFacts.
Import Database Spec FrameFacts.

Section Chain.
Variable env : environment.

(** A stage that raises or finds nothing: the chain goes on, one call
    later, with the request recorded and the cache as it was. *)
Lemma try_stage_miss s w :
  found (upstream env (calls w) s) = None ->
  NPOClient.try_stage env s w = (Ok None, bump (record (Upstream s) w)).
Proof.
  unfold NPOClient.try_stage, try_except, NPOClient.fetch_stage, bind, emit, modify.
  simpl. destruct (upstream env (calls w) s); simpl; intros H;
    [reflexivity|reflexivity|discriminate].
Qed.

(** A stage that returns an observation: it is cached with the time of
    the next clock reading and returned. *)
Lemma try_stage_hit s w m :
  found (upstream env (calls w) s) = Some m ->
  NPOClient.try_stage env s w =
  (Ok (Some m),
   set_cache m (clock env (S (calls w)))
             (bump (bump (record (Upstream s) w)))).
Proof.
  unfold NPOClient.try_stage, try_except, NPOClient.fetch_stage,
    NPOClient._cache_metadata, bind, emit, modify, now.
  simpl. destruct (upstream env (calls w) s); simpl; intros H;
    [discriminate|discriminate|]. inversion H; subst. reflexivity.
Qed.

Lemma found_cases o : found o = None \/ exists m, found o = Some m.
Proof. destruct o; simpl; eauto. Qed.
End Chain.

(** The chain from any world: the first stage that yields an observation
    wins, and nothing is found exactly when all three stages fail. *)
Lemma fallback_chain_first_success (env : environment) (w : world) :
  (forall m,
      found (upstream env (calls w) Website) = Some m ->
      exists w',
        NPOClient.fallback_chain env w = (Ok (Some m), w') /\
        trace w' = trace w ++ [Upstream Website] /\
        cached_metadata w' = Some m /\
        last_fetch w' = Some (clock env (1 + calls w))) /\
  (forall m,
      found (upstream env (calls w) Website) = None ->
      found (upstream env (1 + calls w) Icecast) = Some m ->
      exists w',
        NPOClient.fallback_chain env w = (Ok (Some m), w') /\
        trace w' = trace w ++ [Upstream Website; Upstream Icecast] /\
        cached_metadata w' = Some m /\
        last_fetch w' = Some (clock env (2 + calls w))) /\
  (forall m,
      found (upstream env (calls w) Website) = None ->
      found (upstream env (1 + calls w) Icecast) = None ->
      found (upstream env (2 + calls w) Onlineradiobox) = Some m ->
      exists w',
        NPOClient.fallback_chain env w = (Ok (Some m), w') /\
        trace w' = trace w ++ [Upstream Website; Upstream Icecast;
                               Upstream Onlineradiobox] /\
        cached_metadata w' = Some m /\
        last_fetch w' = Some (clock env (3 + calls w))) /\
  (forall w',
      NPOClient.fallback_chain env w = (Ok None, w') <->
      found (upstream env (calls w) Website) = None /\
      found (upstream env (1 + calls w) Icecast) = None /\
      found (upstream env (2 + calls w) Onlineradiobox) = None /\
      w' = bump (record (Upstream Onlineradiobox)
             (bump (record (Upstream Icecast)
                (bump (record (Upstream Website) w)))))).
Proof.
  split; [|split; [|split]].
  - intros m E1. unfold NPOClient.fallback_chain, bind.
    rewrite (try_stage_hit _ _ _ _ E1). eexists. split; [reflexivity|].
    simpl. auto.
  - intros m E1 E2. unfold NPOClient.fallback_chain, bind.
    rewrite (try_stage_miss _ _ _ E1).
    rewrite (try_stage_hit _ _ _ m) by exact E2.
    eexists. split; [reflexivity|]. simpl. rewrite <- app_assoc. auto.
  - intros m E1 E2 E3. unfold NPOClient.fallback_chain, bind.
    rewrite (try_stage_miss _ _ _ E1).
    rewrite (try_stage_miss _ Icecast) by exact E2.
    rewrite (try_stage_hit _ _ _ m) by exact E3.
    eexists. split; [reflexivity|]. simpl. rewrite <- !app_assoc. auto.
  - intros w'. unfold NPOClient.fallback_chain, bind.
    destruct (found_cases (upstream env (calls w) Website)) as [E1|[m E1]].
    2:{ rewrite (try_stage_hit _ _ _ _ E1). rewrite E1.
        split; [discriminate|intros (? & _); discriminate]. }
    rewrite (try_stage_miss _ _ _ E1).
    destruct (found_cases (upstream env (1 + calls w) Icecast)) as [E2|[m E2]].
    2:{ rewrite (try_stage_hit _ _ _ m) by exact E2. rewrite E2.
        split; [discriminate|intros (_ & ? & _); discriminate]. }
    rewrite (try_stage_miss _ Icecast) by exact E2.
    destruct (found_cases (upstream env (2 + calls w) Onlineradiobox)) as [E3|[m E3]].
    2:{ rewrite (try_stage_hit _ _ _ m) by exact E3. rewrite E3.
        split; [discriminate|intros (_ & _ & ? & _); discriminate]. }
    rewrite (try_stage_miss _ Onlineradiobox) by exact E3.
    split.
    + intros H. inversion H. auto.
    + intros (_ & _ & _ & ->). reflexivity.
Qed.

Lemma fallback_chain_returns (env : environment) (v : world) :
  exists o v', NPOClient.fallback_chain env v = (Ok o, v').
Proof.
  destruct (fallback_chain_first_success env v) as (S1 & S2 & S3 & S4).
  destruct (found_cases (upstream env (calls v) Website)) as [E1|[m E1]].
  2:{ destruct (S1 m E1) as (v' & E & _). eauto. }
  destruct (found_cases (upstream env (1 + calls v) Icecast)) as [E2|[m E2]].
  2:{ destruct (S2 m E1 E2) as (v' & E & _). eauto. }
  destruct (found_cases (upstream env (2 + calls v) Onlineradiobox)) as [E3|[m E3]].
  2:{ destruct (S3 m E1 E2 E3) as (v' & E & _). eauto. }
  exists None. eexists. apply S4. repeat split; auto.
Qed.

(** C6: [get_current_metadata] never raises; inside the 30-second window
    it returns the cached observation and contacts no source; otherwise it
    runs the chain, in which the first stage that yields an observation has
    it cached and returned with no later stage contacted, a stage that
    raises or finds nothing only passes the turn, and [None] is returned
    exactly when all three stages fail. *)
Theorem get_current_metadata_fallback_and_cache (env : environment) (w : world) :
  (exists o w', NPOClient.get_current_metadata env w = (Ok o, w')) /\
  (forall m fetched,
      cached_metadata w = Some m -> last_fetch w = Some fetched ->
      clock env (calls w) - fetched < seconds 30 ->
      NPOClient.get_current_metadata env w = (Ok (Some m), bump w) /\
      trace (bump w) = trace w) /\
  (forall m fetched,
      cached_metadata w = Some m -> last_fetch w = Some fetched ->
      seconds 30 <= clock env (calls w) - fetched ->
      NPOClient.get_current_metadata env w
        = NPOClient.fallback_chain env (bump w)) /\
  (cached_metadata w = None \/ last_fetch w = None ->
   NPOClient.get_current_metadata env w = NPOClient.fallback_chain env w) /\
  (forall v : world,
      (forall m,
          found (upstream env (calls v) Website) = Some m ->
          exists v',
            NPOClient.fallback_chain env v = (Ok (Some m), v') /\
            trace v' = trace v ++ [Upstream Website] /\
            cached_metadata v' = Some m /\
            last_fetch v' = Some (clock env (1 + calls v))) /\
      (forall m,
          found (upstream env (calls v) Website) = None ->
          found (upstream env (1 + calls v) Icecast) = Some m ->
          exists v',
            NPOClient.fallback_chain env v = (Ok (Some m), v') /\
            trace v' = trace v ++ [Upstream Website; Upstream Icecast] /\
            cached_metadata v' = Some m /\
            last_fetch v' = Some (clock env (2 + calls v))) /\
      (forall m,
          found (upstream env (calls v) Website) = None ->
          found (upstream env (1 + calls v) Icecast) = None ->
          found (upstream env (2 + calls v) Onlineradiobox) = Some m ->
          exists v',
            NPOClient.fallback_chain env v = (Ok (Some m), v') /\
            trace v' = trace v ++ [Upstream Website; Upstream Icecast;
                                   Upstream Onlineradiobox] /\
            cached_metadata v' = Some m /\
            last_fetch v' = Some (clock env (3 + calls v))) /\
      (forall v',
          NPOClient.fallback_chain env v = (Ok None, v') <->
          found (upstream env (calls v) Website) = None /\
          found (upstream env (1 + calls v) Icecast) = None /\
          found (upstream env (2 + calls v) Onlineradiobox) = None /\
          v' = bump (record (Upstream Onlineradiobox)
                 (bump (record (Upstream Icecast)
                    (bump (record (Upstream Website) v))))))) /\
  (forall w',
      NPOClient.get_current_metadata env w = (Ok None, w') ->
      exists v,
        (v = w \/ v = bump w) /\
        found (upstream env (calls v) Website) = None /\
        found (upstream env (1 + calls v) Icecast) = None /\
        found (upstream env (2 + calls v) Onlineradiobox) = None).
Proof.
  assert (Hit : forall m fetched,
      cached_metadata w = Some m -> last_fetch w = Some fetched ->
      clock env (calls w) - fetched < seconds 30 ->
      NPOClient.get_current_metadata env w = (Ok (Some m), bump w)).
  { intros m f C L T. unfold NPOClient.get_current_metadata, bind, gets, now.
    rewrite C, L. apply Z.ltb_lt in T.
    unfold NPOClient.cache_duration. now rewrite T. }
  assert (Expired : forall m fetched,
      cached_metadata w = Some m -> last_fetch w = Some fetched ->
      seconds 30 <= clock env (calls w) - fetched ->
      NPOClient.get_current_metadata env w
        = NPOClient.fallback_chain env (bump w)).
  { intros m f C L T. unfold NPOClient.get_current_metadata, bind, gets, now.
    rewrite C, L. apply Z.ltb_ge in T.
    unfold NPOClient.cache_duration. now rewrite T. }
  assert (Empty : cached_metadata w = None \/ last_fetch w = None ->
      NPOClient.get_current_metadata env w = NPOClient.fallback_chain env w).
  { intros H. unfold NPOClient.get_current_metadata, bind, gets.
    destruct (cached_metadata w), (last_fetch w), H; try discriminate; reflexivity. }
  assert (Cases :
      (exists m, NPOClient.get_current_metadata env w = (Ok (Some m), bump w)) \/
      NPOClient.get_current_metadata env w = NPOClient.fallback_chain env (bump w) \/
      NPOClient.get_current_metadata env w = NPOClient.fallback_chain env w).
  { destruct (cached_metadata w) as [m|] eqn:C;
      [destruct (last_fetch w) as [f|] eqn:L|]; auto.
    destruct (Z_lt_le_dec (clock env (calls w) - f) (seconds 30)) as [T|T].
    - left. exists m. now apply (Hit m f).
    - right. left. now apply (Expired m f). }
  split; [|split; [|split; [|split; [|split]]]].
  - destruct Cases as [[m ->]|[->| ->]].
    + do 2 eexists; reflexivity.
    + apply fallback_chain_returns.
    + apply fallback_chain_returns.
  - intros m f C L T. split; [now apply (Hit m f)|reflexivity].
  - exact Expired.
  - exact Empty.
  - intros v. apply fallback_chain_first_success.
  - intros w' H. destruct Cases as [[m E]|[E|E]]; rewrite E in H.
    + discriminate.
    + exists (bump w). split; [now right|].
      apply (fallback_chain_first_success env (bump w)) in H. tauto.
    + exists w. split; [now left|].
      apply (fallback_chain_first_success env w) in H. tauto.
Qed.

Lemma get_current_metadata_fallback_and_cache_witness :
  exists w',
    NPOClient.fallback_chain Samples.calm Samples.fresh
      = (Ok (Some Samples.on_air), w') /\
    trace w' = trace Samples.fresh ++ [Upstream Website; Upstream Icecast] /\
    cached_metadata w' = Some Samples.on_air /\
    last_fetch w' = Some (clock Samples.calm (2 + calls Samples.fresh)).
Proof.
  destruct (get_current_metadata_fallback_and_cache Samples.calm Samples.fresh)
    as (_ & _ & _ & _ & H & _).
  destruct (H Samples.fresh) as (_ & S2 & _).
  apply (S2 Samples.on_air); reflexivity.
Defined.

End ClientFacts.

Module RuleFacts.
Import Database Spec FrameFacts StorageFacts.

Lemma prefix_iff (p s : string) :
  String.prefix p s = true <-> exists post, s = (p ++ post)%string.
Proof.
  revert s. induction p as [|c p IH]; intros s.
  - destruct s; simpl; split; eauto.
  - destruct s as [|d s]; simpl;
      [split; [discriminate|intros [post H]; discriminate]|].
    destruct (ascii_dec c d) as [->|N].
    + rewrite IH. split; intros [post H]; exists post.
      * now rewrite H.
      * now inversion H.
    + split; [discriminate|]. intros [post H]. inversion H. subst. now elim N.
Qed.

Lemma contains_unfold (pat s : string) :
  Py.contains pat s =
  (String.prefix pat s ||
   match s with
   | EmptyString => false
   | String _ r => Py.contains pat r
   end)%bool.
Proof. destruct s; reflexivity. Qed.

(** [pat in s] holds exactly when [pat] occurs in [s]. *)
Lemma contains_iff (pat s : string) :
  Py.contains pat s = true <-> occurs_in pat s.
Proof.
  unfold occurs_in. induction s as [|c s IH]; rewrite contains_unfold.
  - rewrite orb_false_r, prefix_iff. split.
    + intros [post H]. exists "", post. exact H.
    + intros (pre & post & H). destruct pre; simpl in H; [eauto|discriminate].
  - rewrite orb_true_iff, prefix_iff, IH. split.
    + intros [[post H]|(pre & post & H)].
      * exists "", post. exact H.
      * exists (String c pre), post. simpl. now rewrite H.
    + intros (pre & post & H). destruct pre as [|d pre]; simpl in H.
      * left. eauto.
      * right. inversion H. eauto.
Qed.

Lemma rule_applies_iff (r : rule) (s : song) :
  rule_applies r s <->
  (String.eqb (r_rule_type r) "artist"
   && Py.contains (Py.lower (r_match_pattern r)) (Py.lower (d_artist s))
   || String.eqb (r_rule_type r) "title"
      && Py.contains (Py.lower (r_match_pattern r)) (Py.lower (d_title s)))%bool
  = true.
Proof.
  unfold rule_applies.
  rewrite orb_true_iff, !andb_true_iff, !String.eqb_eq, !contains_iff.
  reflexivity.
Qed.

(** The loop returns the first rule that applies, if any does. *)
Lemma first_matching_rule_spec (rules : list rule) (s : song) :
  match Coordinator.first_matching_rule rules (Py.lower (d_artist s))
                                    (Py.lower (d_title s)) with
  | Some r =>
      exists before after,
        rules = before ++ r :: after /\
        rule_applies r s /\
        Forall (fun x => ~ rule_applies x s) before
  | None => Forall (fun x => ~ rule_applies x s) rules
  end.
Proof.
  induction rules as [|r rest IH]; simpl; [constructor|].
  pose proof (rule_applies_iff r s) as A.
  destruct (String.eqb (r_rule_type r) "artist"
            && Py.contains (Py.lower (r_match_pattern r)) (Py.lower (d_artist s)))%bool.
  - exists [], rest. repeat split; [apply A; reflexivity|constructor].
  - destruct (String.eqb (r_rule_type r) "title"
              && Py.contains (Py.lower (r_match_pattern r)) (Py.lower (d_title s)))%bool.
    + exists [], rest. repeat split; [apply A; reflexivity|constructor].
    + assert (N : ~ rule_applies r s) by (rewrite A; discriminate).
      destruct (Coordinator.first_matching_rule rest _ _) as [r'|].
      * destruct IH as (b & a & -> & Hr & Fb).
        exists (r :: b), a. repeat split; auto.
      * constructor; assumption.
Qed.

Lemma position_range_never_applies (r : rule) (s : song) :
  r_rule_type r = "position_range" -> ~ rule_applies r s.
Proof.
  intros E [[H _]|[H _]]; rewrite E in H; discriminate.
Qed.

(** The calls of [_send_notification]: one per target, in order, whatever
    the services answer. *)
Lemma send_loop_exact env s is_current targets : forall w,
  exists w',
    Coordinator.send_loop env s is_current targets w = (Ok tt, w') /\
    db w' = db w /\
    trace w' = trace w ++ dispatch_events s is_current targets.
Proof.
  induction targets as [|t rest IH]; intros w; simpl.
  - exists w. repeat split. now rewrite app_nil_r.
  - unfold bind at 1. unfold try_except.
    destruct (Coordinator.service_of_target s is_current t) as [[dm sv] p].
    unfold Coordinator.async_call, bind, emit, modify, io. simpl.
    set (w1 := bump (record (ServiceCall dm sv p) w)).
    destruct (IH w1) as (w' & E & D & T).
    exists w'. unfold bind in E.
    destruct (io_fault env (calls w)); simpl; fold w1; rewrite E;
      (repeat split; [exact D|rewrite T; simpl; now rewrite <- app_assoc]).
Qed.

Lemma first_matching_rule_first (s : song) (before after : list rule) (r : rule) :
  Forall (fun x => ~ rule_applies x s) before ->
  rule_applies r s ->
  Coordinator.first_matching_rule (before ++ r :: after)
    (Py.lower (d_artist s)) (Py.lower (d_title s)) = Some r.
Proof.
  intros F A. induction F as [|x before Nx F IH]; simpl.
  - apply rule_applies_iff in A. apply orb_true_iff in A.
    destruct A as [A|A]; rewrite A; [reflexivity|].
    now destruct (String.eqb (r_rule_type r) "artist"
                  && Py.contains (Py.lower (r_match_pattern r))
                       (Py.lower (d_artist s)))%bool.
  - rewrite rule_applies_iff in Nx. apply not_true_is_false in Nx.
    apply orb_false_iff in Nx. destruct Nx as [N1 N2].
    rewrite N1, N2. exact IH.
Qed.

Lemma matches_rules_iff (rules : list rule) (s : song) :
  Coordinator.matches_rules rules s = true <->
  exists r, In r rules /\ rule_applies r s.
Proof.
  unfold Coordinator.matches_rules.
  pose proof (first_matching_rule_spec rules s) as H.
  destruct rules as [|r0 rest]; [split; [discriminate|intros (r & [] & _)]|].
  destruct (Coordinator.first_matching_rule (r0 :: rest) _ _) as [r|].
  - destruct H as (b & a & E & A & _). split; [intros _|reflexivity].
    exists r. split; [|exact A]. rewrite E. apply in_elt.
  - split; [discriminate|]. intros (r & I & A).
    rewrite Forall_forall in H. exfalso. exact (H r I A).
Qed.

(** What [_check_and_send_notifications] adds to the trace: nothing, or
    the calls of one [_send_notification]. *)
Lemma check_and_send_once env s is_current w r w' :
  Coordinator._check_and_send_notifications env s is_current w = (r, w') ->
  trace w' = trace w \/
  trace w' = trace w ++
    dispatch_events s is_current
      (notification_targets (get_notification_settings_q (db w))).
Proof.
  unfold Coordinator._check_and_send_notifications.
  unfold bind at 1.
  unfold DatabaseManager.get_notification_settings at 1, bind, io, gets, ret.
  destruct (io_fault env (calls w)); [intros H; inversion H; auto|].
  change (db (bump w)) with (db w).
  set (st := get_notification_settings_q (db w)).
  destruct (is_current && negb (notify_current_song st))%bool;
    [intros H; inversion H; auto|].
  destruct (negb is_current && negb (notify_upcoming_song st))%bool;
    [intros H; inversion H; auto|].
  destruct (Coordinator._matches_notification_rules env s (bump w))
    as [[[|]|e] w1] eqn:E; intros H.
  all: assert (T1 : trace w1 = trace w)
    by (destruct (preserved_matches_notification_rules env true no_event _ _ _ _ E)
          as (_ & _ & (new & T & F));
        destruct new as [|x ?];
        [now rewrite T, app_nil_r|inversion F as [|? ? []]]).
  - unfold Coordinator._send_notification in H.
    destruct (send_loop_exact env s is_current (notification_targets st) w1)
      as (w2 & E2 & _ & T2).
    rewrite E2 in H. inversion H; subst. right. now rewrite T2, T1.
  - inversion H; subst. now left.
  - inversion H; subst. now left.
Qed.

(** C9: rule evaluation reads the enabled rules; with none it answers
    no; otherwise it answers yes exactly when some enabled rule applies, an
    [artist] rule applying when its lowered pattern occurs in the lowered
    artist and a [title] rule when it occurs in the lowered title; a
    [position_range] rule never applies; the loop stops at the first rule
    that applies, whatever rules follow it; and one evaluation for a song
    adds to the calls made either nothing or one notification per target. *)
Theorem notification_rule_evaluation
  (env : environment) (w : world) (s : song) :
  let rules := get_notification_rules_q (db w) true in
  (reliable env ->
   Coordinator._matches_notification_rules env s w
     = (Ok (Coordinator.matches_rules rules s), bump w)) /\
  (rules = [] -> Coordinator.matches_rules rules s = false) /\
  (Coordinator.matches_rules rules s = true <->
   exists r, In r rules /\ rule_applies r s) /\
  (forall r, r_rule_type r = "position_range" -> ~ rule_applies r s) /\
  (forall r,
      Coordinator.first_matching_rule rules (Py.lower (d_artist s))
                                      (Py.lower (d_title s)) = Some r ->
      exists before after,
        rules = before ++ r :: after /\
        rule_applies r s /\
        Forall (fun x => ~ rule_applies x s) before /\
        forall others,
          Coordinator.first_matching_rule (before ++ r :: others)
            (Py.lower (d_artist s)) (Py.lower (d_title s)) = Some r) /\
  (forall is_current r w',
      Coordinator._check_and_send_notifications env s is_current w = (r, w') ->
      trace w' = trace w \/
      trace w' = trace w ++
        dispatch_events s is_current
          (notification_targets (get_notification_settings_q (db w)))).
Proof.
  intros rules. split; [|split; [|split; [|split; [|split]]]].
  - apply matches_notification_rules_reliable.
  - intros ->. reflexivity.
  - apply matches_rules_iff.
  - intros r. apply position_range_never_applies.
  - intros r H. pose proof (first_matching_rule_spec rules s) as S.
    rewrite H in S. destruct S as (b & a & E & A & F).
    exists b, a. repeat split; auto.
    intros others. now apply first_matching_rule_first.
  - intros. eapply check_and_send_once; eauto.
Qed.

Lemma upcoming_loop_exact env st p offsets : forall w,
  reliable env ->
  exists w',
    Coordinator.upcoming_loop env st p offsets w = (Ok tt, w') /\
    db w' = db w /\
    trace w' = trace w ++
      flat_map (fun s => dispatch_events s false (notification_targets st))
               (upcoming_window (db w) p offsets).
Proof.
  induction offsets as [|o rest IH]; intros w R; simpl.
  - exists w. repeat split. now rewrite app_nil_r.
  - unfold bind at 1.
    destruct (p - o <? 1).
    + simpl. destruct (IH w R) as (w' & E & D & T). exists w'. auto.
    + unfold bind at 1.
      destruct (get_song_by_position_reliable env (p - o) w R) as (w1 & E1).
      rewrite E1.
      assert (M1 : moves true no_event w w1)
        by (eapply preserved_get_song_by_position; eauto).
      destruct M1 as (_ & D1 & (n1 & T1 & F1)). specialize (D1 eq_refl).
      assert (n1 = []) by (destruct n1; [reflexivity|inversion F1 as [|? ? []]]).
      subst n1. rewrite app_nil_r in T1.
      destruct (get_song_by_position_q (db w) (p - o)) as [s|].
      * unfold bind at 1.
        rewrite (matches_notification_rules_reliable env s w1 R). rewrite D1.
        destruct (Coordinator.matches_rules (get_notification_rules_q (db w) true) s).
        -- unfold Coordinator._send_notification.
           destruct (send_loop_exact env s false (notification_targets st) (bump w1))
             as (w2 & E2 & D2 & T2).
           rewrite E2.
           destruct (IH w2 R) as (w' & E & D & T). exists w'.
           split; [exact E|]. simpl in D2, T2.
           split; [congruence|].
           rewrite T, T2, T1, D2, D1. simpl.
           now rewrite <- app_assoc.
        -- simpl. destruct (IH (bump w1) R) as (w' & E & D & T). exists w'.
           split; [exact E|]. simpl in D, T. split; [congruence|].
           now rewrite T, T1, D1.
      * simpl. destruct (IH w1 R) as (w' & E & D & T). exists w'.
        split; [exact E|]. split; [congruence|]. now rewrite T, T1, D1.
Qed.

Lemma in_upcoming_window d p offsets s :
  In s (upcoming_window d p offsets) <->
  exists o,
    In o offsets /\ 1 <= p - o /\
    get_song_by_position_q d (p - o) = Some s /\
    Coordinator.matches_rules (get_notification_rules_q d true) s = true.
Proof.
  unfold upcoming_window. rewrite in_flat_map. split.
  - intros (o & I & H). exists o. split; [exact I|].
    destruct (p - o <? 1) eqn:L; [destruct H|]. apply Z.ltb_ge in L.
    destruct (get_song_by_position_q d (p - o)) as [s'|]; [|destruct H].
    destruct (Coordinator.matches_rules _ s') eqn:M; [|destruct H].
    destruct H as [->|[]]. auto.
  - intros (o & I & L & G & M). exists o. split; [exact I|].
    apply Z.ltb_ge in L. rewrite L, G, M. now left.
Qed.

(** X30.  [async_check_upcoming_notifications] called with a song in
    [self.data] and storage answering: it reads the settings and, when
    upcoming notifications are disabled, calls no service; when enabled,
    for each configured offset [o] in order it takes the position of that
    song minus [o], skips it when below 1, fetches the entry there and, if
    that entry matches an enabled rule, sends a notification about it with
    [is_current = false] to the configured targets. *)
Theorem upcoming_window_notifications
  (env : environment) (w : world) (current : song) :
  reliable env ->
  Coordinator.published_song w = Some current ->
  let settings := get_notification_settings_q (db w) in
  exists w',
    Coordinator.async_check_upcoming_notifications env w = (Ok tt, w') /\
    trace w' = trace w ++
      (if notify_upcoming_song settings
       then flat_map
              (fun s => dispatch_events s false (notification_targets settings))
              (upcoming_window (db w) (d_position current)
                               (upcoming_notify_positions settings))
       else []) /\
    (forall s,
        In s (upcoming_window (db w) (d_position current)
                              (upcoming_notify_positions settings)) <->
        exists o,
          In o (upcoming_notify_positions settings) /\
          1 <= d_position current - o /\
          get_song_by_position_q (db w) (d_position current - o) = Some s /\
          Coordinator.matches_rules (get_notification_rules_q (db w) true) s
            = true) /\
    (forall s, Forall (is_dispatch false)
                      (dispatch_events s false (notification_targets settings))).
Proof.
  intros R P settings.
  assert (Run : exists w',
    Coordinator.async_check_upcoming_notifications env w = (Ok tt, w') /\
    trace w' = trace w ++
      (if notify_upcoming_song settings
       then flat_map
              (fun s => dispatch_events s false (notification_targets settings))
              (upcoming_window (db w) (d_position current)
                               (upcoming_notify_positions settings))
       else [])).
  { unfold Coordinator.async_check_upcoming_notifications.
    unfold bind at 1. unfold gets at 1. rewrite P.
    unfold bind at 1. rewrite (get_notification_settings_reliable env w R).
    fold settings. destruct (notify_upcoming_song settings); simpl.
    - destruct (upcoming_loop_exact env settings (d_position current)
                  (upcoming_notify_positions settings) (bump w) R)
        as (w' & E & _ & T).
      exists w'. split; [exact E|exact T].
    - exists (bump w). split; [reflexivity|]. simpl. now rewrite app_nil_r. }
  destruct Run as (w' & E & T). exists w'.
  split; [exact E|]. split; [exact T|]. split.
  - intros s. apply in_upcoming_window.
  - intros s. unfold dispatch_events. rewrite Forall_map.
    apply Forall_forall. intros t _.
    destruct (Coordinator.service_of_target s false t) as [[dm sv] p] eqn:S.
    eapply service_of_target_is_dispatch; eauto.
Qed.

(** Case is folded as [str.lower] does it, beyond the letters A to Z; a
    capital sigma at the end of the pattern becomes a final sigma, which
    does not occur inside the lowered artist. *)
Example rules_fold_case_as_python_does :
  let artist_rule pattern :=
    [{| r_id := 1; r_rule_type := "artist"; r_match_pattern := pattern;
        r_enabled := true |}] in
  let by_ artist :=
    {| d_id := 1; d_position := 1; d_artist := artist; d_title := "";
       d_year := None; d_cover_art_url := None;
       d_cover_art_cached_at := None; d_fun_facts := [];
       d_position_history := [] |} in
  Coordinator.matches_rules (artist_rule "bløf") (by_ "BLØF") = true /\
  Coordinator.matches_rules (artist_rule "ΑΣ") (by_ "ΑΣΑ") = false /\
  Coordinator.matches_rules (artist_rule "ΑΣ") (by_ "ΓΙΑ ΤΑΣ") = true.
Proof. repeat split; vm_compute; reflexivity. Qed.

Lemma notification_rule_evaluation_witness :
  Coordinator.matches_rules (get_notification_rules_q Samples.catalog true)
                            (dict_of_row Samples.eagles) = true /\
  exists r,
    In r (get_notification_rules_q Samples.catalog true) /\
    r_id r = 4 /\
    rule_applies r (dict_of_row Samples.eagles).
Proof.
  destruct (notification_rule_evaluation Samples.calm Samples.fresh
              (dict_of_row Samples.eagles)) as (_ & _ & _ & _ & H & _).
  split; [vm_compute; reflexivity|].
  destruct (H {| r_id := 4; r_rule_type := "title";
                 r_match_pattern := "Hotel"; r_enabled := true |})
    as (b & a & E & A & _); [vm_compute; reflexivity|].
  eexists. split; [|split; [|exact A]]; [|reflexivity].
  change (db Samples.fresh) with Samples.catalog in E.
  rewrite E. apply in_elt.
Defined.

Lemma upcoming_window_notifications_witness :
  exists w',
    Coordinator.async_check_upcoming_notifications Samples.calm Samples.playing
      = (Ok tt, w') /\
    trace w' = trace Samples.playing ++
      [ ServiceCall "persistent_notification" "create"
          (Persistent
             {| msg_upcoming := true; msg_position := 499;
                msg_artist := "Queen"; msg_title := "Bohemian Rhapsody";
                msg_year := Some 1975;
                msg_fun_fact := Some "Six minutes long." |} 1 false);
        ServiceCall "notify" "mobile_app_phone"
          (Notify
             {| msg_upcoming := true; msg_position := 499;
                msg_artist := "Queen"; msg_title := "Bohemian Rhapsody";
                msg_year := Some 1975;
                msg_fun_fact := Some "Six minutes long." |}
             (Some "https://img.example/queen.jpg")) ].
Proof.
  destruct (upcoming_window_notifications
              Samples.calm Samples.playing Samples.eagles_published)
    as (w' & E & T & _).
  - intros k. reflexivity.
  - vm_compute. reflexivity.
  - exists w'. split; [exact E|]. rewrite T. f_equal.
Defined.

End RuleFacts.

Module TickFacts.
Import Database Spec FrameFacts.

Section Tick.
Variable env : environment.

Lemma resolved_moves w md w1 s w2 :
  NPOClient.get_current_metadata env w = (Ok (Some md), w1) ->
  DatabaseManager.match_song env (md_artist md) (md_title md) w1
    = (Ok (Some s), w2) ->
  moves true is_upstream w w2.
Proof.
  intros H1 H2. eapply moves_trans.
  - eapply preserved_get_current_metadata; eauto.
  - eapply preserved_match_song; eauto.
Qed.

Lemma differs_false_iff i last :
  Coordinator.differs i last = false <-> last = Some i.
Proof.
  destruct last as [l|]; simpl; [|split; discriminate].
  rewrite negb_false_iff, Z.eqb_eq. split; [now intros ->|now intros [= ->]].
Qed.

(** The tick up to the point where the resolved song is compared with
    the tracked one. *)
Lemma update_body_resolved w md w1 s w2 :
  NPOClient.get_current_metadata env w = (Ok (Some md), w1) ->
  DatabaseManager.match_song env (md_artist md) (md_title md) w1
    = (Ok (Some s), w2) ->
  Coordinator.update_body env w =
  (if Coordinator.differs (d_id s) (last_song_id w)
   then
     match Coordinator.on_song_changed env s md w2 with
     | (Ok s', w') => (Ok (changed_result s' md), w')
     | (Raise e, w') => (Raise e, w')
     end
   else (Ok (unchanged_result s md), w2)).
Proof.
  intros H1 H2.
  pose proof (resolved_moves _ _ _ _ _ H1 H2) as ((L & _) & _).
  unfold Coordinator.update_body.
  unfold bind at 1. rewrite H1.
  unfold bind at 1. rewrite H2.
  unfold bind at 1. unfold gets at 1. rewrite L.
  destruct (Coordinator.differs (d_id s) (last_song_id w)).
  - unfold bind at 1.
    destruct (Coordinator.on_song_changed env s md w2) as [[s'|e] w']; reflexivity.
  - reflexivity.
Qed.

Lemma same_song_tick w md w1 s w2 :
  NPOClient.get_current_metadata env w = (Ok (Some md), w1) ->
  DatabaseManager.match_song env (md_artist md) (md_title md) w1
    = (Ok (Some s), w2) ->
  last_song_id w = Some (d_id s) ->
  Coordinator._async_update_data env w = (Ok (unchanged_result s md), w2) /\
  moves true is_upstream w w2.
Proof.
  intros H1 H2 L. split; [|eapply resolved_moves; eauto].
  unfold Coordinator._async_update_data, try_except.
  rewrite (update_body_resolved _ _ _ _ _ H1 H2).
  apply differs_false_iff in L. now rewrite L.
Qed.
End Tick.

(** C2: a tick whose acquisition and matching succeed and whose resolved
    song has the tracked id is a no-op: it returns the song with
    [song_changed = false], leaves [_last_song_id], the published data and
    storage (the playback state with it) as they were, and makes no call
    other than requests to the metadata sources: no cover-art lookup or
    write, no playback-state write, no notification. *)
Theorem same_song_tick_is_noop
  (env : environment) (w w1 w2 : world) (md : metadata) (s : song) :
  NPOClient.get_current_metadata env w = (Ok (Some md), w1) ->
  DatabaseManager.match_song env (md_artist md) (md_title md) w1
    = (Ok (Some s), w2) ->
  last_song_id w = Some (d_id s) ->
  Coordinator._async_update_data env w
    = (Ok {| current_song := Some s; song_changed := false;
             error := None; npo_metadata := Some md |}, w2) /\
  last_song_id w2 = last_song_id w /\
  data w2 = data w /\
  db w2 = db w /\
  exists new,
    trace w2 = trace w ++ new /\
    Forall (fun e => is_side_effect e = false) new.
Proof.
  intros H1 H2 L.
  destruct (same_song_tick env _ _ _ _ _ H1 H2 L)
    as (T & (A & B & _) & D & (new & E & F)).
  repeat split; auto. exists new. split; [exact E|].
  eapply Forall_impl; [|exact F]. intros [] U; simpl in *; tauto.
Qed.

Lemma preserved_weaken {A} (R R' : world -> world -> Prop) (m : M A) :
  (forall w w', R w w' -> R' w w') -> preserved R m -> preserved R' m.
Proof. intros I H w r w' E. apply I. eapply H; eauto. Qed.

Section Transition.
Variable env : environment.

Lemma on_song_changed_unfold s md w :
  Coordinator.on_song_changed env s md w =
  side_effects env s md (set_last_song_id (d_id s) w).
Proof. reflexivity. Qed.

Lemma preserved_side_effects s md :
  preserved (moves false any_event) (side_effects env s md).
Proof.
  unfold side_effects.
  apply preserved_bind; [apply moves_trans| |intros s1].
  { eapply preserved_weaken; [|apply preserved_fetch_and_cache_cover_art].
    intros ? ?. now apply moves_weaken. }
  apply preserved_bind; [apply moves_trans| |intros _].
  { eapply preserved_weaken; [|apply preserved_update_playlist_state].
    intros ? ?. now apply moves_weaken. }
  apply preserved_bind; [apply moves_trans| |intros _].
  { eapply preserved_weaken; [|apply preserved_check_and_send].
    intros ? ?. now apply moves_weaken. }
  apply preserved_bind; [apply moves_trans| |intros _; frame].
  eapply preserved_weaken; [|apply preserved_check_upcoming].
  intros ? ?. now apply moves_weaken.
Qed.

(** Once the song is seen to have changed it is the tracked song,
    whatever the steps after it do. *)
Lemma on_song_changed_tracks s md w r w' :
  Coordinator.on_song_changed env s md w = (r, w') ->
  last_song_id w' = Some (d_id s) /\ data w' = data w.
Proof.
  rewrite on_song_changed_unfold. intros H.
  destruct (preserved_side_effects _ _ _ _ _ H) as ((L & D & _) & _).
  simpl in L, D. auto.
Qed.

Lemma differs_true i last :
  last <> Some i -> Coordinator.differs i last = true.
Proof.
  intros N. destruct (Coordinator.differs i last) eqn:E; [reflexivity|].
  apply differs_false_iff in E. contradiction.
Qed.

Lemma transition_tick w md w1 s w2 :
  NPOClient.get_current_metadata env w = (Ok (Some md), w1) ->
  DatabaseManager.match_song env (md_artist md) (md_title md) w1
    = (Ok (Some s), w2) ->
  last_song_id w <> Some (d_id s) ->
  Coordinator._async_update_data env w =
  match side_effects env s md (set_last_song_id (d_id s) w2) with
  | (Ok s', w') => (Ok (changed_result s' md), w')
  | (Raise _, w') => (Raise UpdateFailed, w')
  end.
Proof.
  intros H1 H2 N.
  unfold Coordinator._async_update_data, try_except.
  rewrite (update_body_resolved _ _ _ _ _ _ H1 H2), (differs_true _ _ N).
  rewrite on_song_changed_unfold.
  destruct (side_effects env s md (set_last_song_id (d_id s) w2)) as [[s'|e] w'];
    reflexivity.
Qed.
End Transition.

(** C10: in a transition tick [_last_song_id] is set before any side
    effect runs.  When a side effect raises, the tick raises
    [UpdateFailed] and the new song is already the tracked one; every
    later tick that resolves the same id, from any world with that tracked
    id, returns [song_changed = false], leaves storage as it is and makes
    no cover-art, playback-state or notification call: the skipped side
    effects are not retried. *)
Theorem failed_transition_is_not_retried
  (env : environment) (w w1 w2 w' : world) (md : metadata) (s : song)
  (e : exn) :
  NPOClient.get_current_metadata env w = (Ok (Some md), w1) ->
  DatabaseManager.match_song env (md_artist md) (md_title md) w1
    = (Ok (Some s), w2) ->
  last_song_id w <> Some (d_id s) ->
  Coordinator._async_update_data env w = (Raise e, w') ->
  e = UpdateFailed /\
  last_song_id w' = Some (d_id s) /\
  forall (env2 : environment) (v v1 v2 : world) (md2 : metadata) (s2 : song),
    last_song_id v = last_song_id w' ->
    NPOClient.get_current_metadata env2 v = (Ok (Some md2), v1) ->
    DatabaseManager.match_song env2 (md_artist md2) (md_title md2) v1
      = (Ok (Some s2), v2) ->
    d_id s2 = d_id s ->
    Coordinator._async_update_data env2 v
      = (Ok {| current_song := Some s2; song_changed := false;
               error := None; npo_metadata := Some md2 |}, v2) /\
    db v2 = db v /\
    exists new,
      trace v2 = trace v ++ new /\
      Forall (fun ev => is_side_effect ev = false) new.
Proof.
  intros H1 H2 N T.
  rewrite (transition_tick env _ _ _ _ _ H1 H2 N) in T.
  destruct (side_effects env s md (set_last_song_id (d_id s) w2))
    as [[s'|e'] w''] eqn:S; [discriminate|].
  inversion T; subst. clear T.
  destruct (preserved_side_effects _ _ _ _ _ _ S) as ((L & _) & _).
  simpl in L. split; [reflexivity|]. split; [exact L|].
  intros env2 v v1 v2 md2 s2 Lv A2 M2 I2.
  rewrite L, <- I2 in Lv.
  destruct (same_song_tick env2 _ _ _ _ _ A2 M2 Lv)
    as (R & _ & D & (new & E & F)).
  split; [exact R|]. split; [now apply D|].
  exists new. split; [exact E|].
  eapply Forall_impl; [|exact F]. intros [] U; simpl in *; tauto.
Qed.

Lemma update_playlist_state_trace env position song_id md w r w' :
  DatabaseManager.update_playlist_state env position song_id md w = (r, w') ->
  trace w' = trace w ++ [PlaylistStateWrite position song_id md].
Proof.
  unfold DatabaseManager.update_playlist_state, bind, emit, modify, io, now.
  simpl. destruct (io_fault env (calls w)); intros H; inversion H; reflexivity.
Qed.

Lemma ordered_within_app lo k1 k2 hi l1 l2 :
  (lo <= k1 <= k2)%nat -> (k2 <= hi)%nat ->
  ordered_within lo k1 l1 -> ordered_within k2 hi l2 ->
  ordered_within lo hi (l1 ++ l2).
Proof.
  intros B1 B2 [S1 F1] [S2 F2]. unfold ordered_within, in_step_order in *. split.
  - induction l1 as [|x l1 IH]; simpl; [exact S2|].
    inversion S1 as [|? ? Sl Fl]; inversion F1 as [|? ? Bx Bl]; subst.
    constructor; [now apply IH|].
    apply Forall_app. split; [exact Fl|].
    eapply Forall_impl; [|exact F2]. intros y By. simpl in By. lia.
  - apply Forall_app. split.
    + eapply Forall_impl; [|exact F1]. intros x Bx. simpl in Bx. lia.
    + eapply Forall_impl; [|exact F2]. intros y By. simpl in By. lia.
Qed.

Lemma ordered_within_weaken lo hi lo' hi' l :
  (lo' <= lo)%nat -> (hi <= hi')%nat ->
  ordered_within lo hi l -> ordered_within lo' hi' l.
Proof.
  intros B1 B2 [A B]. split; [exact A|].
  eapply Forall_impl; [|exact B]. simpl. intros; lia.
Qed.

Lemma ordered_within_one_step (P : event -> Prop) (k : nat) (l : list event) :
  (forall e, P e -> step_of e = k) -> Forall P l -> ordered_within k k l.
Proof.
  intros C F. unfold ordered_within, in_step_order.
  induction F as [|x l Px F [IS IF]]; [split; constructor|].
  pose proof (C x Px) as Ex. split.
  - constructor; [exact IS|].
    eapply Forall_impl; [|exact IF]. intros y By. simpl in By. lia.
  - constructor; [lia|exact IF].
Qed.

Lemma step_of_upstream e : is_upstream e -> step_of e = 0%nat.
Proof. destruct e; simpl; tauto. Qed.

Lemma step_of_cover_art e : is_cover_art e -> step_of e = 1%nat.
Proof. destruct e; simpl; tauto. Qed.

Lemma step_of_current e : is_dispatch true e -> step_of e = 3%nat.
Proof. destruct e; simpl; try tauto. now intros ->. Qed.

Lemma step_of_upcoming e : is_dispatch false e -> step_of e = 4%nat.
Proof. destruct e; simpl; try tauto. now intros ->. Qed.

(** The calls of the four steps come step by step, whichever step ends
    the sequence. *)
Lemma side_effects_in_step_order env s md v r v' :
  side_effects env s md v = (r, v') ->
  exists new, trace v' = trace v ++ new /\ ordered_within 1 4 new.
Proof.
  unfold side_effects. unfold bind at 1.
  destruct (Coordinator._fetch_and_cache_cover_art env s (md_cover_art_url md) v)
    as [[s1|e1] a] eqn:S1.
  all: destruct (preserved_fetch_and_cache_cover_art _ _ _ _ _ _ S1)
    as (_ & _ & (n1 & T1 & F1)).
  all: pose proof (ordered_within_one_step _ 1 _ step_of_cover_art F1) as O1.
  2:{ intros H. inversion H; subst. exists n1. split; [exact T1|].
      apply (ordered_within_weaken 1 1); [lia|lia|exact O1]. }
  unfold bind at 1.
  destruct (DatabaseManager.update_playlist_state env
              (d_position s1) (d_id s1) md a) as [[[]|e2] b] eqn:S2.
  all: pose proof (update_playlist_state_trace _ _ _ _ _ _ _ S2) as T2.
  all: assert (O2 : ordered_within 2 2
                      [PlaylistStateWrite (d_position s1) (d_id s1) md])
    by (apply (ordered_within_one_step is_state_write);
        [intros []; simpl; tauto|repeat constructor]).
  2:{ intros H. inversion H; subst. eexists. split.
      - rewrite T2, T1, <- app_assoc. reflexivity.
      - apply (ordered_within_app 1 1 2 4); [lia|lia|exact O1|].
        apply (ordered_within_weaken 2 2); [lia|lia|exact O2]. }
  unfold bind at 1.
  destruct (Coordinator._check_and_send_notifications env s1 true b)
    as [[[]|e3] c] eqn:S3.
  all: destruct (preserved_check_and_send _ _ _ _ _ _ S3)
    as (_ & _ & (n3 & T3 & F3)).
  all: pose proof (ordered_within_one_step _ 3 _ step_of_current F3) as O3.
  2:{ intros H. inversion H; subst. eexists. split.
      - rewrite T3, T2, T1, <- !app_assoc. reflexivity.
      - apply (ordered_within_app 1 1 2 4); [lia|lia|exact O1|].
        apply (ordered_within_app 2 2 3 4); [lia|lia|exact O2|].
        apply (ordered_within_weaken 3 3); [lia|lia|exact O3]. }
  unfold bind at 1.
  destruct (Coordinator.async_check_upcoming_notifications env c)
    as [[[]|e4] d] eqn:S4.
  all: destruct (preserved_check_upcoming _ _ _ _ S4)
    as (_ & _ & (n4 & T4 & F4)).
  all: pose proof (ordered_within_one_step _ 4 _ step_of_upcoming F4) as O4.
  all: intros H; inversion H; subst; eexists; split;
    [rewrite T4, T3, T2, T1, <- !app_assoc; reflexivity|].
  all: apply (ordered_within_app 1 1 2 4); [lia|lia|exact O1|].
  all: apply (ordered_within_app 2 2 3 4); [lia|lia|exact O2|].
  all: apply (ordered_within_app 3 3 4 4); [lia|lia|exact O3|exact O4].
Qed.

(** C1, amended: in a transition tick the side effects run in the fixed
    order cover art, playback state, notification of the current song,
    upcoming window, and each step runs only if every step before it
    returned: a step that raises ends the tick with [UpdateFailed], in the
    world that step left (earlier steps are not undone, later steps are not
    run).  The calls made by the tick come step by step; the cover-art
    step makes only cover-art calls, the playback-state step exactly one
    write, the two notification steps only service calls with [is_current]
    true, respectively false. *)
Theorem transition_steps_in_order_until_one_raises
  (env : environment) (w w1 w2 : world) (md : metadata) (s : song) :
  NPOClient.get_current_metadata env w = (Ok (Some md), w1) ->
  DatabaseManager.match_song env (md_artist md) (md_title md) w1
    = (Ok (Some s), w2) ->
  last_song_id w <> Some (d_id s) ->
  (forall r w',
      Coordinator._async_update_data env w = (r, w') ->
      (r = Raise UpdateFailed \/
       exists s', r = Ok {| current_song := Some s'; song_changed := true;
                            error := None; npo_metadata := Some md |}) /\
      exists new, trace w' = trace w ++ new /\ in_step_order new) /\
  forall r1 a,
    Coordinator._fetch_and_cache_cover_art env s (md_cover_art_url md)
      (set_last_song_id (d_id s) w2) = (r1, a) ->
    moves false is_cover_art (set_last_song_id (d_id s) w2) a /\
    match r1 with
    | Raise _ => Coordinator._async_update_data env w = (Raise UpdateFailed, a)
    | Ok s1 =>
      forall r2 b,
        DatabaseManager.update_playlist_state env (d_position s1) (d_id s1) md a
          = (r2, b) ->
        trace b = trace a ++ [PlaylistStateWrite (d_position s1) (d_id s1) md] /\
        match r2 with
        | Raise _ =>
            Coordinator._async_update_data env w = (Raise UpdateFailed, b)
        | Ok _ =>
          forall r3 c,
            Coordinator._check_and_send_notifications env s1 true b = (r3, c) ->
            moves true (is_dispatch true) b c /\
            match r3 with
            | Raise _ =>
                Coordinator._async_update_data env w = (Raise UpdateFailed, c)
            | Ok _ =>
              forall r4 d,
                Coordinator.async_check_upcoming_notifications env c = (r4, d) ->
                moves true (is_dispatch false) c d /\
                Coordinator._async_update_data env w =
                (match r4 with
                 | Ok _ => Ok {| current_song := Some s1; song_changed := true;
                                 error := None; npo_metadata := Some md |}
                 | Raise _ => Raise UpdateFailed
                 end, d)
            end
        end
    end.
Proof.
  intros H1 H2 N.
  pose proof (transition_tick env _ _ _ _ _ H1 H2 N) as T.
  split.
  - intros r w' R. rewrite T in R.
    destruct (side_effects env s md (set_last_song_id (d_id s) w2))
      as [o v'] eqn:S.
    destruct (side_effects_in_step_order _ _ _ _ _ _ S) as (n & Tn & On).
    destruct (resolved_moves env _ _ _ _ _ H1 H2) as (_ & _ & (n0 & T0 & F0)).
    simpl in Tn.
    assert (Tr : trace v' = trace w ++ n0 ++ n)
      by (rewrite Tn, T0, <- app_assoc; reflexivity).
    assert (Or : in_step_order (n0 ++ n)).
    { apply (ordered_within_app 0 0 1 4 n0 n); [lia|lia| |exact On].
      exact (ordered_within_one_step _ 0 _ step_of_upstream F0). }
    destruct o as [s'|e]; inversion R; subst.
    + split; [right; eexists; reflexivity|]. eauto.
    + split; [now left|]. eauto.
  - intros r1 a S1.
    split; [eapply preserved_fetch_and_cache_cover_art; eauto|].
    unfold side_effects in T. unfold bind at 1 in T. rewrite S1 in T.
    destruct r1 as [s1|e1]; [|exact T].
    intros r2 b S2.
    split; [eapply update_playlist_state_trace; eauto|].
    unfold bind at 1 in T. rewrite S2 in T.
    destruct r2 as [[]|e2]; [|exact T].
    intros r3 c S3.
    split; [eapply preserved_check_and_send; eauto|].
    unfold bind at 1 in T. rewrite S3 in T.
    destruct r3 as [[]|e3]; [|exact T].
    intros r4 d S4.
    split; [eapply preserved_check_upcoming; eauto|].
    unfold bind at 1 in T. rewrite S4 in T.
    destruct r4 as [[]|e4]; exact T.
Qed.

Lemma same_song_tick_is_noop_witness :
  exists s w2,
    Coordinator._async_update_data Samples.calm Samples.playing
      = (Ok {| current_song := Some s;
               song_changed := false; error := None;
               npo_metadata := Some Samples.on_air |}, w2) /\
    d_id s = 2 /\
    db w2 = db Samples.playing /\
    trace w2 = trace Samples.playing.
Proof.
  edestruct (same_song_tick_is_noop Samples.calm Samples.playing)
    as (T & _ & _ & D & (new & E & F)).
  - vm_compute. reflexivity.
  - vm_compute. reflexivity.
  - vm_compute. reflexivity.
  - do 2 eexists. split; [exact T|]. split; [reflexivity|].
    split; [exact D|]. vm_compute. reflexivity.
Defined.

Lemma failed_transition_is_not_retried_witness :
  exists w',
    Coordinator._async_update_data Samples.state_write_fails Samples.fresh
      = (Raise UpdateFailed, w') /\
    last_song_id w' = Some 2 /\
    playlist_state (db w') = None.
Proof.
  edestruct (failed_transition_is_not_retried Samples.state_write_fails Samples.fresh)
    as (_ & L & _).
  - vm_compute. reflexivity.
  - vm_compute. reflexivity.
  - vm_compute. discriminate.
  - vm_compute. reflexivity.
  - eexists. split; [vm_compute; reflexivity|]. split; [exact L|reflexivity].
Defined.

Lemma transition_steps_in_order_until_one_raises_witness :
  exists a,
    Coordinator._async_update_data Samples.cover_art_write_fails Samples.fresh
      = (Raise UpdateFailed, a) /\
    trace a = [ Upstream Website; Upstream Icecast;
                CoverLookup "Eagles" "Hotel California";
                CoverArtWrite 2 "https://coverart.example/front-500.jpg"
                              (Some "mbid-1") ].
Proof.
  edestruct (transition_steps_in_order_until_one_raises
               Samples.cover_art_write_fails Samples.fresh) as [_ H].
  - vm_compute. reflexivity.
  - vm_compute. reflexivity.
  - vm_compute. discriminate.
  - edestruct H as [_ R]; [vm_compute; reflexivity|].
    eexists. split; [exact R|reflexivity].
Defined.

(** C1, as stated, fails: were every step attempted whatever the earlier
    steps do, every transition tick would attempt the playback-state
    write.  When the cover-art write raises, the tick ends there: no
    playback-state write and no notification is attempted. *)
Lemma cover_art_failure_skips_later_steps :
  ~ (forall (env : environment) (w w1 w2 w' : world) (md : metadata)
            (s : song) (r : outcome tick_data),
        NPOClient.get_current_metadata env w = (Ok (Some md), w1) ->
        DatabaseManager.match_song env (md_artist md) (md_title md) w1
          = (Ok (Some s), w2) ->
        last_song_id w <> Some (d_id s) ->
        Coordinator._async_update_data env w = (r, w') ->
        exists position song_id,
          In (PlaylistStateWrite position song_id md) (trace w')).
Proof.
  intros H.
  edestruct (H Samples.cover_art_write_fails Samples.fresh) as (p & i & I).
  - vm_compute. reflexivity.
  - vm_compute. reflexivity.
  - vm_compute. discriminate.
  - vm_compute. reflexivity.
  - vm_compute in I. intuition discriminate.
Qed.

(** The upcoming-window step of a transition reads [self.data], which the
    tick does not assign: it still is what the tick before returned.  With
    nothing in it the step does nothing. *)
Lemma upcoming_check_without_published_song (env : environment) (w : world) :
  Coordinator.published_song w = None ->
  Coordinator.async_check_upcoming_notifications env w = (Ok tt, w).
Proof.
  intros P. unfold Coordinator.async_check_upcoming_notifications, bind, gets.
  now rewrite P.
Qed.

(** C8, the scenario of the specification run through the tick: upcoming
    notifications are enabled with the offsets 1, 2, 3, an enabled artist
    rule matches Queen, the entry at position 499, and the tick resolves
    the song at position 500, so that the window of position 500 holds
    Queen.  The tick notifies about the current song only: no notification
    with [is_current = false] is sent, because the window is computed from
    [self.data], which holds no song while the first tick runs. *)
Theorem first_transition_sends_no_upcoming_notification :
  let settings := get_notification_settings_q Samples.catalog in
  let rules := get_notification_rules_q Samples.catalog true in
  notify_upcoming_song settings = true /\
  upcoming_notify_positions settings = [1; 2; 3] /\
  (exists queen,
      get_song_by_position_q Samples.catalog 499 = Some queen /\
      d_artist queen = "Queen" /\
      Coordinator.matches_rules rules queen = true /\
      upcoming_window Samples.catalog 500 [1; 2; 3] = [queen]) /\
  exists d s w',
    Coordinator._async_update_data Samples.calm Samples.fresh = (Ok d, w') /\
    song_changed d = true /\
    current_song d = Some s /\
    d_position s = 500 /\
    get_notification_settings_q (db w') = settings /\
    get_notification_rules_q (db w') true = rules /\
    Exists (is_dispatch true) (trace w') /\
    Forall (fun e => ~ is_dispatch false e) (trace w').
Proof.
  split; [reflexivity|]. split; [reflexivity|]. split.
  - eexists. repeat split; vm_compute; reflexivity.
  - destruct (Coordinator._async_update_data Samples.calm Samples.fresh)
      as [r w'] eqn:T.
    vm_compute in T. injection T as <- <-.
    do 3 eexists. split; [reflexivity|].
    repeat (split; [reflexivity|]). split.
    + do 5 apply Exists_cons_tl. apply Exists_cons_hd. reflexivity.
    + repeat (apply Forall_cons; [simpl; try tauto; discriminate|]).
      apply Forall_nil.
Qed.

(** A song whose cover art was cached more than 24 hours ago, announced
    without a cover-art URL: the expired stamp reaches [get_cover_art],
    whose subtraction raises, and the tick fails before the playback state
    is written. *)
Example expired_cover_art_stamp_fails_the_tick :
  let (r, w') := Coordinator._async_update_data Samples.calm_queen Samples.fresh in
  r = Raise UpdateFailed /\
  last_song_id w' = Some 1 /\
  trace w' = [Upstream Website; Upstream Icecast].
Proof. vm_compute. repeat split; reflexivity. Qed.

(** On a later transition the window is taken from the song the tick
    before returned: with the Eagles (500) in [self.data] and the live
    "Radar Love" (498) now resolved, the positions checked are 499, 498 and
    497, and Queen (499) is announced as upcoming. *)
Example upcoming_window_is_taken_from_the_published_song :
  let (r, w') :=
    Coordinator._async_update_data Samples.calm_radar Samples.playing in
  (exists d s, r = Ok d /\ current_song d = Some s /\ d_position s = 498) /\
  map (fun e => match e with
                | ServiceCall _ _ p =>
                    (msg_upcoming (payload_message p),
                     msg_position (payload_message p))
                | _ => (false, 0)
                end)
      (filter (fun e => match e with ServiceCall _ _ _ => true | _ => false end)
              (skipn (length (trace Samples.playing)) (trace w')))
  = [(true, 499); (true, 499)].
Proof.
  vm_compute. split; [do 2 eexists; repeat split; reflexivity|reflexivity].
Qed.

(** The failure of a service call is caught per target: the tick returns
    and the other target is still called. *)
Example service_failure_is_caught_per_target :
  let (r, w') := Coordinator._async_update_data Samples.first_target_fails Samples.fresh in
  (exists d, r = Ok d /\ song_changed d = true) /\
  length (filter (fun e => match e with ServiceCall _ _ _ => true | _ => false end)
                 (trace w')) = 2%nat.
Proof. vm_compute. split; [eexists; split; reflexivity|reflexivity]. Qed.

End TickFacts.

(* ------------------------------------------------------------------ *)
(** ** Ordering and limits, in general *)

Module OrderFacts.

Section OrderBy.
Context {A : Type}.
Variable le : A -> A -> bool.
Hypothesis le_total : forall a b, le a b = false -> le b a = true.
Hypothesis le_trans :
  forall a b c, le a b = true -> le b c = true -> le a c = true.

Lemma insert_by_permutation x l : Permutation (Sql.insert_by le x l) (x :: l).
Proof.
  induction l as [|y r IH]; simpl.
  - apply Permutation_refl.
  - destruct (le x y).
    + apply Permutation_refl.
    + eapply Permutation_trans; [apply perm_skip, IH | apply perm_swap].
Qed.

Lemma order_by_permutation l : Permutation (Sql.order_by le l) l.
Proof.
  induction l as [|x r IH]; simpl.
  - apply Permutation_refl.
  - eapply Permutation_trans; [apply insert_by_permutation|].
    apply perm_skip, IH.
Qed.

Lemma insert_by_ascending x l :
  StronglySorted (fun a b => le a b = true) l ->
  StronglySorted (fun a b => le a b = true) (Sql.insert_by le x l).
Proof.
  induction 1 as [|y r Hs IH Hy]; simpl.
  - repeat constructor.
  - destruct (le x y) eqn:E.
    + constructor; [constructor; assumption|].
      constructor; [assumption|].
      eapply Forall_impl; [|exact Hy].
      intros a Ha. eapply le_trans; eassumption.
    + constructor; [assumption|].
      eapply Permutation_Forall;
        [apply Permutation_sym, insert_by_permutation|].
      constructor; [apply le_total; assumption | assumption].
Qed.

Lemma order_by_ascending l :
  StronglySorted (fun a b => le a b = true) (Sql.order_by le l).
Proof.
  induction l as [|x r IH]; simpl.
  - constructor.
  - apply insert_by_ascending, IH.
Qed.
End OrderBy.

Lemma sorted_app_between {A} (R : A -> A -> Prop) (l1 l2 : list A) :
  StronglySorted R (l1 ++ l2) ->
  forall x y, In x l1 -> In y l2 -> R x y.
Proof.
  induction l1 as [|a l1 IH]; simpl; intros S x y Hx Hy.
  - contradiction.
  - inversion S as [|? ? S' F]; subst.
    destruct Hx as [<-|Hx].
    + rewrite Forall_forall in F. apply F, in_or_app. now right.
    + now apply IH.
Qed.

(** What [LIMIT] keeps of a sorted list: all of it, or its first [n] rows,
    every row left out coming after every row kept. *)
Lemma limit_keeps_the_first {A} (R : A -> A -> Prop) (n : Z) (l : list A) :
  StronglySorted R l ->
  forall y, In y l ->
    In y (Sql.limit n l) \/
    (Z.of_nat (length (Sql.limit n l)) = n /\
     Forall (fun x => R x y) (Sql.limit n l)).
Proof.
  intros S y Hy. unfold Sql.limit.
  destruct (n <? 0) eqn:E; [now left|].
  apply Z.ltb_ge in E.
  rewrite <- (firstn_skipn (Z.to_nat n) l) in Hy, S.
  apply in_app_or in Hy. destruct Hy as [Hy|Hy]; [now left|right].
  split.
  - assert (Z.to_nat n < length l)%nat as Hlt.
    { destruct (Nat.lt_ge_cases (Z.to_nat n) (length l)) as [H|H]; [exact H|].
      rewrite skipn_all2 in Hy by exact H. contradiction. }
    rewrite length_firstn. lia.
  - apply Forall_forall. intros x Hx.
    eapply sorted_app_between; eassumption.
Qed.

Lemma limit_incl {A} (n : Z) (l : list A) x : In x (Sql.limit n l) -> In x l.
Proof.
  unfold Sql.limit. destruct (n <? 0); [auto|].
  intros H. rewrite <- (firstn_skipn (Z.to_nat n) l).
  apply in_or_app. now left.
Qed.

Lemma limit_all {A} (n : Z) (l : list A) :
  Z.of_nat (length l) <= n -> Sql.limit n l = l.
Proof.
  intros H. unfold Sql.limit. destruct (n <? 0) eqn:E; [reflexivity|].
  apply firstn_all2. lia.
Qed.

Lemma StronglySorted_weaken {A} (R R' : A -> A -> Prop) (l : list A) :
  (forall a b, R a b -> R' a b) ->
  StronglySorted R l -> StronglySorted R' l.
Proof.
  intros H. induction 1 as [|a l S IH F]; constructor; [exact IH|].
  eapply Forall_impl; [|exact F]. intros b. apply H.
Qed.

End OrderFacts.

(* ------------------------------------------------------------------ *)
(** ** Position history *)

Module HistoryFacts.
Import Database Spec Terms FrameFacts SqlFacts StorageFacts OrderFacts.

(** The key of [UNIQUE(song_id, year)]. *)
Local Abbreviation history_key := (fun h => (ph_song_id h, ph_year h)).

Local Abbreviation of_song :=
  (fun song_id h => ((ph_song_id h =? song_id) && (ph_year h <? 2025))%bool).

Lemma of_song_iff song_id h :
  of_song song_id h = true <-> ph_song_id h = song_id /\ ph_year h < 2025.
Proof.
  rewrite andb_true_iff, Z.eqb_eq, Z.ltb_lt. tauto.
Qed.

Lemma years_of_one_song_distinct song_id (l : list history_row) :
  NoDup (map history_key l) ->
  NoDup (map ph_year (filter (of_song song_id) l)).
Proof.
  induction l as [|h l IH]; simpl; intros N.
  - constructor.
  - inversion N as [|? ? Hn N']; subst.
    destruct (of_song song_id h) eqn:E; [|now apply IH].
    simpl. constructor; [|now apply IH].
    intros Hin. apply Hn.
    apply in_map_iff in Hin. destruct Hin as [g [Hy Hg]].
    apply filter_In in Hg. destruct Hg as [Hg Eg].
    apply of_song_iff in E, Eg.
    apply in_map_iff. exists g. split; [|exact Hg].
    f_equal; [lia|exact Hy].
Qed.

Lemma get_position_history_q_rows d song_id limit :
  get_position_history_q d song_id limit
  = map (fun h => (ph_year h, ph_position h)) (history_rows d song_id limit).
Proof. reflexivity. Qed.

Lemma history_rows_spec (d : database) (song_id limit : Z) :
  let rows := history_rows d song_id limit in
  Forall (fun h => In h (position_history d) /\
                   ph_song_id h = song_id /\ ph_year h < 2025) rows /\
  StronglySorted (fun a b => ph_year b <= ph_year a) rows /\
  (NoDup (map history_key (position_history d)) ->
   StronglySorted (fun a b => ph_year b < ph_year a) rows) /\
  (0 <= limit -> Z.of_nat (length rows) <= limit) /\
  (forall h,
      In h (position_history d) -> ph_song_id h = song_id ->
      ph_year h < 2025 ->
      In h rows \/
      (Z.of_nat (length rows) = limit /\
       Forall (fun x => ph_year h <= ph_year x) rows)).
Proof.
  unfold history_rows.
  set (F := filter (of_song song_id) (position_history d)).
  set (S := Sql.order_by (fun a b => ph_year b <=? ph_year a) F).
  assert (Permutation S F) as P by apply (order_by_perm ph_year).
  assert (StronglySorted (fun a b => ph_year b <= ph_year a) S) as Sd
    by apply (order_by_sorted ph_year).
  simpl. repeat split.
  - apply limit_Forall.
    eapply Permutation_Forall; [apply Permutation_sym, P|].
    apply Forall_forall. intros h Hh. apply filter_In in Hh.
    destruct Hh as [Hh E]. apply of_song_iff in E. tauto.
  - apply limit_sorted, Sd.
  - intros N. apply limit_sorted.
    apply (sorted_strict ph_year); [|exact Sd].
    eapply Permutation_NoDup;
      [apply Permutation_sym, Permutation_map, P|].
    now apply years_of_one_song_distinct.
  - apply limit_length.
  - intros h Hh Hs Hy.
    assert (In h S) as HS.
    { eapply Permutation_in; [apply Permutation_sym, P|].
      apply filter_In. split; [exact Hh|]. now apply of_song_iff. }
    destruct (limit_keeps_the_first _ limit S Sd h HS) as [H|[H1 H2]];
      [now left|right].
    split; [exact H1|exact H2].
Qed.

Lemma filter_filter_implied {A} (f g : A -> bool) (l : list A) :
  (forall x, f x = true -> g x = true) ->
  filter f (filter g l) = filter f l.
Proof.
  intros H. induction l as [|x l IH]; simpl; [reflexivity|].
  destruct (g x) eqn:G; simpl.
  - now rewrite IH.
  - destruct (f x) eqn:F; [|exact IH].
    apply H in F. congruence.
Qed.

Lemma NoDup_map_filter_any {A B} (key : A -> B) (f : A -> bool) (l : list A) :
  NoDup (map key l) -> NoDup (map key (filter f l)).
Proof.
  induction l as [|x l IH]; simpl; intros N; [constructor|].
  inversion N as [|? ? Hn N']; subst.
  destruct (f x); [|now apply IH].
  simpl. constructor; [|now apply IH].
  intros Hin. apply Hn.
  apply in_map_iff in Hin. destruct Hin as [y [Hy Hin]].
  apply filter_In in Hin. apply in_map_iff. exists y. tauto.
Qed.

Lemma NoDup_snoc {A} (l : list A) (x : A) :
  NoDup l -> ~ In x l -> NoDup (l ++ [x]).
Proof.
  intros N Hx. induction N as [|y l Hy N IH]; simpl.
  - constructor; [auto|constructor].
  - constructor.
    + intros H. apply in_app_or in H. destruct H as [H|[H|[]]].
      * contradiction.
      * subst. apply Hx. now left.
    + apply IH. intros H. apply Hx. now right.
Qed.

Local Abbreviation other_year :=
  (fun song_id year h =>
     negb ((ph_song_id h =? song_id) && (ph_year h =? year))%bool).

Lemma other_year_iff song_id year h :
  other_year song_id year h = true <->
  ~ (ph_song_id h = song_id /\ ph_year h = year).
Proof.
  rewrite negb_true_iff, andb_false_iff, !Z.eqb_neq. lia.
Qed.

Lemma add_position_history_ok env song_id year position w w1 :
  Store.add_position_history env song_id year position w = (Ok tt, w1) ->
  w1 = set_db (Store.add_position_history_q (db w) song_id year position)
              (bump w).
Proof.
  unfold Store.add_position_history, bind, io, modify.
  destruct (io_fault env (calls w)); intros H; inversion H. reflexivity.
Qed.

Lemma history_of_another_song d song_id year position other limit :
  other <> song_id \/ 2025 <= year ->
  get_position_history_q
    (Store.add_position_history_q d song_id year position) other limit
  = get_position_history_q d other limit.
Proof.
  intros H. unfold get_position_history_q. simpl.
  rewrite filter_app, filter_filter_implied.
  - simpl.
    replace ((song_id =? other) && (year <? 2025))%bool with false.
    + now rewrite app_nil_r.
    + symmetry. apply andb_false_iff. rewrite Z.eqb_neq, Z.ltb_ge.
      destruct H; [left; congruence | now right].
  - intros x Hx. apply of_song_iff in Hx. apply other_year_iff. lia.
Qed.

(** X1.  [get_position_history] returns when storage answers, and changes
    nothing.  What it returns are entries of the song for years before
    2025, each backed by a row of [position_history], newest year first
    (no year twice when the table honours [UNIQUE(song_id, year)]), at most
    [limit] of them for a [limit] that is not negative, and they are the
    most recent ones: an entry of the song before 2025 is left out only
    when [limit] entries are listed, all of them at least as recent. *)
Theorem position_history_lists_most_recent_earlier_years
  (env : environment) (w : world) (song_id limit : Z) :
  (reliable env ->
   exists r,
     DatabaseManager.get_position_history env song_id limit w
       = (Ok r, bump w)) /\
  forall r w',
    DatabaseManager.get_position_history env song_id limit w = (Ok r, w') ->
    db w' = db w /\ trace w' = trace w /\
    Forall (fun e =>
              fst e < 2025 /\
              In {| ph_song_id := song_id; ph_year := fst e;
                    ph_position := snd e |}
                 (position_history (db w))) r /\
    StronglySorted (fun a b => fst b <= fst a) r /\
    (NoDup (map (fun h => (ph_song_id h, ph_year h))
                (position_history (db w))) ->
     StronglySorted (fun a b => fst b < fst a) r) /\
    (0 <= limit -> Z.of_nat (length r) <= limit) /\
    (forall h,
        In h (position_history (db w)) -> ph_song_id h = song_id ->
        ph_year h < 2025 ->
        In (ph_year h, ph_position h) r \/
        (Z.of_nat (length r) = limit /\
         Forall (fun e => ph_year h <= fst e) r)).
Proof.
  split.
  - intros R. eexists. apply get_position_history_reliable, R.
  - intros r w' H. apply get_position_history_ok in H. destruct H as [-> ->].
    rewrite get_position_history_q_rows.
    destruct (history_rows_spec (db w) song_id limit)
      as (Hin & Hs & Hstrict & Hlen & Hall).
    split; [reflexivity|]. split; [reflexivity|].
    repeat split.
    + apply Forall_map. eapply Forall_impl; [|exact Hin].
      intros [s y p] (Hh & Hsid & Hy). simpl in *. subst s. tauto.
    + apply StronglySorted_map with (R := fun a b : Z * Z => fst b <= fst a).
      exact Hs.
    + intros N.
      apply StronglySorted_map with (R := fun a b : Z * Z => fst b < fst a).
      exact (Hstrict N).
    + rewrite length_map. exact Hlen.
    + intros h Hh Hsid Hy. rewrite length_map.
      destruct (Hall h Hh Hsid Hy) as [H|[H1 H2]].
      * left. apply in_map_iff. exists h. now split.
      * right. split; [exact H1|]. apply Forall_map. exact H2.
Qed.

Lemma position_history_lists_most_recent_earlier_years_witness :
  exists r,
    DatabaseManager.get_position_history Samples.calm 1 5 Samples.fresh
      = (Ok r, bump Samples.fresh) /\
    r = [(2024, 2)].
Proof.
  destruct (position_history_lists_most_recent_earlier_years
              Samples.calm Samples.fresh 1 5) as [H _].
  destruct H as [r Hr]; [intros k; reflexivity|].
  exists r. split; [exact Hr|].
  vm_compute in Hr. injection Hr as <-. reflexivity.
Defined.

(** X2.  [add_position_history] keeps one row per song and year: the row
    of that song and year, if any, gives way to the new one and every other
    row stays.  The histories of other songs read as before; the history
    of the song never shows an older position for that year, lists the new
    entry when the year is before 2025 (unless [limit] entries at least as
    recent are listed), and an entry for 2025 or later changes no history
    that is read. *)
Theorem add_position_history_replaces_the_year
  (env : environment) (w : world) (song_id year position : Z) :
  (reliable env ->
   exists w1,
     Store.add_position_history env song_id year position w = (Ok tt, w1)) /\
  forall w1,
    Store.add_position_history env song_id year position w = (Ok tt, w1) ->
    (forall h,
        In h (position_history (db w1)) <->
        h = {| ph_song_id := song_id; ph_year := year;
               ph_position := position |} \/
        (In h (position_history (db w)) /\
         ~ (ph_song_id h = song_id /\ ph_year h = year))) /\
    (NoDup (map (fun h => (ph_song_id h, ph_year h))
                (position_history (db w))) ->
     NoDup (map (fun h => (ph_song_id h, ph_year h))
                (position_history (db w1)))) /\
    songs (db w1) = songs (db w) /\
    fun_facts (db w1) = fun_facts (db w) /\
    (forall other limit,
        other <> song_id ->
        get_position_history_q (db w1) other limit
        = get_position_history_q (db w) other limit) /\
    (forall limit p',
        In (year, p') (get_position_history_q (db w1) song_id limit) ->
        p' = position) /\
    (forall limit,
        year < 2025 ->
        In (year, position) (get_position_history_q (db w1) song_id limit) \/
        (Z.of_nat (length (get_position_history_q (db w1) song_id limit))
         = limit /\
         Forall (fun e => year <= fst e)
                (get_position_history_q (db w1) song_id limit))) /\
    (2025 <= year ->
     forall any limit,
       get_position_history_q (db w1) any limit
       = get_position_history_q (db w) any limit).
Proof.
  split.
  - intros R. eexists. unfold Store.add_position_history, bind.
    rewrite (io_reliable env w R). reflexivity.
  - intros w1 H. apply add_position_history_ok in H. subst w1. simpl.
    assert (forall h,
      In h (filter (other_year song_id year) (position_history (db w)) ++
            [{| ph_song_id := song_id; ph_year := year;
                ph_position := position |}]) <->
      h = {| ph_song_id := song_id; ph_year := year;
             ph_position := position |} \/
      (In h (position_history (db w)) /\
       ~ (ph_song_id h = song_id /\ ph_year h = year))) as Hmem.
    { intros h. rewrite in_app_iff, filter_In, other_year_iff. simpl.
      split.
      - intros [H|[H|[]]]; [now right | left; now symmetry].
      - intros [H|H]; [right; left; now symmetry | now left]. }
    split; [exact Hmem|].
    split.
    { intros N. rewrite map_app. simpl. apply NoDup_snoc.
      - now apply NoDup_map_filter_any.
      - intros Hin. apply in_map_iff in Hin. destruct Hin as [h [Hk Hin]].
        apply filter_In in Hin. destruct Hin as [_ Hin].
        apply other_year_iff in Hin. apply Hin.
        inversion Hk. now split. }
    split; [reflexivity|]. split; [reflexivity|].
    split.
    { intros other limit Ho. apply history_of_another_song. now left. }
    split.
    { intros limit p' Hin.
      rewrite get_position_history_q_rows in Hin.
      apply in_map_iff in Hin. destruct Hin as [h [Hh Hin]].
      destruct (history_rows_spec
                  (Store.add_position_history_q (db w) song_id year position)
                  song_id limit) as (Hrows & _).
      rewrite Forall_forall in Hrows. apply Hrows in Hin.
      destruct Hin as (Hin & Hsid & _). simpl in Hin.
      apply Hmem in Hin. inversion Hh; subst.
      destruct Hin as [->|[_ Hn]]; [reflexivity|].
      exfalso. apply Hn. now split. }
    split.
    { intros limit Hy.
      rewrite get_position_history_q_rows, length_map.
      destruct (history_rows_spec
                  (Store.add_position_history_q (db w) song_id year position)
                  song_id limit) as (_ & _ & _ & _ & Hall).
      destruct (Hall {| ph_song_id := song_id; ph_year := year;
                        ph_position := position |}) as [Hin|[H1 H2]].
      - simpl. apply Hmem. now left.
      - reflexivity.
      - exact Hy.
      - left. apply in_map_iff. eexists. split; [|exact Hin]. reflexivity.
      - right. split; [exact H1|]. apply Forall_map. exact H2. }
    intros Hy any limit. apply history_of_another_song. now right.
Qed.

Lemma add_position_history_replaces_the_year_witness :
  exists w1,
    Store.add_position_history Samples.calm 1 2024 9 Samples.fresh
      = (Ok tt, w1) /\
    get_position_history_q (db w1) 1 5 = [(2024, 9)] /\
    get_position_history_q (db w1) 2 5 = [(2023, 7)].
Proof.
  destruct (add_position_history_replaces_the_year
              Samples.calm Samples.fresh 1 2024 9) as [H _].
  destruct H as [w1 H1]; [intros k; reflexivity|].
  exists w1. vm_compute in H1. injection H1 as <-.
  split; [reflexivity|]. split; reflexivity.
Defined.

End HistoryFacts.

(* ------------------------------------------------------------------ *)
(** ** Silent computations *)

Module EffectFacts.
Import Database Spec FrameFacts.

(** A computation that keeps storage and emits nothing. *)
Lemma moves_silent w w' :
  moves true no_event w w' ->
  db w' = db w /\ trace w' = trace w /\ last_song_id w' = last_song_id w /\
  data w' = data w.
Proof.
  intros ((Hl & Hd & _) & Hdb & new & Ht & Hn).
  split; [now apply Hdb|]. split; [|now split].
  destruct new as [|e new]; [now rewrite app_nil_r in Ht|].
  inversion Hn as [|? ? He _]. destruct He.
Qed.

Lemma first_of_filter {A} (f : A -> bool) (l : list A) x rest :
  filter f l = x :: rest ->
  exists before after,
    l = before ++ x :: after /\ f x = true /\
    Forall (fun y => f y = false) before.
Proof.
  induction l as [|a l IH]; simpl; [discriminate|].
  destruct (f a) eqn:E.
  - intros [= -> <-]. exists [], l. repeat split; [exact E|constructor].
  - intros H. destruct (IH H) as (b & c & -> & Hx & Hb).
    exists (a :: b), c. repeat split; [exact Hx|]. now constructor.
Qed.

Lemma filter_nil_iff {A} (f : A -> bool) (l : list A) :
  filter f l = [] <-> forall x, In x l -> f x = false.
Proof.
  induction l as [|a l IH]; simpl.
  - split; [intros _ x []|reflexivity].
  - destruct (f a) eqn:E.
    + split; [discriminate|]. intros H. specialize (H a (or_introl eq_refl)).
      congruence.
    + rewrite IH. split.
      * intros H x [<-|Hx]; [exact E|now apply H].
      * intros H x Hx. apply H. now right.
Qed.

Lemma NoDup_map_injective_on {A B} (key : A -> B) (l : list A) a b :
  NoDup (map key l) -> In a l -> In b l -> key a = key b -> a = b.
Proof.
  induction l as [|x l IH]; simpl; intros N Ha Hb E; [contradiction|].
  inversion N as [|? ? Hn N']; subst.
  destruct Ha as [->|Ha], Hb as [->|Hb].
  - reflexivity.
  - exfalso. apply Hn. rewrite E. now apply in_map.
  - exfalso. apply Hn. rewrite <- E. now apply in_map.
  - now apply IH.
Qed.

Lemma filter_filter_excluded {A} (f g : A -> bool) (l : list A) :
  (forall x, f x = true -> g x = false) ->
  filter f (filter g l) = [].
Proof.
  intros H. apply filter_nil_iff. intros x Hx. apply filter_In in Hx.
  destruct Hx as [_ Hx]. destruct (f x) eqn:F; [|reflexivity].
  apply H in F. congruence.
Qed.

End EffectFacts.

(* ------------------------------------------------------------------ *)
(** ** The catalog: lookups and the rows of the importer *)

(** ** [str.lower] and [LOWER] of SQLite *)

Module UnicodeFacts.
Import Unicode Terms.
Local Open Scope N_scope.

Lemma lower_ascii_byte (a : ascii) :
  N_of_ascii (Sql.lower_ascii a) = ascii_fold (N_of_ascii a).
Proof. destruct a as [[] [] [] [] [] [] [] []]; reflexivity. Qed.

Lemma ascii_fold_low x : (ascii_fold x <? 0x80) = (x <? 0x80).
Proof.
  unfold ascii_fold.
  destruct (N.leb_spec 65 x), (N.leb_spec x 90); simpl; try reflexivity.
  destruct (N.ltb_spec (x + 32) 0x80), (N.ltb_spec x 0x80); try reflexivity; lia.
Qed.

Lemma ascii_fold_high x : 91 <= x -> ascii_fold x = x.
Proof.
  intros H. unfold ascii_fold.
  destruct (N.leb_spec 65 x), (N.leb_spec x 90); simpl; try reflexivity; lia.
Qed.

Lemma lower_ascii_high (a : ascii) :
  (N_of_ascii a <? 0x80) = false -> Sql.lower_ascii a = a.
Proof. destruct a as [[] [] [] [] [] [] [] []]; try reflexivity; discriminate. Qed.

Lemma lower_ascii_continuation (b : ascii) :
  continuation (N_of_ascii (Sql.lower_ascii b)) = continuation (N_of_ascii b).
Proof. destruct b as [[] [] [] [] [] [] [] []]; reflexivity. Qed.

Lemma continuation_lower_ascii (b : ascii) :
  continuation (N_of_ascii b) = true -> Sql.lower_ascii b = b.
Proof. destruct b as [[] [] [] [] [] [] [] []]; try reflexivity; discriminate. Qed.

Lemma decode_lower_bounded (n : nat) : forall s,
  (String.length s <= n)%nat ->
  decode (Sql.lower s) = map ascii_fold (decode s).
Proof.
  induction n as [|n IH]; intros s L.
  - destruct s; [reflexivity|simpl in L; lia].
  - destruct s as [|a r]; [reflexivity|]. simpl in L.
    assert (Hr : decode (Sql.lower r) = map ascii_fold (decode r))
      by (apply IH; lia).
    cbn [Sql.lower decode].
    rewrite lower_ascii_byte, ascii_fold_low.
    destruct (N.ltb_spec (N_of_ascii a) 0x80) as [Lo|Hi].
    { cbn [map]. now rewrite Hr. }
    rewrite (ascii_fold_high (N_of_ascii a)) by lia.
    assert (S : forall l, map ascii_fold (stray (N_of_ascii a) :: l)
                          = stray (N_of_ascii a) :: map ascii_fold l).
    { intros l. cbn [map]. f_equal. apply ascii_fold_high. unfold stray. lia. }
    rewrite Hr.
    destruct r as [|b r1]; [exact (eq_sym (S []))|]. simpl in L.
    assert (Hr1 : decode (Sql.lower r1) = map ascii_fold (decode r1))
      by (apply IH; lia).
    cbn [Sql.lower]. cbv zeta.
    rewrite lower_ascii_continuation.
    destruct (continuation (N_of_ascii b)) eqn:Cb.
    2:{ rewrite ?andb_false_r; cbn [andb].
        destruct r1 as [|c r2]; [now rewrite S|].
        cbn [Sql.lower]. rewrite ?andb_false_r; cbn [andb].
        destruct r2 as [|d r3]; [now rewrite S|].
        cbn [Sql.lower]. rewrite ?andb_false_r; cbn [andb]. now rewrite S. }
    rewrite (continuation_lower_ascii _ Cb).
    match goal with
    | |- (if ?c then _ else _) = _ => destruct c eqn:C2
    end.
    { rewrite Hr1. cbn [map]. f_equal. symmetry. apply ascii_fold_high.
      rewrite !andb_true_iff in C2. destruct C2 as [_ V].
      apply N.leb_le in V. lia. }
    destruct r1 as [|c r2]; [now rewrite S|]. simpl in L.
    assert (Hr2 : decode (Sql.lower r2) = map ascii_fold (decode r2))
      by (apply IH; lia).
    cbn [Sql.lower].
    rewrite lower_ascii_continuation.
    destruct (continuation (N_of_ascii c)) eqn:Cc.
    2:{ rewrite ?andb_false_r; cbn [andb].
        destruct r2 as [|d r3]; [now rewrite S|].
        cbn [Sql.lower]. rewrite ?andb_false_r; cbn [andb]. now rewrite S. }
    rewrite (continuation_lower_ascii _ Cc).
    match goal with
    | |- (if ?c then _ else _) = _ => destruct c eqn:C3
    end.
    { rewrite Hr2. cbn [map]. f_equal. symmetry. apply ascii_fold_high.
      rewrite !andb_true_iff in C3. destruct C3 as [_ V].
      apply N.leb_le in V. lia. }
    destruct r2 as [|d r3]; [now rewrite S|]. simpl in L.
    assert (Hr3 : decode (Sql.lower r3) = map ascii_fold (decode r3))
      by (apply IH; lia).
    cbn [Sql.lower].
    rewrite lower_ascii_continuation.
    destruct (continuation (N_of_ascii d)) eqn:Cd.
    2:{ rewrite ?andb_false_r; cbn [andb]. now rewrite S. }
    rewrite (continuation_lower_ascii _ Cd).
    match goal with
    | |- (if ?c then _ else _) = _ => destruct c eqn:C4
    end.
    { rewrite Hr3. cbn [map]. f_equal. symmetry. apply ascii_fold_high.
      rewrite !andb_true_iff in C4. destruct C4 as [[_ V] _].
      apply N.leb_le in V. lia. }
    now rewrite S.
Qed.

Lemma decode_lower (s : string) :
  decode (Sql.lower s) = map ascii_fold (decode s).
Proof. apply (decode_lower_bounded (String.length s)). lia. Qed.

Lemma capital_letters c :
  65 <= c <= 90 -> In c (map N.of_nat (seq 65 26)).
Proof.
  intros H. apply in_map_iff. exists (N.to_nat c).
  split; [lia|]. apply in_seq. lia.
Qed.

(** Lowercase, and what decides on a final sigma, do not tell a capital
    letter of A to Z from its small letter. *)
Lemma ascii_fold_same c :
  (ascii_fold c =? 0x3A3) = (c =? 0x3A3) /\
  to_lower (ascii_fold c) = to_lower c /\
  case_ignorable (ascii_fold c) = case_ignorable c /\
  cased (ascii_fold c) = cased c.
Proof.
  unfold ascii_fold.
  destruct ((65 <=? c) && (c <=? 90)) eqn:E; [|auto].
  apply andb_true_iff in E. destruct E as [A B]. apply N.leb_le in A, B.
  assert (Forall (fun c => ((c + 32 =? 0x3A3) = (c =? 0x3A3) /\
                            to_lower (c + 32) = to_lower c /\
                            case_ignorable (c + 32) = case_ignorable c /\
                            cased (c + 32) = cased c))
                 (map N.of_nat (seq 65 26))) as F
    by (cbn [map seq];
        repeat (apply Forall_cons; [vm_compute; repeat split; reflexivity|]);
        apply Forall_nil).
  rewrite Forall_forall in F. apply F, capital_letters. lia.
Qed.

Lemma first_not_ignorable_fold l :
  first_not_ignorable (map ascii_fold l)
  = option_map ascii_fold (first_not_ignorable l).
Proof.
  induction l as [|c l IH]; [reflexivity|]. cbn [map first_not_ignorable].
  destruct (ascii_fold_same c) as (_ & _ & -> & _).
  destruct (case_ignorable c); [exact IH|reflexivity].
Qed.

Lemma final_sigma_fold before after :
  final_sigma (map ascii_fold before) (map ascii_fold after)
  = final_sigma before after.
Proof.
  unfold final_sigma. rewrite !first_not_ignorable_fold.
  destruct (first_not_ignorable before) as [c|]; [|reflexivity]. simpl.
  destruct (ascii_fold_same c) as (_ & _ & _ & ->).
  destruct (first_not_ignorable after) as [d|]; [|reflexivity]. simpl.
  now destruct (ascii_fold_same d) as (_ & _ & _ & ->).
Qed.

Lemma lower_from_fold l : forall before,
  lower_from (map ascii_fold before) (map ascii_fold l) = lower_from before l.
Proof.
  induction l as [|c l IH]; intros before; [reflexivity|].
  cbn [map lower_from].
  destruct (ascii_fold_same c) as (-> & -> & _).
  rewrite final_sigma_fold. f_equal. exact (IH (c :: before)).
Qed.

(** [str.lower] does not see what [LOWER] of SQLite has done before it. *)
Lemma lower_of_sql_lower (s : string) : Py.lower (Sql.lower s) = Py.lower s.
Proof.
  unfold Py.lower, lower. rewrite decode_lower.
  exact (f_equal encode (lower_from_fold (decode s) [])).
Qed.

Lemma sql_lower_eq_lower (a b : string) :
  Sql.lower a = Sql.lower b -> Py.lower a = Py.lower b.
Proof.
  intros H. rewrite <- (lower_of_sql_lower a), <- (lower_of_sql_lower b).
  now rewrite H.
Qed.

Example lower_beyond_the_letters_a_to_z :
  Py.lower "BLØF" = "bløf" /\ Py.lower "Bløf" = "bløf" /\
  Sql.lower "BLØF" = "blØf" /\
  Py.lower "ΟΔΟΣ ΟΝΕΙΡΩΝ" = "οδος ονειρων" /\
  Py.lower "İstanbul" = "i̇stanbul".
Proof. repeat split; vm_compute; reflexivity. Qed.

(** A no-break space (U+00A0) and an ideographic space (U+3000) are
    stripped like a space. *)
Example strip_beyond_the_ascii_spaces :
  Py.strip (String (ascii_of_N 0xC2) (String (ascii_of_N 0xA0) " Queen　"))
  = "Queen".
Proof. vm_compute. reflexivity. Qed.

End UnicodeFacts.

(* ------------------------------------------------------------------ *)
Module CatalogFacts.
Import Database Spec FrameFacts SqlFacts StorageFacts OrderFacts EffectFacts.
Import MatcherFacts.

Lemma get_song_by_position_ok env position w r w' :
  DatabaseManager.get_song_by_position env position w = (Ok r, w') ->
  r = get_song_by_position_q (db w) position.
Proof.
  unfold DatabaseManager.get_song_by_position, get_song_by_position_q.
  unfold bind at 1.
  destruct (io env w) as [[[]|e] w1] eqn:E; [|discriminate].
  apply io_ok in E. subst w1.
  unfold bind at 1. unfold gets at 1.
  change (db (bump w)) with (db w).
  destruct (filter (fun r => row_position r =? position) (songs (db w)))
    as [|row rest]; [now intros [= <-]|].
  unfold bind at 1. unfold DatabaseManager.attach.
  unfold bind at 1. unfold gets at 1. unfold bind at 1.
  destruct (DatabaseManager.get_position_history env
              (d_id (dict_of_row row)) 5 (bump w)) as [[h|e] w2] eqn:H;
    [|discriminate].
  apply get_position_history_ok in H. destruct H as [-> ->].
  intros [= <-]. reflexivity.
Qed.

Lemma get_song_by_position_q_spec (d : database) (position : Z) :
  match get_song_by_position_q d position with
  | Some s =>
      exists row,
        In row (songs d) /\ row_position row = position /\
        s = with_facts_and_history d (dict_of_row row) /\
        (NoDup (map row_position (songs d)) ->
         forall row', In row' (songs d) -> row_position row' = position ->
                      row' = row)
  | None => forall row, In row (songs d) -> row_position row <> position
  end.
Proof.
  unfold get_song_by_position_q.
  destruct (filter (fun r => row_position r =? position) (songs d))
    as [|row rest] eqn:F.
  - intros row Hin E.
    rewrite filter_nil_iff in F. apply F in Hin.
    apply Z.eqb_neq in Hin. contradiction.
  - assert (In row (songs d) /\ row_position row = position) as [Hin Hp].
    { assert (In row (row :: rest)) as H by now left.
      rewrite <- F in H. apply filter_In in H.
      rewrite Z.eqb_eq in H. exact H. }
    exists row. repeat split; [exact Hin|exact Hp|].
    intros N row' Hin' Hp'.
    apply (NoDup_map_injective_on row_position (songs d)); congruence.
Qed.

(** X3.  [get_song_by_position] returns when storage answers and changes
    nothing.  A song it returns is built from a row of [songs] that holds
    the position asked for, with that song's fun facts and history, and it
    is the only such row when positions are unique; [None] means that no
    row holds the position. *)
Theorem get_song_by_position_finds_the_row
  (env : environment) (w : world) (position : Z) :
  (reliable env ->
   exists w',
     DatabaseManager.get_song_by_position env position w
       = (Ok (get_song_by_position_q (db w) position), w')) /\
  forall r w',
    DatabaseManager.get_song_by_position env position w = (Ok r, w') ->
    db w' = db w /\ trace w' = trace w /\
    match r with
    | Some s =>
        exists row,
          In row (songs (db w)) /\ row_position row = position /\
          s = with_facts_and_history (db w) (dict_of_row row) /\
          (NoDup (map row_position (songs (db w))) ->
           forall row', In row' (songs (db w)) ->
                        row_position row' = position -> row' = row)
    | None => forall row, In row (songs (db w)) -> row_position row <> position
    end.
Proof.
  split.
  - apply get_song_by_position_reliable.
  - intros r w' H.
    destruct (moves_silent w w'
                (preserved_get_song_by_position env true no_event position
                   w _ w' H)) as (Hdb & Ht & _).
    split; [exact Hdb|]. split; [exact Ht|].
    apply get_song_by_position_ok in H. subst r.
    apply get_song_by_position_q_spec.
Qed.

Lemma get_song_by_position_finds_the_row_witness :
  exists s w',
    DatabaseManager.get_song_by_position Samples.calm 499 Samples.fresh
      = (Ok (Some s), w') /\
    d_artist s = "Queen" /\ d_position s = 499.
Proof.
  destruct (get_song_by_position_finds_the_row Samples.calm Samples.fresh 499)
    as [H _].
  destruct H as [w' H]; [intros k; reflexivity|].
  eexists. exists w'. split; [exact H|]. split; reflexivity.
Defined.

Lemma fun_facts_q_spec (d : database) (song_id : Z) :
  exists rows,
    fun_facts_q d song_id = map ff_fact_text rows /\
    Permutation rows (filter (fun f => ff_song_id f =? song_id) (fun_facts d)) /\
    StronglySorted (fun a b => ff_fact_order a <= ff_fact_order b) rows.
Proof.
  unfold fun_facts_q.
  exists (Sql.order_by (fun a b => ff_fact_order a <=? ff_fact_order b)
            (filter (fun f => ff_song_id f =? song_id) (fun_facts d))).
  split; [reflexivity|]. split.
  - apply order_by_permutation.
  - eapply StronglySorted_weaken;
      [|apply (order_by_ascending
                 (fun a b => ff_fact_order a <=? ff_fact_order b))].
    + intros a b H. now apply Z.leb_le.
    + intros a b H. apply Z.leb_le. apply Z.leb_gt in H. lia.
    + intros a b c H1 H2. apply Z.leb_le. apply Z.leb_le in H1, H2. lia.
Qed.

(** X4.  A song resolved by [match_song] carries the fun facts stored for
    its id, each once, in ascending [fact_order], and the history of its id;
    the fun fact a notification shows is one with the smallest
    [fact_order], and none is shown exactly when none is stored. *)
Theorem matched_song_carries_its_fun_facts_in_order
  (env : environment) (w w' : world) (artist title : string) (s : song) :
  DatabaseManager.match_song env artist title w = (Ok (Some s), w') ->
  (exists rows,
      d_fun_facts s = map ff_fact_text rows /\
      Permutation rows
        (filter (fun f => ff_song_id f =? d_id s) (fun_facts (db w))) /\
      StronglySorted (fun a b => ff_fact_order a <= ff_fact_order b) rows) /\
  d_position_history s = get_position_history_q (db w) (d_id s) 5 /\
  forall is_current,
    match msg_fun_fact (Coordinator.compose_message s is_current) with
    | Some t =>
        exists f,
          In f (fun_facts (db w)) /\ ff_song_id f = d_id s /\
          ff_fact_text f = t /\
          forall g, In g (fun_facts (db w)) -> ff_song_id g = d_id s ->
                    ff_fact_order f <= ff_fact_order g
    | None => forall g, In g (fun_facts (db w)) -> ff_song_id g <> d_id s
    end.
Proof.
  intros H. apply match_song_ok in H. unfold match_song_q in H.
  destruct (fst (best_candidate (partial_ratio env) (db w) artist title))
    as [row|]; [|discriminate].
  injection H as ->. simpl.
  destruct (fun_facts_q_spec (db w) (row_id row)) as (rows & E & P & S).
  split; [exists rows; now repeat split|]. split; [reflexivity|].
  intros _. rewrite E.
  assert (forall g, In g rows <->
                    In g (fun_facts (db w)) /\ ff_song_id g = row_id row) as M.
  { intros g. split.
    - intros Hg. apply (Permutation_in _ P) in Hg. apply filter_In in Hg.
      now rewrite Z.eqb_eq in Hg.
    - intros Hg. apply (Permutation_in _ (Permutation_sym P)).
      apply filter_In. now rewrite Z.eqb_eq. }
  destruct rows as [|f rows]; simpl.
  - intros g Hg Eg. apply (proj2 (M g)). now split.
  - exists f. destruct (proj1 (M f) (or_introl eq_refl)) as [Hf Ef].
    repeat split; [exact Hf|exact Ef|].
    intros g Hg Eg. assert (In g (f :: rows)) as [<-|Hin] by (apply M; now split).
    + lia.
    + inversion S as [|? ? _ F]; subst. rewrite Forall_forall in F.
      now apply F.
Qed.

Lemma matched_song_carries_its_fun_facts_in_order_witness :
  exists s w',
    DatabaseManager.match_song Samples.calm "Queen" "Bohemian Rhapsody"
                               Samples.fresh = (Ok (Some s), w') /\
    d_fun_facts s = ["Six minutes long."; "Recorded in 1975."] /\
    msg_fun_fact (Coordinator.compose_message s true)
      = Some "Six minutes long.".
Proof.
  destruct (DatabaseManager.match_song Samples.calm "Queen"
              "Bohemian Rhapsody" Samples.fresh) as [r w'] eqn:E.
  vm_compute in E. injection E as <- <-.
  eexists. eexists. split; [reflexivity|].
  split; [reflexivity|].
  pose proof (matched_song_carries_its_fun_facts_in_order
                Samples.calm Samples.fresh _ "Queen" "Bohemian Rhapsody" _
                eq_refl) as (_ & _ & H).
  reflexivity.
Defined.

Lemma position_history_of_unknown_song d song_id limit :
  Forall (fun h => ph_song_id h <> song_id) (position_history d) ->
  get_position_history_q d song_id limit = [].
Proof.
  intros F. unfold get_position_history_q.
  replace (filter _ (position_history d)) with (@nil history_row).
  - unfold Sql.limit. simpl. destruct (limit <? 0); [reflexivity|].
    now rewrite firstn_nil.
  - symmetry. apply filter_nil_iff. intros h Hh.
    rewrite Forall_forall in F. apply F in Hh.
    apply andb_false_iff. left. now apply Z.eqb_neq.
Qed.

(** X5.  [insert_song] makes the new row the one found at its position: a
    row that held the position is gone, every other row stays, so unique
    positions stay unique, and ids stay unique under a fresh rowid.  The
    new row has no cover art, and since nothing is stored under a fresh id
    it has no position history: what was recorded for a replaced row stays
    under the old id. *)
Theorem insert_song_takes_over_the_position
  (d : database) (lastrowid position : Z) (artist title : string)
  (year : option Z) :
  let row := Store.inserted_song lastrowid position artist title year in
  let d' := Store.insert_song_q d lastrowid position artist title year in
  get_song_by_position_q d' position
    = Some (with_facts_and_history d (dict_of_row row)) /\
  (forall p, p <> position ->
             get_song_by_position_q d' p = get_song_by_position_q d p) /\
  (forall r, In r (songs d') <->
             r = row \/ (In r (songs d) /\ row_position r <> position)) /\
  (NoDup (map row_position (songs d)) -> NoDup (map row_position (songs d'))) /\
  (Forall (fun r => row_id r < lastrowid) (songs d) ->
   NoDup (map row_id (songs d)) -> NoDup (map row_id (songs d'))) /\
  (Forall (fun h => ph_song_id h <> lastrowid) (position_history d) ->
   d_position_history (with_facts_and_history d (dict_of_row row)) = []) /\
  Store.is_populated_q d' = true /\
  position_history d' = position_history d /\
  fun_facts d' = fun_facts d.
Proof.
  intros row d'.
  assert (forall r, In r (songs d') <->
                    r = row \/ (In r (songs d) /\ row_position r <> position))
    as M.
  { intros r. unfold d', Store.insert_song_q. simpl.
    rewrite in_app_iff, filter_In, negb_true_iff, Z.eqb_neq. simpl.
    split.
    - intros [H|[H|[]]]; [now right | left; now symmetry].
    - intros [H|H]; [right; left; now symmetry | now left]. }
  split.
  { unfold get_song_by_position_q, d', Store.insert_song_q. simpl.
    rewrite filter_app, filter_filter_excluded.
    - simpl. rewrite Z.eqb_refl. reflexivity.
    - intros x Hx. now rewrite Hx. }
  split.
  { intros p Hp. unfold get_song_by_position_q, d', Store.insert_song_q. simpl.
    rewrite filter_app, HistoryFacts.filter_filter_implied.
    - simpl. replace (position =? p) with false
        by (symmetry; apply Z.eqb_neq; congruence).
      rewrite app_nil_r. reflexivity.
    - intros x Hx. apply Z.eqb_eq in Hx. apply negb_true_iff, Z.eqb_neq.
      congruence. }
  split; [exact M|].
  split.
  { intros N. unfold d', Store.insert_song_q. simpl. rewrite map_app. simpl.
    apply HistoryFacts.NoDup_snoc.
    - now apply HistoryFacts.NoDup_map_filter_any.
    - intros Hin. apply in_map_iff in Hin. destruct Hin as [r [Hp Hin]].
      apply filter_In in Hin. destruct Hin as [_ Hin].
      apply negb_true_iff, Z.eqb_neq in Hin. contradiction. }
  split.
  { intros F N. unfold d', Store.insert_song_q. simpl. rewrite map_app. simpl.
    apply HistoryFacts.NoDup_snoc.
    - now apply HistoryFacts.NoDup_map_filter_any.
    - intros Hin. apply in_map_iff in Hin. destruct Hin as [r [Hp Hin]].
      apply filter_In in Hin. destruct Hin as [Hin _].
      rewrite Forall_forall in F. apply F in Hin. lia. }
  split.
  { intros F. simpl. now apply position_history_of_unknown_song. }
  split.
  { unfold Store.is_populated_q, d', Store.insert_song_q. simpl.
    rewrite length_app. simpl. apply Z.ltb_lt. lia. }
  split; reflexivity.
Qed.

Lemma insert_song_takes_over_the_position_witness :
  let d' := Store.insert_song_q Samples.catalog 5 499 "Toto" "Africa"
                                (Some 1982) in
  NoDup (map row_position (songs d')) /\
  map row_id (songs d') = [2; 3; 4; 5] /\
  option_map d_artist (get_song_by_position_q d' 499) = Some "Toto" /\
  option_map d_position_history (get_song_by_position_q d' 499) = Some [].
Proof.
  destruct (insert_song_takes_over_the_position
              Samples.catalog 5 499 "Toto" "Africa" (Some 1982))
    as (E & _ & _ & N & _ & H & _).
  split.
  - apply N. vm_compute.
    repeat (constructor; [simpl; intuition discriminate|]). constructor.
  - split; [reflexivity|]. rewrite E. split; [reflexivity|].
    cbv [option_map]. rewrite H; [reflexivity|].
    vm_compute. repeat (constructor; [discriminate|]). constructor.
Defined.

Local Abbreviation same_names :=
  (fun artist title r =>
     (String.eqb (Sql.lower (row_artist r)) (Sql.lower artist) &&
      String.eqb (Sql.lower (row_title r)) (Sql.lower title))%bool).

Lemma same_names_iff artist title r :
  same_names artist title r = true <->
  Sql.lower (row_artist r) = Sql.lower artist /\
  Sql.lower (row_title r) = Sql.lower title.
Proof. now rewrite andb_true_iff, !String.eqb_eq. Qed.

(** X6.  [get_song_by_artist_title] returns when storage answers.  It
    finds the first row whose artist and title equal the given ones up to
    the case of the letters A to Z (what [LOWER] of SQLite folds), and
    [None] exactly when there is no such row; whenever it finds a row, the
    fuzzy matcher resolves the same artist and title to some song (for a
    similarity that gives 100 on equal texts). *)
Theorem get_song_by_artist_title_ignores_case
  (env : environment) (w : world) (artist title : string) :
  (reliable env ->
   exists r,
     Store.get_song_by_artist_title env artist title w = (Ok r, bump w)) /\
  forall r w',
    Store.get_song_by_artist_title env artist title w = (Ok r, w') ->
    db w' = db w /\
    match r with
    | Some s =>
        exists before row after,
          songs (db w) = before ++ row :: after /\
          Sql.lower (row_artist row) = Sql.lower artist /\
          Sql.lower (row_title row) = Sql.lower title /\
          Forall (fun x => ~ (Sql.lower (row_artist x) = Sql.lower artist /\
                              Sql.lower (row_title x) = Sql.lower title))
                 before /\
          d_id s = row_id row /\ d_position s = row_position row /\
          d_artist s = row_artist row /\ d_title s = row_title row /\
          d_year s = row_year row /\
          d_cover_art_url s = row_cover_art_url row /\
          ((forall x, partial_ratio env x x = 100%float) ->
           match_song_q (partial_ratio env) (db w) artist title <> None)
    | None =>
        forall row, In row (songs (db w)) ->
          ~ (Sql.lower (row_artist row) = Sql.lower artist /\
             Sql.lower (row_title row) = Sql.lower title)
    end.
Proof.
  unfold Store.get_song_by_artist_title, bind, gets, ret.
  split.
  - intros R. rewrite (io_reliable env w R). eexists. reflexivity.
  - intros r w'. destruct (io env w) as [[[]|e] w1] eqn:E; [|discriminate].
    apply io_ok in E. subst w1. intros [= <- <-].
    split; [reflexivity|]. change (db (bump w)) with (db w).
    unfold Store.get_song_by_artist_title_q.
    destruct (filter (same_names artist title) (songs (db w)))
      as [|row rest] eqn:F.
    + intros row Hin. rewrite filter_nil_iff in F. apply F in Hin.
      rewrite <- same_names_iff. congruence.
    + destruct (first_of_filter _ _ _ _ F) as (b & a & El & Hx & Hb).
      apply same_names_iff in Hx. destruct Hx as [Ha Ht].
      exists b, row, a. simpl.
      repeat split; try assumption.
      * eapply Forall_impl; [|exact Hb]. intros x Hf Hn.
        apply same_names_iff in Hn. congruence.
      * intros P N. apply match_song_q_none_iff in N.
        rewrite El in N. apply Forall_app in N. destruct N as [_ N].
        inversion N as [|? ? Hlt _]; subst.
        assert (combined_score (partial_ratio env) artist title row
                = 100%float) as S.
        { apply combined_score_identical; auto;
            symmetry; now apply UnicodeFacts.sql_lower_eq_lower. }
        rewrite S in Hlt. discriminate Hlt.
Qed.

Lemma get_song_by_artist_title_ignores_case_witness :
  exists s,
    Store.get_song_by_artist_title Samples.calm "EAGLES" "hotel california"
                                   Samples.fresh
      = (Ok (Some s), bump Samples.fresh) /\
    d_id s = 2.
Proof.
  destruct (get_song_by_artist_title_ignores_case
              Samples.calm Samples.fresh "EAGLES" "hotel california")
    as [H _].
  destruct H as [r H]; [intros k; reflexivity|].
  vm_compute in H. injection H as <-.
  eexists. split; reflexivity.
Defined.

Lemma insert_by_before_last {A} (le : A -> A -> bool) (y x : A) (l : list A) :
  le y x = true ->
  Sql.insert_by le y (l ++ [x]) = Sql.insert_by le y l ++ [x].
Proof.
  intros H. induction l as [|z l IH]; simpl.
  - now rewrite H.
  - destruct (le y z); [reflexivity|]. now rewrite IH.
Qed.

Lemma order_by_snoc_largest {A} (le : A -> A -> bool) (x : A) (l : list A) :
  Forall (fun y => le y x = true) l ->
  Sql.order_by le (l ++ [x]) = Sql.order_by le l ++ [x].
Proof.
  unfold Sql.order_by. induction 1 as [|y l Hy _ IH]; simpl; [reflexivity|].
  rewrite IH. now apply insert_by_before_last.
Qed.

Lemma order_by_snoc_smallest {A} (le : A -> A -> bool) (x : A) (l : list A) :
  Forall (fun y => le y x = false) l ->
  Sql.order_by le (l ++ [x]) = x :: Sql.order_by le l.
Proof.
  unfold Sql.order_by. induction 1 as [|y l Hy _ IH]; simpl; [reflexivity|].
  rewrite IH. simpl. now rewrite Hy.
Qed.

(** X7.  [insert_fun_fact] adds one fun fact to the song and to no
    other: the song's fun facts are read as before with the new text among
    them.  A fact whose [fact_order] is below all those of the song is read
    first (and is the one a notification shows); one whose [fact_order] is
    above all of them is read last. *)
Theorem insert_fun_fact_is_read_in_order
  (d : database) (song_id : Z) (fact_text : string) (fact_order : Z) :
  let d' := Store.insert_fun_fact_q d song_id fact_text fact_order in
  Permutation (fun_facts_q d' song_id) (fact_text :: fun_facts_q d song_id) /\
  (forall other, other <> song_id ->
                 fun_facts_q d' other = fun_facts_q d other) /\
  (Forall (fun f => ff_song_id f = song_id -> fact_order < ff_fact_order f)
          (fun_facts d) ->
   fun_facts_q d' song_id = fact_text :: fun_facts_q d song_id) /\
  (Forall (fun f => ff_song_id f = song_id -> ff_fact_order f < fact_order)
          (fun_facts d) ->
   fun_facts_q d' song_id = fun_facts_q d song_id ++ [fact_text]) /\
  songs d' = songs d /\ position_history d' = position_history d.
Proof.
  intros d'.
  set (new := {| ff_song_id := song_id; ff_fact_text := fact_text;
                 ff_fact_order := fact_order |}).
  set (le := fun a b => ff_fact_order a <=? ff_fact_order b).
  set (mine := filter (fun f => ff_song_id f =? song_id) (fun_facts d)).
  assert (fun_facts_q d' song_id
          = map ff_fact_text (Sql.order_by le (mine ++ [new]))) as E.
  { unfold fun_facts_q, d', Store.insert_fun_fact_q. simpl.
    rewrite filter_app. simpl. now rewrite Z.eqb_refl. }
  split.
  { rewrite E. unfold fun_facts_q. fold le mine.
    change (fact_text :: map ff_fact_text (Sql.order_by le mine))
      with (map ff_fact_text (new :: Sql.order_by le mine)).
    apply Permutation_map.
    eapply Permutation_trans; [apply order_by_permutation|].
    eapply Permutation_trans; [apply Permutation_app_comm|]. simpl.
    apply perm_skip, Permutation_sym, order_by_permutation. }
  split.
  { intros other N. unfold fun_facts_q, d', Store.insert_fun_fact_q. simpl.
    rewrite filter_app. simpl.
    replace (song_id =? other) with false
      by (symmetry; apply Z.eqb_neq; congruence).
    now rewrite app_nil_r. }
  split.
  { intros F. rewrite E, order_by_snoc_smallest; [reflexivity|].
    apply Forall_forall. intros f Hf. apply filter_In in Hf.
    destruct Hf as [Hf Hs]. apply Z.eqb_eq in Hs.
    rewrite Forall_forall in F. specialize (F f Hf Hs).
    unfold le, new. simpl. apply Z.leb_gt. exact F. }
  split.
  { intros F. rewrite E, order_by_snoc_largest.
    - rewrite map_app. reflexivity.
    - apply Forall_forall. intros f Hf. apply filter_In in Hf.
      destruct Hf as [Hf Hs]. apply Z.eqb_eq in Hs.
      rewrite Forall_forall in F. specialize (F f Hf Hs).
      unfold le, new. simpl. apply Z.leb_le. lia. }
  split; reflexivity.
Qed.

Lemma insert_fun_fact_is_read_in_order_witness :
  fun_facts_q (Store.insert_fun_fact_q Samples.catalog 1 "A ballad." 0) 1
  = ["A ballad."; "Six minutes long."; "Recorded in 1975."].
Proof.
  destruct (insert_fun_fact_is_read_in_order Samples.catalog 1 "A ballad." 0)
    as (_ & _ & H & _).
  rewrite H; [reflexivity|].
  vm_compute. repeat (constructor; [intros _; reflexivity|]). constructor.
Defined.

End CatalogFacts.

(* ------------------------------------------------------------------ *)
(** ** Writes and what is read back *)

Module WriteFacts.
Import Database Spec FrameFacts StorageFacts EffectFacts RuleFacts.

Lemma update_cover_art_ok env song_id url mb w w1 :
  DatabaseManager.update_cover_art env song_id url mb w = (Ok tt, w1) ->
  w1 = set_db (update_cover_art_q (db w) song_id url mb
                                  (clock env (S (calls w))))
              (bump (bump (record (CoverArtWrite song_id url mb) w))).
Proof.
  unfold DatabaseManager.update_cover_art, bind, emit, modify, io, now.
  simpl. destruct (io_fault env (calls w)); intros H; inversion H.
  reflexivity.
Qed.

Lemma update_cover_art_raises env song_id url mb w e w1 :
  DatabaseManager.update_cover_art env song_id url mb w = (Raise e, w1) ->
  e = IOError /\ db w1 = db w /\
  trace w1 = trace w ++ [CoverArtWrite song_id url mb].
Proof.
  unfold DatabaseManager.update_cover_art, bind, emit, modify, io, now.
  simpl. destruct (io_fault env (calls w)); intros H; inversion H.
  now repeat split.
Qed.

Lemma stamp_after_update (l : list song_row) song_id url mb t :
  match filter (fun r => row_id r =? song_id)
          (map (fun r =>
                  if row_id r =? song_id
                  then {| row_id := row_id r;
                          row_position := row_position r;
                          row_artist := row_artist r;
                          row_title := row_title r;
                          row_year := row_year r;
                          row_musicbrainz_id := mb;
                          row_cover_art_url := Some url;
                          row_cover_art_cached_at := Some t |}
                  else r) l) with
  | [] => forall r, In r l -> row_id r <> song_id
  | row :: _ =>
      (exists r, In r l /\ row_id r = song_id) /\
      row_cover_art_url row = Some url /\
      row_cover_art_cached_at row = Some t
  end.
Proof.
  induction l as [|a l IH]; simpl.
  - intros r [].
  - destruct (row_id a =? song_id) eqn:E; simpl.
    + rewrite E. apply Z.eqb_eq in E. repeat split. exists a. now split; [left|].
    + rewrite E.
      destruct (filter _ (map _ l)) as [|row rest].
      * intros r [<-|Hr]; [now apply Z.eqb_neq|now apply IH].
      * destruct IH as ((r & Hr & Er) & H). split; [|exact H].
        exists r. split; [now right|exact Er].
Qed.

Lemma stamp_of_another_song (d : database) song_id url mb t other :
  other <> song_id ->
  cover_art_stamp_q (update_cover_art_q d song_id url mb t) other
  = cover_art_stamp_q d other.
Proof.
  intros N. unfold cover_art_stamp_q. simpl.
  induction (songs d) as [|a l IH]; simpl; [reflexivity|].
  destruct (row_id a =? song_id) eqn:E; simpl.
  - apply Z.eqb_eq in E.
    replace (row_id a =? other) with false
      by (symmetry; apply Z.eqb_neq; congruence).
    exact IH.
  - destruct (row_id a =? other); [reflexivity|exact IH].
Qed.

(** X8.  After [update_cover_art] has returned, [is_cover_art_cached] for
    that song answers [True] exactly when a row with that id exists, the
    URL written is not empty and less than 24 hours have passed between
    the write and the check.  The write touches the cover-art columns only:
    ids, positions, artists, titles and years are as before, and so is what
    is cached for every other id. *)
Theorem cover_art_is_cached_for_a_day_after_update
  (env : environment) (w w1 : world) (song_id : Z) (url : string)
  (mb : option string) :
  DatabaseManager.update_cover_art env song_id url mb w = (Ok tt, w1) ->
  map (fun r => (row_id r, row_position r, row_artist r, row_title r,
                 row_year r)) (songs (db w1))
  = map (fun r => (row_id r, row_position r, row_artist r, row_title r,
                   row_year r)) (songs (db w)) /\
  (forall other, other <> song_id ->
     cover_art_stamp_q (db w1) other = cover_art_stamp_q (db w) other) /\
  forall b w2,
    DatabaseManager.is_cover_art_cached env song_id w1 = (Ok b, w2) ->
    (b = true <->
     (exists row, In row (songs (db w)) /\ row_id row = song_id) /\
     url <> "" /\
     clock env (3 + calls w) - clock env (1 + calls w)
     < hours CACHE_DURATION_HOURS).
Proof.
  intros H. apply update_cover_art_ok in H. subst w1.
  split.
  { simpl. rewrite map_map. apply map_ext. intros r.
    destruct (row_id r =? song_id); reflexivity. }
  split.
  { intros other N. apply stamp_of_another_song, N. }
  intros b w2.
  unfold DatabaseManager.is_cover_art_cached, bind, gets, io, now, ret.
  simpl.
  destruct (io_fault env (S (S (calls w)))); [discriminate|].
  unfold cover_art_stamp_q. simpl.
  pose proof (stamp_after_update (songs (db w)) song_id url mb
                (clock env (S (calls w)))) as S.
  destruct (filter _ (map _ (songs (db w)))) as [|row rest].
  - intros [= <- <-]. split; [discriminate|].
    intros ((r & Hr & Er) & _). exfalso. exact (S r Hr Er).
  - destruct S as (Hex & -> & ->).
    destruct url as [|c u].
    + intros [= <- <-]. split; [discriminate|]. intros (_ & N & _).
      now contradiction N.
    + intros [= <- <-]. unfold cache_valid. rewrite Z.ltb_lt.
      split.
      * intros L. repeat split; [exact Hex|discriminate|exact L].
      * intros (_ & _ & L). exact L.
Qed.

Lemma cover_art_is_cached_for_a_day_after_update_witness :
  exists w1 w2,
    DatabaseManager.update_cover_art Samples.calm 2 "https://img.example/e.jpg"
                                     None Samples.fresh = (Ok tt, w1) /\
    DatabaseManager.is_cover_art_cached Samples.calm 2 w1 = (Ok true, w2).
Proof.
  destruct (DatabaseManager.update_cover_art Samples.calm 2
              "https://img.example/e.jpg" None Samples.fresh)
    as [r w1] eqn:E.
  destruct (DatabaseManager.is_cover_art_cached Samples.calm 2 w1)
    as [b w2] eqn:B.
  vm_compute in E. injection E as <- <-.
  vm_compute in B. injection B as <- <-.
  eexists. eexists. split; [reflexivity|].
  pose proof (cover_art_is_cached_for_a_day_after_update
                Samples.calm Samples.fresh _ 2 "https://img.example/e.jpg"
                None eq_refl) as (_ & _ & H).
  reflexivity.
Defined.

Lemma update_playlist_state_ok env position song_id md w w1 :
  DatabaseManager.update_playlist_state env position song_id md w
    = (Ok tt, w1) ->
  w1 = set_db (update_playlist_state_q (db w) position song_id
                 (md_artist md, md_title md, md_cover_art_url md)
                 (clock env (S (calls w))))
              (bump (bump (record (PlaylistStateWrite position song_id md) w))).
Proof.
  unfold DatabaseManager.update_playlist_state, bind, emit, modify, io, now.
  simpl. destruct (io_fault env (calls w)); intros H; inversion H.
  reflexivity.
Qed.

Lemma update_playlist_state_raises env position song_id md w e w1 :
  DatabaseManager.update_playlist_state env position song_id md w
    = (Raise e, w1) ->
  db w1 = db w.
Proof.
  unfold DatabaseManager.update_playlist_state, bind, emit, modify, io, now.
  simpl. destruct (io_fault env (calls w)); intros H; inversion H.
  reflexivity.
Qed.

Lemma get_playlist_state_ok env w r w' :
  Store.get_playlist_state env w = (Ok r, w') ->
  r = playlist_state (db w) /\ w' = bump w.
Proof.
  unfold Store.get_playlist_state, bind, gets, ret, io.
  destruct (io_fault env (calls w)); intros H; inversion H. now split.
Qed.

(** X9.  [get_playlist_state] reads back what the last
    [update_playlist_state] wrote, whatever the table held before:
    position, song id, the observation, and the time of the write.  The
    write changes no other table, and a write that raises leaves the state
    that was stored. *)
Theorem playlist_state_reads_back_the_last_write
  (env : environment) (w : world) (position song_id : Z) (md : metadata) :
  (forall w1,
      DatabaseManager.update_playlist_state env position song_id md w
        = (Ok tt, w1) ->
      songs (db w1) = songs (db w) /\
      position_history (db w1) = position_history (db w) /\
      fun_facts (db w1) = fun_facts (db w) /\
      notification_rules (db w1) = notification_rules (db w) /\
      notification_settings (db w1) = notification_settings (db w) /\
      (reliable env ->
       exists r, Store.get_playlist_state env w1 = (Ok r, bump w1)) /\
      forall r w2,
        Store.get_playlist_state env w1 = (Ok r, w2) ->
        r = Some {| ps_current_position := position;
                    ps_current_song_id := song_id;
                    ps_detected_at := clock env (1 + calls w);
                    ps_npo_metadata :=
                      (md_artist md, md_title md, md_cover_art_url md) |}) /\
  (forall e w1,
      DatabaseManager.update_playlist_state env position song_id md w
        = (Raise e, w1) ->
      forall r w2,
        Store.get_playlist_state env w1 = (Ok r, w2) ->
        r = playlist_state (db w)).
Proof.
  split.
  - intros w1 H. apply update_playlist_state_ok in H. subst w1. simpl.
    repeat split.
    + intros R. eexists. unfold Store.get_playlist_state, bind.
      rewrite (io_reliable env _ R). reflexivity.
    + intros r w2 H. apply get_playlist_state_ok in H.
      destruct H as [-> _]. reflexivity.
  - intros e w1 H r w2 G. apply update_playlist_state_raises in H.
    apply get_playlist_state_ok in G. destruct G as [-> _]. now rewrite H.
Qed.

Lemma playlist_state_reads_back_the_last_write_witness :
  exists w1 w2 t,
    DatabaseManager.update_playlist_state Samples.calm 500 2 Samples.on_air
                                          Samples.fresh = (Ok tt, w1) /\
    Store.get_playlist_state Samples.calm w1
      = (Ok (Some {| ps_current_position := 500;
                     ps_current_song_id := 2;
                     ps_detected_at := t;
                     ps_npo_metadata :=
                       ("EAGLES", "Hotel California", None) |}), w2).
Proof.
  destruct (DatabaseManager.update_playlist_state Samples.calm 500 2
              Samples.on_air Samples.fresh) as [r w1] eqn:E.
  destruct (playlist_state_reads_back_the_last_write
              Samples.calm Samples.fresh 500 2 Samples.on_air) as [H _].
  vm_compute in E. injection E as <- <-.
  destruct (H _ eq_refl) as (_ & _ & _ & _ & _ & G & _).
  destruct G as [r G]; [intros k; reflexivity|].
  vm_compute in G. injection G as <-.
  eexists. eexists. eexists. split; reflexivity.
Defined.

Lemma update_notification_settings_ok env targets current upcoming positions
      w w1 :
  Store.update_notification_settings env targets current upcoming positions w
    = (Ok tt, w1) ->
  w1 = set_db (Store.update_notification_settings_q (db w) targets current
                 upcoming positions) (bump w).
Proof.
  unfold Store.update_notification_settings, bind, modify, io.
  destruct (io_fault env (calls w)); intros H; inversion H. reflexivity.
Qed.

Lemma get_notification_settings_ok env w st w' :
  DatabaseManager.get_notification_settings env w = (Ok st, w') ->
  st = get_notification_settings_q (db w).
Proof.
  unfold DatabaseManager.get_notification_settings, bind, gets, ret, io.
  destruct (io_fault env (calls w)); intros H; inversion H. reflexivity.
Qed.

Lemma settings_q_after_update
  (d : database) (targets : option (list string))
  (current upcoming : option bool) (positions : option (list Z)) :
  let before := get_notification_settings_q d in
  let after :=
    get_notification_settings_q
      (Store.update_notification_settings_q d targets current upcoming
                                            positions) in
  notification_targets after =
    match targets with
    | None => notification_targets before
    | Some [] =>
        match notification_settings d with
        | None => default_targets
        | Some _ => []
        end
    | Some t => t
    end /\
  notify_current_song after =
    match current with
    | Some b => b
    | None => notify_current_song before
    end /\
  notify_upcoming_song after =
    match upcoming with
    | Some b => b
    | None => notify_upcoming_song before
    end /\
  upcoming_notify_positions after =
    match positions with
    | None => upcoming_notify_positions before
    | Some [] =>
        match notification_settings d with
        | None => default_positions
        | Some _ => []
        end
    | Some p => p
    end.
Proof.
  unfold get_notification_settings_q, Store.update_notification_settings_q.
  destruct d as [sg ph ff pl ru [[[ct|] cc cu [cp|]]|]];
    destruct targets as [[|t ts]|], current as [c|], upcoming as [u|],
             positions as [[|p ps]|];
    simpl; repeat split; reflexivity.
Qed.

(** X10.  After [update_notification_settings], [get_notification_settings]
    gives every value that was passed and, for a value passed as [None],
    what it gave before (the default when there was no row), with one
    exception: an empty list of targets or of positions is stored as it is
    when the row exists, but replaced by the default when the row is first
    inserted.  The songs and the rules are not touched. *)
Theorem notification_settings_read_back
  (env : environment) (w w1 : world) (targets : option (list string))
  (current upcoming : option bool) (positions : option (list Z)) :
  Store.update_notification_settings env targets current upcoming positions w
    = (Ok tt, w1) ->
  let before := get_notification_settings_q (db w) in
  let after := get_notification_settings_q (db w1) in
  (forall st w2,
      DatabaseManager.get_notification_settings env w1 = (Ok st, w2) ->
      st = after) /\
  notification_targets after =
    match targets with
    | None => notification_targets before
    | Some [] =>
        match notification_settings (db w) with
        | None => default_targets
        | Some _ => []
        end
    | Some t => t
    end /\
  notify_current_song after =
    match current with
    | Some b => b
    | None => notify_current_song before
    end /\
  notify_upcoming_song after =
    match upcoming with
    | Some b => b
    | None => notify_upcoming_song before
    end /\
  upcoming_notify_positions after =
    match positions with
    | None => upcoming_notify_positions before
    | Some [] =>
        match notification_settings (db w) with
        | None => default_positions
        | Some _ => []
        end
    | Some p => p
    end /\
  songs (db w1) = songs (db w) /\
  notification_rules (db w1) = notification_rules (db w).
Proof.
  intros H. apply update_notification_settings_ok in H. subst w1.
  intros before after.
  split; [intros st w2 G; now apply get_notification_settings_ok in G|].
  destruct (settings_q_after_update (db w) targets current upcoming positions)
    as (Ht & Hc & Hu & Hp).
  split; [exact Ht|]. split; [exact Hc|]. split; [exact Hu|].
  split; [exact Hp|].
  unfold Store.update_notification_settings_q.
  destruct targets, current, upcoming, positions; split; reflexivity.
Qed.

Lemma notification_settings_read_back_witness :
  exists w1,
    Store.update_notification_settings Samples.calm (Some []) None (Some false)
                                       None Samples.fresh = (Ok tt, w1) /\
    get_notification_settings_q (db w1)
    = {| notification_targets := [];
         notify_current_song := true;
         notify_upcoming_song := false;
         upcoming_notify_positions := [1; 2; 3] |}.
Proof.
  destruct (Store.update_notification_settings Samples.calm (Some []) None
              (Some false) None Samples.fresh) as [r w1] eqn:E.
  vm_compute in E. injection E as <- <-.
  eexists. split; [reflexivity|].
  pose proof (notification_settings_read_back Samples.calm Samples.fresh _
                (Some []) None (Some false) None eq_refl) as H.
  reflexivity.
Defined.

Lemma filter_all {A} (f : A -> bool) (l : list A) :
  Forall (fun x => f x = true) l -> filter f l = l.
Proof.
  induction 1 as [|x l Hx _ IH]; simpl; [reflexivity|].
  now rewrite Hx, IH.
Qed.

(** X11.  [add_notification_rule] appends the rule: it is listed last by
    [get_notification_rules], among the enabled ones only when it was added
    as enabled, and an enabled rule that applies to a song makes
    [_matches_notification_rules] accept that song.
    [delete_notification_rule] removes the rules with the given id and no
    other; deleting an id that no rule has changes nothing, and deleting
    the rule just added (its rowid is above all others) gives back the
    rules there were. *)
Theorem notification_rules_add_and_delete
  (d : database) (lastrowid : Z) (rule_type pattern : string)
  (enabled : bool) :
  let d1 :=
    Store.add_notification_rule_q d lastrowid rule_type pattern enabled in
  let added := {| r_id := lastrowid; r_rule_type := rule_type;
                  r_match_pattern := pattern; r_enabled := enabled |} in
  get_notification_rules_q d1 false
    = get_notification_rules_q d false ++ [added] /\
  get_notification_rules_q d1 true
    = get_notification_rules_q d true ++ (if enabled then [added] else []) /\
  (forall s,
      enabled = true -> rule_applies added s ->
      Coordinator.matches_rules (get_notification_rules_q d1 true) s = true) /\
  (forall id,
      get_notification_rules_q (Store.delete_notification_rule_q d id) false
      = filter (fun r => negb (r_id r =? id))
               (get_notification_rules_q d false)) /\
  (forall id,
      Forall (fun r => rule_id r <> id) (notification_rules d) ->
      notification_rules (Store.delete_notification_rule_q d id)
      = notification_rules d) /\
  (Forall (fun r => rule_id r < lastrowid) (notification_rules d) ->
   notification_rules (Store.delete_notification_rule_q d1 lastrowid)
   = notification_rules d).
Proof.
  intros d1 added.
  assert (get_notification_rules_q d1 true
          = get_notification_rules_q d true
            ++ (if enabled then [added] else [])) as E.
  { unfold get_notification_rules_q, d1, Store.add_notification_rule_q.
    simpl. rewrite filter_app, map_app. f_equal.
    unfold added. destruct enabled; reflexivity. }
  split.
  { unfold get_notification_rules_q, d1, Store.add_notification_rule_q.
    simpl. rewrite map_app. f_equal.
    unfold added. destruct enabled; reflexivity. }
  split; [exact E|].
  split.
  { intros s He Ha. apply matches_rules_iff. exists added.
    split; [|exact Ha]. rewrite E, He. apply in_or_app. right. now left. }
  split.
  { intros id. unfold get_notification_rules_q, Store.delete_notification_rule_q.
    simpl. induction (notification_rules d) as [|r l IH]; simpl;
      [reflexivity|].
    destruct (rule_id r =? id); simpl; [exact IH|now rewrite IH]. }
  split.
  { intros id F. simpl. apply filter_all.
    eapply Forall_impl; [|exact F]. intros r Hr.
    now apply negb_true_iff, Z.eqb_neq. }
  intros F. simpl. rewrite filter_app. simpl.
  rewrite Z.eqb_refl. simpl. rewrite app_nil_r. apply filter_all.
  eapply Forall_impl; [|exact F]. intros r Hr. cbv beta in Hr.
  apply negb_true_iff, Z.eqb_neq. lia.
Qed.

Lemma notification_rules_add_and_delete_witness :
  let d1 := Store.add_notification_rule_q Samples.catalog 5 "artist"
                                          "earring" true in
  Coordinator.matches_rules (get_notification_rules_q d1 true)
                            (dict_of_row Samples.radar_love) = true /\
  Coordinator.matches_rules (get_notification_rules_q Samples.catalog true)
                            (dict_of_row Samples.radar_love) = false /\
  notification_rules (Store.delete_notification_rule_q d1 5)
  = notification_rules Samples.catalog.
Proof.
  destruct (notification_rules_add_and_delete
              Samples.catalog 5 "artist" "earring" true)
    as (_ & _ & M & _ & _ & D).
  split.
  - apply M; [reflexivity|]. left. split; [reflexivity|].
    exists "golden ", "". reflexivity.
  - split; [reflexivity|]. apply D.
    vm_compute. repeat (constructor; [reflexivity|]). constructor.
Defined.

End WriteFacts.

(* ------------------------------------------------------------------ *)
(** ** Cover art of the current song *)

Module CoverArtFacts.
Import Database Spec FrameFacts StorageFacts EffectFacts WriteFacts.

Lemma adopted_url_steps env w s url :
  url <> "" ->
  forall s' w',
    Coordinator._fetch_and_cache_cover_art env s (Some url) w = (Ok s', w') ->
    trace w' = trace w ++ [CoverArtWrite (d_id s) url None] /\
    s' = Coordinator.with_cover_art_url s url /\
    db w' = update_cover_art_q (db w) (d_id s) url None
                               (clock env (1 + calls w)).
Proof.
  intros N s' w'. destruct url as [|c u]; [now contradiction N|].
  unfold Coordinator._fetch_and_cache_cover_art. unfold bind at 1.
  destruct (DatabaseManager.update_cover_art env (d_id s) (String c u)
              None w) as [[[]|e] w1] eqn:E; [|discriminate].
  apply update_cover_art_ok in E. subst w1.
  intros [= <- <-]. simpl. now repeat split.
Qed.

(** X12.  A cover URL that came with the observation is adopted as it is:
    the only call made is the write of that URL (no lookup, no look at the
    cache) with no MusicBrainz id; when the write returns, the song carries
    the URL and the row is stamped with the time of the write, and when it
    raises, [IOError] leaves the method and storage is as before. *)
Theorem npo_cover_url_is_adopted
  (env : environment) (w : world) (s : song) (url : string) :
  url <> "" ->
  (io_fault env (calls w) = false ->
   exists w',
     Coordinator._fetch_and_cache_cover_art env s (Some url) w
       = (Ok (Coordinator.with_cover_art_url s url), w')) /\
  forall r w',
    Coordinator._fetch_and_cache_cover_art env s (Some url) w = (r, w') ->
    trace w' = trace w ++ [CoverArtWrite (d_id s) url None] /\
    match r with
    | Ok s' =>
        s' = Coordinator.with_cover_art_url s url /\
        db w' = update_cover_art_q (db w) (d_id s) url None
                                   (clock env (1 + calls w))
    | Raise e => e = IOError /\ db w' = db w
    end.
Proof.
  intros N. destruct url as [|c u]; [now contradiction N|].
  unfold Coordinator._fetch_and_cache_cover_art.
  split.
  - intros F. unfold DatabaseManager.update_cover_art, bind, emit, modify,
      io, now, ret. simpl. rewrite F. eexists. reflexivity.
  - intros r w'. unfold bind at 1.
    destruct (DatabaseManager.update_cover_art env (d_id s) (String c u)
                None w) as [[[]|e] w1] eqn:E.
    + apply update_cover_art_ok in E. subst w1.
      intros [= <- <-]. simpl. now repeat split.
    + apply update_cover_art_raises in E. destruct E as (-> & Hd & Ht).
      intros [= <- <-]. now repeat split.
Qed.

Lemma npo_cover_url_is_adopted_witness :
  exists w',
    Coordinator._fetch_and_cache_cover_art Samples.calm
      (dict_of_row Samples.eagles) (Some "https://img.example/e.jpg")
      Samples.fresh
    = (Ok (Coordinator.with_cover_art_url (dict_of_row Samples.eagles)
             "https://img.example/e.jpg"), w') /\
    trace w' = [CoverArtWrite 2 "https://img.example/e.jpg" None].
Proof.
  destruct (npo_cover_url_is_adopted Samples.calm Samples.fresh
              (dict_of_row Samples.eagles) "https://img.example/e.jpg")
    as [H1 H2]; [discriminate|].
  destruct H1 as [w' H]; [reflexivity|].
  exists w'. split; [exact H|].
  destruct (H2 _ _ H) as [T _]. exact T.
Defined.

Lemma is_cover_art_cached_run env song_id w :
  io_fault env (calls w) = false ->
  DatabaseManager.is_cover_art_cached env song_id w =
  match cover_art_stamp_q (db w) song_id with
  | None => (Ok false, bump w)
  | Some cached_at =>
      (Ok (cache_valid (clock env (S (calls w))) cached_at), bump (bump w))
  end.
Proof.
  intros F.
  unfold DatabaseManager.is_cover_art_cached, bind, io, gets, now, ret.
  rewrite F. change (db (bump w)) with (db w).
  destruct (cover_art_stamp_q (db w) song_id); reflexivity.
Qed.

Lemma fetch_and_cache_without_npo_url env s npo_cover_url w :
  Py.truthy_str npo_cover_url = false ->
  Coordinator._fetch_and_cache_cover_art env s npo_cover_url w
  = bind (DatabaseManager.is_cover_art_cached env (d_id s))
      (fun cached : bool =>
         if cached then ret s
         else
           r <- CoverArtClient.get_cover_art env
                  (d_artist s) (d_title s)
                  (d_cover_art_url s) (d_cover_art_cached_at s) ;;
           match r with
           | (Some (String c r as url), mb_id) =>
               DatabaseManager.update_cover_art env (d_id s) url mb_id ;;
               ret (Coordinator.with_cover_art_url s url)
           | _ => ret s
           end) w.
Proof.
  intros N. unfold Coordinator._fetch_and_cache_cover_art.
  destruct npo_cover_url as [[|c u]|]; [reflexivity|discriminate|reflexivity].
Qed.

(** X13.  With no cover URL in the observation and cover art stored for
    the song less than 24 hours ago, nothing is fetched and nothing is
    written: the song is returned as it is, after one read of storage and
    one of the clock. *)
Theorem fresh_cover_art_cache_is_not_refetched
  (env : environment) (w : world) (s : song) (npo_cover_url : option string)
  (cached_at : Z) :
  Py.truthy_str npo_cover_url = false ->
  io_fault env (calls w) = false ->
  cover_art_stamp_q (db w) (d_id s) = Some cached_at ->
  clock env (1 + calls w) - cached_at < hours CACHE_DURATION_HOURS ->
  Coordinator._fetch_and_cache_cover_art env s npo_cover_url w
    = (Ok s, bump (bump w)) /\
  trace (bump (bump w)) = trace w /\
  db (bump (bump w)) = db w.
Proof.
  intros N F S L. split; [|now split].
  rewrite (fetch_and_cache_without_npo_url env s _ w N).
  unfold bind at 1. rewrite (is_cover_art_cached_run env _ w F), S.
  unfold cache_valid. apply Z.ltb_lt in L. simpl in L. rewrite L. reflexivity.
Qed.

Lemma fresh_cover_art_cache_is_not_refetched_witness :
  exists w',
    Coordinator._fetch_and_cache_cover_art Samples.calm
      (dict_of_row Samples.queen) None
      (set_db (update_cover_art_q Samples.catalog 1 "https://img.example/q.jpg"
                                  None (hours 47)) Samples.fresh)
    = (Ok (dict_of_row Samples.queen), w') /\
    trace w' = [].
Proof.
  destruct (fresh_cover_art_cache_is_not_refetched Samples.calm
              (set_db (update_cover_art_q Samples.catalog 1
                         "https://img.example/q.jpg" None (hours 47))
                      Samples.fresh)
              (dict_of_row Samples.queen) None (hours 47))
    as (H & T & _); try reflexivity.
  eexists. split; [exact H|exact T].
Defined.

(** X14.  With no cover URL in the observation and nothing cached for the
    song, MusicBrainz is asked exactly once.  A URL it finds is written
    for the song together with the release id, and the song carries it; when
    it finds none (or an empty one) nothing is written and the song is
    returned as it is. *)
Theorem missing_cover_art_is_looked_up_once
  (env : environment) (w : world) (s : song) (npo_cover_url : option string) :
  Py.truthy_str npo_cover_url = false ->
  reliable env ->
  cover_art_stamp_q (db w) (d_id s) = None ->
  Py.truthy_str (d_cover_art_url s) = false \/ d_cover_art_cached_at s = None ->
  exists w',
    match search_musicbrainz env (1 + calls w) (d_artist s) (d_title s) with
    | (mb, Some (String c u)) =>
        Coordinator._fetch_and_cache_cover_art env s npo_cover_url w
          = (Ok (Coordinator.with_cover_art_url s (String c u)), w') /\
        trace w' = trace w ++ [CoverLookup (d_artist s) (d_title s);
                               CoverArtWrite (d_id s) (String c u) mb] /\
        db w' = update_cover_art_q (db w) (d_id s) (String c u) mb
                                   (clock env (3 + calls w))
    | _ =>
        Coordinator._fetch_and_cache_cover_art env s npo_cover_url w
          = (Ok s, w') /\
        trace w' = trace w ++ [CoverLookup (d_artist s) (d_title s)] /\
        db w' = db w
    end.
Proof.
  intros N R Hs D.
  assert (CoverArtClient.get_cover_art env (d_artist s) (d_title s)
            (d_cover_art_url s) (d_cover_art_cached_at s)
          = try_except
              (r <- CoverArtClient._search_musicbrainz env (d_artist s)
                      (d_title s) ;;
               let (musicbrainz_id, cover_url) := r in
               if Py.truthy_str cover_url then ret (cover_url, musicbrainz_id)
               else ret (None, musicbrainz_id))
              (fun _ => ret (None, None))) as G.
  { unfold CoverArtClient.get_cover_art.
    destruct D as [-> | ->]; [reflexivity|].
    destruct (Py.truthy_str (d_cover_art_url s)); reflexivity. }
  destruct (search_musicbrainz env (1 + calls w) (d_artist s) (d_title s))
    as [mb found] eqn:Q.
  destruct (Coordinator._fetch_and_cache_cover_art env s npo_cover_url w)
    as [r0 w0] eqn:Run.
  rewrite (fetch_and_cache_without_npo_url env s _ w N) in Run.
  unfold bind at 1 in Run.
  rewrite (is_cover_art_cached_run env _ w (R _)), Hs, G in Run.
  unfold bind, try_except, CoverArtClient._search_musicbrainz, emit, modify,
    ret in Run. simpl in Run, Q. rewrite Q in Run.
  exists w0.
  destruct found as [[|c u]|]; simpl in Run.
  - injection Run as <- <-. now repeat split.
  - unfold DatabaseManager.update_cover_art, bind, emit, modify, io, now, ret
      in Run.
    simpl in Run. rewrite (R _) in Run. injection Run as <- <-.
    simpl. rewrite <- app_assoc. now repeat split.
  - injection Run as <- <-. now repeat split.
Qed.

Lemma missing_cover_art_is_looked_up_once_witness :
  exists w',
    Coordinator._fetch_and_cache_cover_art Samples.calm
      (dict_of_row Samples.eagles) None Samples.fresh
    = (Ok (Coordinator.with_cover_art_url (dict_of_row Samples.eagles)
             "https://coverart.example/front-500.jpg"), w') /\
    trace w' = [CoverLookup "Eagles" "Hotel California";
                CoverArtWrite 2 "https://coverart.example/front-500.jpg"
                              (Some "mbid-1")].
Proof.
  destruct (missing_cover_art_is_looked_up_once Samples.calm Samples.fresh
              (dict_of_row Samples.eagles) None)
    as [w' H]; try reflexivity; [intros k; reflexivity | now left |].
  exists w'. simpl in H. destruct H as (H & T & _). split; [exact H|exact T].
Defined.

(** X15.  With no cover URL in the observation and cover art stored for
    the song 24 hours ago or more, the dictionary of the song carries the
    stored URL and time stamp, and [get_cover_art] raises [TypeError] when
    it subtracts the stored time stamp from the time of day: nothing is
    looked up, nothing is written, and the exception leaves
    [_fetch_and_cache_cover_art]. *)
Theorem expired_cover_art_cache_raises
  (env : environment) (w : world) (s : song) (npo_cover_url : option string)
  (cached_at : Z) :
  Py.truthy_str npo_cover_url = false ->
  io_fault env (calls w) = false ->
  cover_art_stamp_q (db w) (d_id s) = Some cached_at ->
  hours CACHE_DURATION_HOURS <= clock env (1 + calls w) - cached_at ->
  Py.truthy_str (d_cover_art_url s) = true ->
  d_cover_art_cached_at s <> None ->
  Coordinator._fetch_and_cache_cover_art env s npo_cover_url w
    = (Raise TypeError, bump (bump (bump w))) /\
  trace (bump (bump (bump w))) = trace w /\
  db (bump (bump (bump w))) = db w.
Proof.
  intros N F S L U C. split; [|now split].
  rewrite (fetch_and_cache_without_npo_url env s _ w N).
  unfold bind at 1. rewrite (is_cover_art_cached_run env _ w F), S.
  unfold cache_valid. apply Z.ltb_ge in L. simpl in L. rewrite L.
  unfold bind, CoverArtClient.get_cover_art. rewrite U.
  destruct (d_cover_art_cached_at s); [reflexivity|now contradiction C].
Qed.

Lemma expired_cover_art_cache_raises_witness :
  exists w',
    Coordinator._fetch_and_cache_cover_art Samples.calm
      (dict_of_row Samples.queen) None Samples.fresh
    = (Raise TypeError, w') /\
    trace w' = [].
Proof.
  destruct (expired_cover_art_cache_raises Samples.calm Samples.fresh
              (dict_of_row Samples.queen) None 0)
    as (H & T & _); try reflexivity; try discriminate.
  eexists. split; [exact H|exact T].
Defined.

End CoverArtFacts.

(* ------------------------------------------------------------------ *)
(** ** Notifications *)

Module NotifyFacts.
Import Database Spec FrameFacts StorageFacts EffectFacts RuleFacts WriteFacts.

Lemma contains_char sep c r :
  Py.contains (String sep "") (String c r)
  = (Ascii.eqb c sep || Py.contains (String sep "") r)%bool.
Proof.
  rewrite contains_unfold. f_equal. simpl.
  destruct (ascii_dec sep c) as [<-|N].
  - rewrite Ascii.eqb_refl. now destruct r.
  - symmetry. apply Ascii.eqb_neq. congruence.
Qed.

Lemma contains_char_empty sep : Py.contains (String sep "") "" = false.
Proof. reflexivity. Qed.

Lemma split_once_spec sep s :
  match Py.split_once sep s with
  | Some (a, b) =>
      s = (a ++ String sep b)%string /\
      Py.contains (String sep "") a = false /\
      Py.contains (String sep "") s = true
  | None => Py.contains (String sep "") s = false
  end.
Proof.
  induction s as [|c r IH]; [reflexivity|].
  rewrite contains_char. simpl.
  destruct (Ascii.eqb c sep) eqn:E.
  - apply Ascii.eqb_eq in E. subst c. now repeat split.
  - destruct (Py.split_once sep r) as [[a b]|].
    + destruct IH as (-> & Ha & Hs). rewrite contains_char, E, Ha, Hs.
      now repeat split.
    + exact IH.
Qed.

(** X16.  [_send_notification] never raises and changes no state of the
    integration: whatever the services answer, every configured target is
    called exactly once, in the order of the list, a failed call not
    keeping the later targets from being called. *)
Theorem send_notification_reaches_every_target
  (env : environment) (w : world) (s : song) (st : settings)
  (is_current : bool) :
  exists w',
    Coordinator._send_notification env s st is_current w = (Ok tt, w') /\
    db w' = db w /\
    trace w' = trace w ++
      map (fun target =>
             let '(domain, service, p) :=
               Coordinator.service_of_target s is_current target in
             ServiceCall domain service p)
          (notification_targets st) /\
    last_song_id w' = last_song_id w /\ data w' = data w.
Proof.
  destruct (send_loop_exact env s is_current (notification_targets st) w)
    as (w' & H & Hd & Ht).
  exists w'. unfold Coordinator._send_notification.
  split; [exact H|]. split; [exact Hd|]. split; [exact Ht|].
  destruct (preserved_send_loop env s is_current (notification_targets st)
              w _ w' H) as ((Hl & Hdata & _) & _).
  now split.
Qed.

(** X17.  The service a target names.  The target "persistent_notification"
    is the service [persistent_notification.create], called with the
    message and an id made of the song id and the kind of notification.
    Any other target is called with the message and the cover URL of the
    song: one with a dot in it as the domain before its first dot and the
    service after it, one without as a service of the domain [notify]. *)
Theorem notification_target_names_the_service
  (s : song) (is_current : bool) (target : string) :
  (target = "persistent_notification" ->
   Coordinator.service_of_target s is_current target
   = ("persistent_notification", "create",
      Persistent (Coordinator.compose_message s is_current) (d_id s)
                 is_current)) /\
  (target <> "persistent_notification" ->
   exists domain service,
     Coordinator.service_of_target s is_current target
     = (domain, service,
        Notify (Coordinator.compose_message s is_current)
               (d_cover_art_url s)) /\
     (Py.contains "." target = true ->
      target = (domain ++ "." ++ service)%string /\
      Py.contains "." domain = false) /\
     (Py.contains "." target = false ->
      domain = "notify" /\ service = target)).
Proof.
  unfold Coordinator.service_of_target. split.
  - intros ->. reflexivity.
  - intros N. apply String.eqb_neq in N. rewrite N.
    pose proof (split_once_spec "."%char target) as H.
    destruct (Py.split_once "." target) as [[a b]|].
    + destruct H as (E & Ha & Ht). exists a, b.
      split; [reflexivity|]. split; [now intros _|].
      intros C. congruence.
    + exists "notify", target.
      split; [reflexivity|]. split; [|now intros _].
      intros C. congruence.
Qed.

Lemma notification_target_names_the_service_witness :
  Coordinator.service_of_target (dict_of_row Samples.queen) true
                                "notify.mobile_app.phone"
  = ("notify", "mobile_app.phone",
     Notify (Coordinator.compose_message (dict_of_row Samples.queen) true)
            (Some "https://img.example/queen.jpg")) /\
  fst (fst (Coordinator.service_of_target (dict_of_row Samples.queen) true
                                          "mobile_app_phone")) = "notify".
Proof.
  destruct (notification_target_names_the_service
              (dict_of_row Samples.queen) true "mobile_app_phone")
    as [_ H].
  destruct H as (d & sv & E & _ & H); [discriminate|].
  split; [reflexivity|].
  rewrite E. simpl. apply H. reflexivity.
Defined.

Lemma check_and_send_off
  (env : environment) (w : world) (s : song) (is_current : bool) :
  (if is_current
   then notify_current_song (get_notification_settings_q (db w))
   else notify_upcoming_song (get_notification_settings_q (db w))) = false ->
  forall r w',
    Coordinator._check_and_send_notifications env s is_current w = (r, w') ->
    trace w' = trace w /\ db w' = db w.
Proof.
  set (st := get_notification_settings_q (db w)).
  set (enabled :=
         if is_current then notify_current_song st
         else notify_upcoming_song st).
  intros Off r w'.
  unfold Coordinator._check_and_send_notifications. unfold bind at 1.
  destruct (DatabaseManager.get_notification_settings env w)
    as [[st'|e] w1] eqn:G.
  - pose proof (get_notification_settings_ok env w st' w1 G) as ->.
    destruct (moves_silent w w1
                (preserved_get_notification_settings env true no_event
                   w _ w1 G)) as (Hd & Ht & _).
    fold st. unfold enabled in Off.
    destruct is_current; simpl; rewrite Off; simpl;
      intros [= <- <-]; now split.
  - destruct (moves_silent w w1
                (preserved_get_notification_settings env true no_event
                   w _ w1 G)) as (Hd & Ht & _).
    intros [= <- <-]. now split.
Qed.

Lemma check_and_send_on
  (env : environment) (w : world) (s : song) (is_current : bool) :
  reliable env ->
  exists w',
    Coordinator._check_and_send_notifications env s is_current w
      = (Ok tt, w') /\
    db w' = db w /\
    trace w' = trace w ++
      (if ((if is_current
            then notify_current_song (get_notification_settings_q (db w))
            else notify_upcoming_song (get_notification_settings_q (db w))) &&
           Coordinator.matches_rules (get_notification_rules_q (db w) true) s)%bool
       then dispatch_events s is_current
              (notification_targets (get_notification_settings_q (db w)))
       else []).
Proof.
  set (st := get_notification_settings_q (db w)).
  set (enabled :=
         if is_current then notify_current_song st
         else notify_upcoming_song st).
  intros R.
  unfold Coordinator._check_and_send_notifications. unfold bind at 1.
  rewrite (get_notification_settings_reliable env w R). fold st.
  assert ((is_current && negb (notify_current_song st))%bool = true \/
          (is_current = false /\ negb (notify_upcoming_song st) = true) \/
          enabled = true) as C.
  { unfold enabled. destruct is_current; simpl.
    - destruct (notify_current_song st); auto.
    - destruct (notify_upcoming_song st); auto. }
  destruct C as [C|[[C1 C2]|C]].
  - rewrite C. exists (bump w).
    assert (enabled = false) as ->.
    { unfold enabled. apply andb_true_iff in C. destruct C as [-> C].
      now apply negb_true_iff in C. }
    simpl. rewrite app_nil_r. now repeat split.
  - subst is_current. simpl. rewrite C2. exists (bump w).
    assert (enabled = false) as -> by (now apply negb_true_iff in C2).
    simpl. rewrite app_nil_r. now repeat split.
  - assert ((is_current && negb (notify_current_song st))%bool = false) as ->.
    { unfold enabled in C. destruct is_current; [now rewrite C|reflexivity]. }
    assert ((negb is_current && negb (notify_upcoming_song st))%bool = false)
      as ->.
    { unfold enabled in C. destruct is_current; [reflexivity|now rewrite C]. }
    rewrite C. simpl. unfold bind at 1.
    rewrite (matches_notification_rules_reliable env s (bump w) R).
    change (db (bump w)) with (db w).
    destruct (Coordinator.matches_rules
                (get_notification_rules_q (db w) true) s).
    + destruct (send_loop_exact env s is_current (notification_targets st)
                  (bump (bump w))) as (w' & H & Hd & Ht).
      exists w'. unfold Coordinator._send_notification.
      split; [exact H|]. split; [exact Hd|exact Ht].
    + exists (bump (bump w)). rewrite app_nil_r. now repeat split.
Qed.

(** X18.  [_check_and_send_notifications] honours the two toggles.  With
    the toggle of the kind of notification off (current or upcoming) no
    service is called, whatever the rules are and even when storage fails.
    When storage answers, the method returns, and the calls it makes are
    those of one notification per target when the toggle is on and an
    enabled rule applies to the song, and none at all otherwise. *)
Theorem notifications_respect_the_toggles
  (env : environment) (w : world) (s : song) (is_current : bool) :
  let st := get_notification_settings_q (db w) in
  let enabled :=
    if is_current then notify_current_song st else notify_upcoming_song st in
  (enabled = false ->
   forall r w',
     Coordinator._check_and_send_notifications env s is_current w = (r, w') ->
     trace w' = trace w /\ db w' = db w) /\
  (reliable env ->
   exists w',
     Coordinator._check_and_send_notifications env s is_current w
       = (Ok tt, w') /\
     db w' = db w /\
     trace w' = trace w ++
       (if (enabled &&
            Coordinator.matches_rules (get_notification_rules_q (db w) true) s)%bool
        then dispatch_events s is_current (notification_targets st)
        else [])).
Proof.
  intros st enabled. split.
  - intros Off r w' H. exact (check_and_send_off env w s is_current Off r w' H).
  - intros R. exact (check_and_send_on env w s is_current R).
Qed.

Lemma notifications_respect_the_toggles_witness :
  exists w',
    Coordinator._check_and_send_notifications Samples.calm
      (dict_of_row Samples.queen) false
      (set_db (Store.update_notification_settings_q Samples.catalog None None
                 (Some false) None) Samples.fresh)
    = (Ok tt, w') /\
    trace w' = [].
Proof.
  destruct (notifications_respect_the_toggles Samples.calm
              (set_db (Store.update_notification_settings_q Samples.catalog
                         None None (Some false) None) Samples.fresh)
              (dict_of_row Samples.queen) false) as [Off On].
  destruct On as (w' & H & _); [intros k; reflexivity|].
  exists w'. split; [exact H|].
  destruct (Off eq_refl _ _ H) as [T _]. exact T.
Defined.

(** X19.  With no notification settings stored, the defaults apply: a
    current song that an enabled rule applies to is announced through
    [persistent_notification.create] and through nothing else, and no
    upcoming song is ever announced, neither by the check of one song nor
    by the check of the upcoming window. *)
Theorem default_settings_announce_the_current_song_only
  (env : environment) (w : world) (s : song) :
  notification_settings (db w) = None ->
  reliable env ->
  (exists w',
      Coordinator._check_and_send_notifications env s true w = (Ok tt, w') /\
      trace w' = trace w ++
        (if Coordinator.matches_rules (get_notification_rules_q (db w) true) s
         then [ServiceCall "persistent_notification" "create"
                 (Persistent (Coordinator.compose_message s true) (d_id s)
                             true)]
         else [])) /\
  (exists w',
      Coordinator._check_and_send_notifications env s false w = (Ok tt, w') /\
      trace w' = trace w) /\
  (exists w',
      Coordinator.async_check_upcoming_notifications env w = (Ok tt, w') /\
      trace w' = trace w).
Proof.
  intros N R.
  assert (get_notification_settings_q (db w)
          = {| notification_targets := default_targets;
               notify_current_song := true;
               notify_upcoming_song := false;
               upcoming_notify_positions := default_positions |}) as St
    by (unfold get_notification_settings_q; now rewrite N).
  split; [|split].
  - destruct (check_and_send_on env w s true R) as (w' & E & _ & T).
    exists w'. split; [exact E|].
    rewrite T, St. simpl.
    destruct (Coordinator.matches_rules _ s); reflexivity.
  - destruct (check_and_send_on env w s false R) as (w' & E & _ & T).
    exists w'. split; [exact E|].
    rewrite T, St. simpl. now rewrite app_nil_r.
  - unfold Coordinator.async_check_upcoming_notifications, bind, gets.
    destruct (Coordinator.published_song w); [|now exists w].
    rewrite (get_notification_settings_reliable env w R), St. simpl.
    now exists (bump w).
Qed.

Lemma default_settings_announce_the_current_song_only_witness :
  exists w',
    Coordinator._check_and_send_notifications Samples.calm
      (dict_of_row Samples.queen) true
      (set_db (Store.with_notification_settings Samples.catalog None)
              Samples.fresh)
    = (Ok tt, w') /\
    trace w'
    = [ServiceCall "persistent_notification" "create"
         (Persistent
            (Coordinator.compose_message (dict_of_row Samples.queen) true)
            1 true)].
Proof.
  destruct (default_settings_announce_the_current_song_only Samples.calm
              (set_db (Store.with_notification_settings Samples.catalog None)
                      Samples.fresh)
              (dict_of_row Samples.queen)) as ((w' & E & T) & _);
    [reflexivity | intros k; reflexivity |].
  exists w'. split; [exact E|exact T].
Defined.

End NotifyFacts.

(* ------------------------------------------------------------------ *)
(** ** A tick and the storage *)

Module PollFacts.
Import Database Spec Terms FrameFacts StorageFacts EffectFacts WriteFacts.
Import ClientFacts MatcherFacts TickFacts.

Lemma same_catalog_refl d : same_catalog d d.
Proof. now repeat split. Qed.

Lemma keeps_catalog_refl w : keeps_catalog w w.
Proof. apply same_catalog_refl. Qed.

Lemma keeps_catalog_trans w1 w2 w3 :
  keeps_catalog w1 w2 -> keeps_catalog w2 w3 -> keeps_catalog w1 w3.
Proof.
  intros (A1 & A2 & A3 & A4 & A5) (B1 & B2 & B3 & B4 & B5).
  repeat split; congruence.
Qed.

Lemma kept {A} (P : event -> Prop) (m : M A) :
  preserved (moves true P) m -> preserved keeps_catalog m.
Proof.
  apply preserved_weaken. intros w w' (_ & Hd & _).
  unfold keeps_catalog. rewrite (Hd eq_refl). apply same_catalog_refl.
Qed.

Section Keeps.
Variable env : environment.

Lemma keeps_update_cover_art song_id url mb :
  preserved keeps_catalog
            (DatabaseManager.update_cover_art env song_id url mb).
Proof.
  intros w [[]|e] w' H.
  - apply update_cover_art_ok in H. subst w'.
    unfold keeps_catalog, same_catalog.
    change (db (set_db ?d _)) with d. unfold update_cover_art_q.
    cbn [songs position_history fun_facts notification_rules
         notification_settings].
    split; [|now repeat split].
    rewrite map_map. apply map_ext. intros r.
    destruct (row_id r =? song_id); reflexivity.
  - apply update_cover_art_raises in H. destruct H as (_ & Hd & _).
    unfold keeps_catalog. rewrite Hd. apply same_catalog_refl.
Qed.

Lemma keeps_update_playlist_state position song_id md :
  preserved keeps_catalog
            (DatabaseManager.update_playlist_state env position song_id md).
Proof.
  intros w [[]|e] w' H.
  - apply update_playlist_state_ok in H. subst w'.
    unfold keeps_catalog. simpl. now repeat split.
  - apply update_playlist_state_raises in H.
    unfold keeps_catalog. rewrite H. apply same_catalog_refl.
Qed.

Ltac keep_step :=
  first
    [ apply preserved_ret; [apply keeps_catalog_refl]
    | apply preserved_raise; [apply keeps_catalog_refl]
    | apply preserved_gets; [apply keeps_catalog_refl]
    | apply keeps_update_cover_art
    | apply keeps_update_playlist_state
    | apply (kept no_event); apply preserved_is_cover_art_cached
    | apply (kept is_cover_art); apply preserved_get_cover_art
    | apply (kept (is_dispatch true)); apply preserved_check_and_send
    | apply (kept (is_dispatch false)); apply preserved_check_and_send
    | apply (kept (is_dispatch false)); apply preserved_check_upcoming
    | apply (kept is_upstream); apply preserved_get_current_metadata
    | apply (kept no_event); apply preserved_match_song
    | apply preserved_modify; intros; apply same_catalog_refl
    | apply preserved_bind; [apply keeps_catalog_trans | | intros ]
    | apply preserved_try_except; [apply keeps_catalog_trans | | intros ] ].

Ltac keep := repeat (first [keep_step | frame_case]).

Lemma keeps_fetch_and_cache_cover_art s url :
  preserved keeps_catalog (Coordinator._fetch_and_cache_cover_art env s url).
Proof. unfold Coordinator._fetch_and_cache_cover_art. keep. Qed.

Lemma keeps_async_update_data :
  preserved keeps_catalog (Coordinator._async_update_data env).
Proof.
  unfold Coordinator._async_update_data, Coordinator.update_body,
    Coordinator.on_song_changed.
  keep; try apply keeps_fetch_and_cache_cover_art.
Qed.
End Keeps.

Lemma bind_ok {A B} (m : M A) (k : A -> M B) w b w' :
  bind m k w = (Ok b, w') ->
  exists a w1, m w = (Ok a, w1) /\ k a w1 = (Ok b, w').
Proof.
  unfold bind. destruct (m w) as [[a|e] w1]; [|discriminate].
  intros H. now exists a, w1.
Qed.

Lemma ret_ok {A} (a b : A) w w' : ret a w = (Ok b, w') -> b = a /\ w' = w.
Proof. intros [= <- <-]. now split. Qed.

Lemma fetch_and_cache_same_song env s url w s1 w1 :
  Coordinator._fetch_and_cache_cover_art env s url w = (Ok s1, w1) ->
  d_id s1 = d_id s /\ d_position s1 = d_position s /\
  d_artist s1 = d_artist s /\ d_title s1 = d_title s.
Proof.
  assert (forall u mb w s1 w1,
             (DatabaseManager.update_cover_art env (d_id s) u mb ;;
              ret (Coordinator.with_cover_art_url s u)) w = (Ok s1, w1) ->
             d_id s1 = d_id s /\ d_position s1 = d_position s /\
             d_artist s1 = d_artist s /\ d_title s1 = d_title s) as W.
  { intros u mb v t v1 H. apply bind_ok in H.
    destruct H as (_ & v2 & _ & H). apply ret_ok in H. destruct H as [-> _].
    now repeat split. }
  unfold Coordinator._fetch_and_cache_cover_art.
  destruct url as [[|c u]|]; try apply W.
  all: intros H; apply bind_ok in H; destruct H as ([|] & v & _ & H);
    try (apply ret_ok in H; destruct H as [-> _]; now repeat split).
  all: apply bind_ok in H; destruct H as ([[[|c u]|] mb] & v2 & _ & H);
    try (apply ret_ok in H; destruct H as [-> _]; now repeat split).
  all: eapply W; exact H.
Qed.

(** X20.  Whatever a tick does and however it ends, it leaves the catalog
    alone: ids, positions, artists, titles and years of the songs, the
    position history, the fun facts, the notification rules and the
    notification settings are as before (so unique positions stay unique);
    only the cover-art columns and the playback state can differ. *)
Theorem tick_keeps_the_catalog
  (env : environment) (w w' : world) (r : outcome tick_data) :
  Coordinator._async_update_data env w = (r, w') ->
  same_catalog (db w) (db w') /\
  map row_position (songs (db w')) = map row_position (songs (db w)) /\
  map row_id (songs (db w')) = map row_id (songs (db w)).
Proof.
  intros H. pose proof (keeps_async_update_data env w r w' H) as K.
  split; [exact K|]. destruct K as (K & _).
  split.
  - apply (f_equal (map (fun t : Z * Z * string * string * option Z =>
                           snd (fst (fst (fst t)))))) in K.
    now rewrite !map_map in K.
  - apply (f_equal (map (fun t : Z * Z * string * string * option Z =>
                           fst (fst (fst (fst t)))))) in K.
    now rewrite !map_map in K.
Qed.

Lemma tick_keeps_the_catalog_witness :
  same_catalog Samples.catalog (db Samples.playing) /\
  row_cover_art_url Samples.eagles = None /\
  map row_cover_art_url (songs (db Samples.playing))
  = [Some "https://img.example/queen.jpg";
     Some "https://coverart.example/front-500.jpg"; None; None].
Proof.
  destruct (Coordinator._async_update_data Samples.calm Samples.fresh)
    as [r w'] eqn:E.
  destruct (tick_keeps_the_catalog Samples.calm Samples.fresh w' r E)
    as (K & _).
  vm_compute in E. injection E as _ <-.
  split; [exact K|]. split; reflexivity.
Defined.

(** X21.  A tick that returns normally either reports a changed song, and
    then the song it returns is the one now tracked, it differs from the one
    tracked before, and the playback state in storage holds its position,
    its id and the observation; or it reports no change, and then storage
    and the tracked id are as before, a returned song being the one that
    was tracked. *)
Theorem playlist_state_follows_the_transitions
  (env : environment) (w w' : world) (d : tick_data) :
  Coordinator._async_update_data env w = (Ok d, w') ->
  if song_changed d
  then
    exists s md t,
      current_song d = Some s /\ npo_metadata d = Some md /\
      last_song_id w <> Some (d_id s) /\
      last_song_id w' = Some (d_id s) /\
      playlist_state (db w')
      = Some {| ps_current_position := d_position s;
                ps_current_song_id := d_id s;
                ps_detected_at := t;
                ps_npo_metadata :=
                  (md_artist md, md_title md, md_cover_art_url md) |}
  else
    db w' = db w /\ last_song_id w' = last_song_id w /\
    forall s, current_song d = Some s -> last_song_id w = Some (d_id s).
Proof.
  unfold Coordinator._async_update_data, try_except.
  destruct (Coordinator.update_body env w) as [[d0|e] w0] eqn:B;
    [|discriminate].
  intros [= <- <-]. unfold Coordinator.update_body in B.
  apply bind_ok in B. destruct B as (npo & w1 & G & B).
  destruct (preserved_get_current_metadata env true w _ w1 G)
    as ((L1 & _) & D1 & _). specialize (D1 eq_refl).
  destruct npo as [md|].
  2:{ apply ret_ok in B. destruct B as [-> ->]. simpl.
      split; [exact D1|]. split; [exact L1|discriminate]. }
  apply bind_ok in B. destruct B as (sm & w2 & Hm & B).
  destruct (preserved_match_song env true no_event _ _ w1 _ w2 Hm)
    as ((L2 & _) & D2 & _). specialize (D2 eq_refl).
  destruct sm as [sm|].
  2:{ apply ret_ok in B. destruct B as [-> ->]. simpl.
      split; [congruence|]. split; [congruence|discriminate]. }
  apply bind_ok in B. destruct B as (last & w3 & Hl & B).
  injection Hl as <- <-.
  apply bind_ok in B. destruct B as (s & w3 & Hs & B).
  apply ret_ok in B. destruct B as [-> ->]. simpl.
  destruct (Coordinator.differs (d_id sm) (last_song_id w2)) eqn:Df.
  - assert (last_song_id w <> Some (d_id sm)) as Nl.
    { intros E.
      assert (Coordinator.differs (d_id sm) (last_song_id w2) = false)
        by (apply differs_false_iff; congruence).
      congruence. }
    pose proof (on_song_changed_tracks env _ _ _ _ _ Hs) as (Lt & _).
    rewrite on_song_changed_unfold in Hs. unfold side_effects in Hs.
    apply bind_ok in Hs. destruct Hs as (s1 & a & Hf & Hs).
    apply bind_ok in Hs. destruct Hs as ([] & b & Hp & Hs).
    apply bind_ok in Hs. destruct Hs as ([] & c & Hc & Hs).
    apply bind_ok in Hs. destruct Hs as ([] & c' & Hu & Hs).
    apply ret_ok in Hs. destruct Hs as [-> ->].
    destruct (fetch_and_cache_same_song env _ _ _ _ _ Hf) as (Ei & _).
    destruct (preserved_check_and_send env s1 true b _ c Hc) as (_ & Dc & _).
    destruct (preserved_check_upcoming env c _ c' Hu) as (_ & Du & _).
    apply update_playlist_state_ok in Hp.
    exists s1, md, (clock env (S (calls a))).
    split; [reflexivity|]. split; [reflexivity|].
    split; [now rewrite Ei|]. split; [now rewrite Ei|].
    rewrite (Du eq_refl), (Dc eq_refl), Hp. reflexivity.
  - apply ret_ok in Hs. destruct Hs as [-> ->].
    split; [congruence|]. split; [congruence|].
    intros s [= <-]. apply differs_false_iff in Df. congruence.
Qed.

Lemma playlist_state_follows_the_transitions_witness :
  exists d w' t,
    Coordinator._async_update_data Samples.calm Samples.fresh = (Ok d, w') /\
    song_changed d = true /\
    playlist_state (db w')
    = Some {| ps_current_position := 500;
              ps_current_song_id := 2;
              ps_detected_at := t;
              ps_npo_metadata := ("EAGLES", "Hotel California", None) |}.
Proof.
  destruct (Coordinator._async_update_data Samples.calm Samples.fresh)
    as [r w'] eqn:E.
  assert (exists d, r = Ok d /\ song_changed d = true) as (d & -> & C).
  { vm_compute in E. injection E as <- _. eexists. split; reflexivity. }
  pose proof (playlist_state_follows_the_transitions
                Samples.calm Samples.fresh w' d E) as H.
  rewrite C in H. destruct H as (s & md & t & Hs & Hmd & _ & _ & P).
  exists d, w', t. split; [reflexivity|]. split; [exact C|].
  rewrite P. vm_compute in E. injection E as <- <-.
  injection Hs as <-. injection Hmd as <-. reflexivity.
Defined.

Lemma get_current_metadata_cold env w :
  cached_metadata w = None \/ last_fetch w = None ->
  NPOClient.get_current_metadata env w = NPOClient.fallback_chain env w.
Proof.
  unfold NPOClient.get_current_metadata, bind, gets.
  intros [H|H]; rewrite H; [reflexivity|].
  destruct (cached_metadata w); reflexivity.
Qed.

(** X22.  A tick that resolves no song.  With nothing cached and all
    three sources failing, the tick returns the "No metadata available"
    dictionary after asking each source once; with an observation that no
    catalog entry matches (none reaches a combined score of 85), it returns the
    "Not in Top 2000" dictionary carrying the observation.  In both cases
    no song is reported, storage and the tracked id are untouched and only
    the sources were contacted.  When the matcher raises, the tick fails
    with [UpdateFailed], storage and the tracked id again untouched. *)
Theorem tick_without_a_resolved_song (env : environment) (w : world) :
  (cached_metadata w = None \/ last_fetch w = None ->
   found (upstream env (calls w) Website) = None ->
   found (upstream env (1 + calls w) Icecast) = None ->
   found (upstream env (2 + calls w) Onlineradiobox) = None ->
   exists w',
     Coordinator._async_update_data env w
       = (Ok {| current_song := None; song_changed := false;
                error := Some NoMetadataAvailable; npo_metadata := None |},
          w') /\
     trace w' = trace w ++ [Upstream Website; Upstream Icecast;
                            Upstream Onlineradiobox] /\
     db w' = db w /\ last_song_id w' = last_song_id w) /\
  (forall md w1,
      NPOClient.get_current_metadata env w = (Ok (Some md), w1) ->
      reliable env ->
      Forall (fun row =>
                (FUZZY_MATCH_THRESHOLD
                 <=? combined_score (partial_ratio env) (md_artist md)
                                    (md_title md) row)%float = false)
             (songs (db w)) ->
      exists w',
        Coordinator._async_update_data env w
          = (Ok {| current_song := None; song_changed := false;
                   error := Some (NotInTop2000 (md_artist md) (md_title md));
                   npo_metadata := Some md |}, w') /\
        db w' = db w /\ last_song_id w' = last_song_id w /\
        exists new, trace w' = trace w ++ new /\ Forall is_upstream new) /\
  (forall md w1 e w2,
      NPOClient.get_current_metadata env w = (Ok (Some md), w1) ->
      DatabaseManager.match_song env (md_artist md) (md_title md) w1
        = (Raise e, w2) ->
      Coordinator._async_update_data env w = (Raise UpdateFailed, w2) /\
      db w2 = db w /\ last_song_id w2 = last_song_id w).
Proof.
  split; [|split].
  - intros C F1 F2 F3.
    destruct (fallback_chain_first_success env w) as (_ & _ & _ & N).
    eexists. split.
    + unfold Coordinator._async_update_data, try_except,
        Coordinator.update_body. unfold bind at 1.
      rewrite (get_current_metadata_cold env w C).
      rewrite (proj2 (N _) (conj F1 (conj F2 (conj F3 eq_refl)))).
      reflexivity.
    + simpl. rewrite <- !app_assoc. now repeat split.
  - intros md w1 G R F.
    destruct (preserved_get_current_metadata env true w _ w1 G)
      as ((L1 & _) & D1 & new & T1 & U1). specialize (D1 eq_refl).
    destruct (match_song_reliable env (md_artist md) (md_title md) w1 R)
      as (w2 & Hm).
    assert (match_song_q (partial_ratio env) (db w1) (md_artist md)
                         (md_title md) = None) as Hn.
    { apply match_song_q_none_iff. now rewrite D1. }
    rewrite Hn in Hm.
    pose proof (preserved_match_song env true no_event _ _ w1 _ w2 Hm) as M2.
    destruct (moves_silent w1 w2 M2) as (D2 & T2 & L2 & _).
    exists w2. split.
    + unfold Coordinator._async_update_data, try_except,
        Coordinator.update_body. unfold bind at 1. rewrite G.
      unfold bind at 1. rewrite Hm. reflexivity.
    + split; [congruence|]. split; [congruence|].
      exists new. split; [congruence|exact U1].
  - intros md w1 e w2 G Hm.
    destruct (preserved_get_current_metadata env true w _ w1 G)
      as ((L1 & _) & D1 & _). specialize (D1 eq_refl).
    pose proof (preserved_match_song env true no_event _ _ w1 _ w2 Hm) as M2.
    destruct (moves_silent w1 w2 M2) as (D2 & _ & L2 & _).
    split.
    + unfold Coordinator._async_update_data, try_except,
        Coordinator.update_body. unfold bind at 1. rewrite G.
      unfold bind at 1. rewrite Hm. reflexivity.
    + split; congruence.
Qed.

Lemma tick_without_a_resolved_song_witness :
  exists w',
    Coordinator._async_update_data Fixtures.off_air Samples.fresh
    = (Ok {| current_song := None; song_changed := false;
             error := Some NoMetadataAvailable; npo_metadata := None |}, w') /\
    trace w' = [Upstream Website; Upstream Icecast; Upstream Onlineradiobox].
Proof.
  destruct (tick_without_a_resolved_song Fixtures.off_air Samples.fresh)
    as (H & _).
  destruct H as (w' & E & T & _); try reflexivity; [now left|].
  exists w'. split; [exact E|exact T].
Defined.

Lemma changed_tick_steps env w d w' :
  Coordinator._async_update_data env w = (Ok d, w') ->
  song_changed d = true ->
  exists md sm s w1 w2 a b c,
    NPOClient.get_current_metadata env w = (Ok (Some md), w1) /\
    DatabaseManager.match_song env (md_artist md) (md_title md) w1
      = (Ok (Some sm), w2) /\
    last_song_id w <> Some (d_id sm) /\
    Coordinator._fetch_and_cache_cover_art env sm (md_cover_art_url md)
      (set_last_song_id (d_id sm) w2) = (Ok s, a) /\
    DatabaseManager.update_playlist_state env (d_position s) (d_id s) md a
      = (Ok tt, b) /\
    Coordinator._check_and_send_notifications env s true b = (Ok tt, c) /\
    Coordinator.async_check_upcoming_notifications env c = (Ok tt, w') /\
    d = changed_result s md /\
    db w2 = db w /\ db c = db b /\ db w' = db c.
Proof.
  unfold Coordinator._async_update_data, try_except.
  destruct (Coordinator.update_body env w) as [[d0|e] w0] eqn:B;
    [|discriminate].
  intros [= <- <-] Ch. unfold Coordinator.update_body in B.
  apply bind_ok in B. destruct B as (npo & w1 & G & B).
  destruct (preserved_get_current_metadata env true w _ w1 G)
    as ((L1 & _) & D1 & _). specialize (D1 eq_refl).
  destruct npo as [md|].
  2:{ apply ret_ok in B. destruct B as [-> ->]. discriminate. }
  apply bind_ok in B. destruct B as (sm & w2 & Hm & B).
  destruct (preserved_match_song env true no_event _ _ w1 _ w2 Hm)
    as ((L2 & _) & D2 & _). specialize (D2 eq_refl).
  destruct sm as [sm|].
  2:{ apply ret_ok in B. destruct B as [-> ->]. discriminate. }
  apply bind_ok in B. destruct B as (last & w3 & Hl & B).
  injection Hl as <- <-.
  apply bind_ok in B. destruct B as (s & w3 & Hs & B).
  apply ret_ok in B. destruct B as [-> ->]. simpl in Ch.
  rewrite Ch in Hs.
  assert (last_song_id w <> Some (d_id sm)) as Nl.
  { intros E.
    assert (Coordinator.differs (d_id sm) (last_song_id w2) = false)
      by (apply differs_false_iff; congruence).
    congruence. }
  rewrite on_song_changed_unfold in Hs. unfold side_effects in Hs.
  apply bind_ok in Hs. destruct Hs as (s1 & a & Hf & Hs).
  apply bind_ok in Hs. destruct Hs as ([] & b & Hp & Hs).
  apply bind_ok in Hs. destruct Hs as ([] & c & Hc & Hs).
  apply bind_ok in Hs. destruct Hs as ([] & c' & Hu & Hs).
  apply ret_ok in Hs. destruct Hs as [-> ->].
  destruct (preserved_check_and_send env s1 true b _ c Hc) as (_ & Dc & _).
  destruct (preserved_check_upcoming env c _ c' Hu) as (_ & Du & _).
  exists md, sm, s1, w1, w2, a, b, c.
  rewrite Ch. repeat split; auto. congruence.
Qed.

(** X23.  A transition tick whose observation carries a cover URL hands
    the song out with that URL, and when the tick has returned every row of
    that song in storage holds the URL, stamped, with no MusicBrainz id:
    the URL of the source replaces whatever was cached. *)
Theorem transition_stores_the_cover_url_of_the_source
  (env : environment) (w w' : world) (d : tick_data) (md : metadata)
  (url : string) :
  Coordinator._async_update_data env w = (Ok d, w') ->
  song_changed d = true ->
  npo_metadata d = Some md ->
  md_cover_art_url md = Some url ->
  url <> "" ->
  exists s,
    current_song d = Some s /\
    d_cover_art_url s = Some url /\
    Forall (fun r =>
              row_id r = d_id s ->
              row_cover_art_url r = Some url /\
              row_musicbrainz_id r = None /\
              row_cover_art_cached_at r <> None)
           (songs (db w')) /\
    In (CoverArtWrite (d_id s) url None) (trace w').
Proof.
  intros H Ch Hmd Hu Hn.
  destruct (changed_tick_steps env w d w' H Ch)
    as (md' & sm & s & w1 & w2 & a & b & c & _ & _ & _ & Hf & Hp & Hc & Hup
        & -> & _ & Dc & Du).
  simpl in Hmd. injection Hmd as ->. rewrite Hu in Hf.
  destruct (CoverArtFacts.adopted_url_steps env _ sm url Hn _ _ Hf)
    as (Ta & -> & Da).
  exists (Coordinator.with_cover_art_url sm url).
  split; [reflexivity|]. split; [reflexivity|].
  apply update_playlist_state_ok in Hp.
  split.
  - rewrite Du, Dc, Hp. simpl. rewrite Da. simpl.
    apply Forall_forall. intros r Hr. apply in_map_iff in Hr.
    destruct Hr as (r0 & <- & _).
    destruct (row_id r0 =? d_id sm) eqn:E; simpl.
    + intros _. repeat split. discriminate.
    + intros Ei. apply Z.eqb_neq in E. contradiction.
  - destruct (preserved_check_and_send env _ true b _ c Hc)
      as (_ & _ & n1 & T1 & _).
    destruct (preserved_check_upcoming env c _ w' Hup)
      as (_ & _ & n2 & T2 & _).
    rewrite T2, T1, Hp. simpl. rewrite Ta.
    rewrite !in_app_iff. left. left. left. right. now left.
Qed.

Lemma transition_stores_the_cover_url_of_the_source_witness :
  exists d w' s,
    Coordinator._async_update_data Samples.calm_radar Samples.playing
      = (Ok d, w') /\
    current_song d = Some s /\
    d_id s = 3 /\
    d_cover_art_url s = Some "https://img.example/radar.jpg".
Proof.
  destruct (Coordinator._async_update_data Samples.calm_radar Samples.playing)
    as [r w'] eqn:E.
  assert (exists d, r = Ok d /\ song_changed d = true /\
                    npo_metadata d = Some Samples.radar_on_air)
    as (d & -> & C & M).
  { vm_compute in E. injection E as <- _. eexists. repeat split. }
  destruct (transition_stores_the_cover_url_of_the_source
              Samples.calm_radar Samples.playing w' d Samples.radar_on_air
              "https://img.example/radar.jpg" E C M eq_refl)
    as (s & Hs & Hu & _); [discriminate|].
  exists d, w', s. split; [reflexivity|]. split; [exact Hs|].
  split; [|exact Hu].
  vm_compute in E. injection E as <- _. injection Hs as <-. reflexivity.
Defined.

End PollFacts.

(* ------------------------------------------------------------------ *)
(** ** The sensors *)

Module SensorFacts.
Import Database Spec Terms FrameFacts StorageFacts EffectFacts HistoryFacts.

(** X24.  The position trend of a song that carries its history (as the
    songs of [match_song], [get_song_by_position] and [get_upcoming_songs]
    do) compares its position with the one it had in the most recent year
    before 2025 that is recorded for it: "up" by the number of places when
    that position was a larger number, "down" by the number of places when
    it was a smaller one, "same" when equal.  No trend is given exactly
    when nothing before 2025 is recorded for the song. *)
Theorem position_trend_compares_with_the_latest_earlier_year
  (d : database) (s : song) :
  d_position_history s = get_position_history_q d (d_id s) 5 ->
  match Sensor.position_trend s with
  | None =>
      forall h, In h (position_history d) -> ph_song_id h = d_id s ->
                2025 <= ph_year h
  | Some (dir, places) =>
      exists h,
        In h (position_history d) /\ ph_song_id h = d_id s /\
        ph_year h < 2025 /\
        (forall g, In g (position_history d) -> ph_song_id g = d_id s ->
                   ph_year g < 2025 -> ph_year g <= ph_year h) /\
        match dir with
        | Sensor.Up =>
            d_position s < ph_position h /\
            places = ph_position h - d_position s
        | Sensor.Down =>
            ph_position h < d_position s /\
            places = d_position s - ph_position h
        | Sensor.Same => ph_position h = d_position s /\ places = 0
        end
  end.
Proof.
  intros E. unfold Sensor.position_trend. rewrite E.
  rewrite get_position_history_q_rows.
  destruct (history_rows_spec d (d_id s) 5) as (Hin & Hs & _ & _ & Hall).
  destruct (history_rows d (d_id s) 5) as [|h rest]; simpl.
  - intros h Hh Hi. destruct (Z.lt_ge_cases (ph_year h) 2025) as [L|L];
      [|exact L].
    destruct (Hall h Hh Hi L) as [[]|[Hl _]]. discriminate.
  - inversion Hin as [|? ? (Hh & Hi & Hy) _]; subst.
    inversion Hs as [|? ? _ Hle]; subst.
    assert (forall g, In g (position_history d) -> ph_song_id g = d_id s ->
                      ph_year g < 2025 -> ph_year g <= ph_year h) as Hmax.
    { intros g Hg Gi Gy. destruct (Hall g Hg Gi Gy) as [[<-|Hr]|[_ F]].
      - lia.
      - rewrite Forall_forall in Hle. now apply Hle.
      - inversion F; subst. assumption. }
    destruct (d_position s <? ph_position h) eqn:U.
    + exists h. apply Z.ltb_lt in U. now repeat split.
    + destruct (ph_position h <? d_position s) eqn:D.
      * exists h. apply Z.ltb_lt in D. now repeat split.
      * exists h. apply Z.ltb_ge in U, D. repeat split; try assumption. lia.
Qed.

Lemma position_trend_compares_with_the_latest_earlier_year_witness :
  option_map Sensor.position_trend
    (get_song_by_position_q Samples.catalog 499)
  = Some (Some (Sensor.Down, 497)).
Proof.
  pose proof (position_trend_compares_with_the_latest_earlier_year
                Samples.catalog
                (with_facts_and_history Samples.catalog
                   (dict_of_row Samples.queen)) eq_refl) as H.
  reflexivity.
Defined.

End SensorFacts.

(* ------------------------------------------------------------------ *)
(** ** The metadata sources *)

Module SourceFacts.
Import Database Spec FrameFacts StorageFacts EffectFacts RuleFacts ClientFacts.

Lemma skip_app (a b : string) : Sources.skip (String.length a) (a ++ b) = b.
Proof. induction a as [|c a IH]; simpl; [now destruct b|exact IH]. Qed.

Lemma split_first_spec (sep s : string) :
  match Sources.split_first sep s with
  | Some (a, b) =>
      s = (a ++ sep ++ b)%string /\
      forall p q, s = (p ++ sep ++ q)%string ->
                  (String.length a <= String.length p)%nat
  | None => Py.contains sep s = false
  end.
Proof.
  induction s as [|c r IH].
  - simpl. destruct sep; [|reflexivity].
    split; [reflexivity|]. intros. simpl. lia.
  - cbn [Sources.split_first].
    destruct (String.prefix sep (String c r)) eqn:P.
    + apply prefix_iff in P. destruct P as [post P]. rewrite P.
      rewrite skip_app. split; [reflexivity|]. intros. simpl. lia.
    + destruct (Sources.split_first sep r) as [[a b]|].
      * destruct IH as (E & Hmin). split; [simpl; now rewrite E|].
        intros [|c' p] q Hs.
        -- exfalso. simpl in Hs.
           assert (String.prefix sep (String c r) = true) as T
             by (apply prefix_iff; now exists q).
           congruence.
        -- simpl in Hs. injection Hs as _ Hs. simpl.
           specialize (Hmin p q Hs). lia.
      * rewrite contains_unfold, P, IH. reflexivity.
Qed.

Lemma artist_dash_title_spec (text : string) :
  match Sources.artist_dash_title text with
  | StageRaises => False
  | StageNone => forall before after, text <> (before ++ " - " ++ after)%string
  | StageFound m =>
      exists before after,
        text = (before ++ " - " ++ after)%string /\
        (forall p q, text = (p ++ " - " ++ q)%string ->
                     (String.length before <= String.length p)%nat) /\
        m = {| md_artist := Py.strip before;
               md_title := Py.strip after;
               md_cover_art_url := None |}
  end.
Proof.
  unfold Sources.artist_dash_title.
  pose proof (split_first_spec " - " text) as S.
  destruct (Py.contains " - " text) eqn:C.
  - destruct (Sources.split_first " - " text) as [[a b]|]; [|congruence].
    destruct S as (E & Hmin). exists a, b. now repeat split.
  - intros before after E.
    assert (Py.contains " - " text = true) as T
      by (apply contains_iff; now exists before, after).
    congruence.
Qed.

Lemma prefix_cons a s1 b s2 :
  String.prefix (String a s1) (String b s2)
  = if ascii_dec a b then String.prefix s1 s2 else false.
Proof. reflexivity. Qed.

Lemma split_first_dash (artist title : string) :
  Py.contains " -" artist = false ->
  Sources.split_first " - " (artist ++ " - " ++ title)
  = Some (artist, title).
Proof.
  induction artist as [|c a IH]; intros H.
  - change (("" ++ " - " ++ title)%string) with (String " " (String "-" (String " " title))).
    cbn [Sources.split_first].
    replace (String.prefix " - " (String " " (String "-" (String " " title))))
      with true
      by (symmetry; apply prefix_iff; now exists title).
    reflexivity.
  - rewrite contains_unfold in H. apply orb_false_iff in H.
    destruct H as [P H].
    change ((String c a ++ " - " ++ title)%string)
      with (String c (a ++ " - " ++ title)).
    cbn [Sources.split_first].
    replace (String.prefix " - " (String c (a ++ " - " ++ title)))
      with false.
    + now rewrite (IH H).
    + symmetry. rewrite prefix_cons.
      destruct (ascii_dec " " c) as [<-|]; [|reflexivity].
      destruct a as [|c2 a2].
      * change (("" ++ " - " ++ title)%string)
          with (String " " (String "-" (String " " title))).
        rewrite prefix_cons.
        destruct (ascii_dec "-" " ") as [D|]; [discriminate D|reflexivity].
      * change ((String c2 a2 ++ " - " ++ title)%string)
          with (String c2 (a2 ++ " - " ++ title)).
        rewrite prefix_cons. rewrite prefix_cons in P.
        destruct (ascii_dec " " " ") as [_|N]; [|now contradiction N].
        rewrite prefix_cons in P.
        destruct (ascii_dec "-" c2); [|reflexivity].
        destruct a2; discriminate P.
Qed.

Lemma artist_dash_title_round_trip (artist title : string) :
  Py.contains " -" artist = false ->
  Py.strip artist = artist -> Py.strip title = title ->
  Sources.artist_dash_title (artist ++ " - " ++ title)
  = StageFound {| md_artist := artist; md_title := title;
                  md_cover_art_url := None |}.
Proof.
  intros H Sa St. unfold Sources.artist_dash_title.
  replace (Py.contains " - " (artist ++ " - " ++ title)) with true
    by (symmetry; apply contains_iff; now exists artist, title).
  now rewrite (split_first_dash artist title H), Sa, St.
Qed.

(** X26.  What [_fetch_icecast_metadata] makes of a response.  It raises
    when the request fails or the status is not 200.  Otherwise it looks at
    the header [icy-name], or at [ice-audio-info] when that is missing or
    empty: a text with " - " in it is cut at the first " - " into artist
    and title, both stripped of surrounding white space, with no cover URL;
    any other text, or none, gives [None].  So an artist without " -" in
    it and a title, both free of surrounding white space, are read back
    from "artist - title" as they are. *)
Theorem icecast_header_is_cut_at_the_first_dash
  (r : Sources.reply Sources.icecast_headers) :
  match Sources._fetch_icecast_metadata r with
  | StageRaises =>
      r = Sources.Unreachable \/
      exists status h, r = Sources.Response status h /\ status <> 200
  | StageNone =>
      exists h,
        r = Sources.Response 200 h /\
        forall before after,
          Sources.icy_meta h <> Some (before ++ " - " ++ after)%string
  | StageFound m =>
      exists h before after,
        r = Sources.Response 200 h /\
        Sources.icy_meta h = Some (before ++ " - " ++ after)%string /\
        (forall p q,
            (before ++ " - " ++ after)%string = (p ++ " - " ++ q)%string ->
            (String.length before <= String.length p)%nat) /\
        m = {| md_artist := Py.strip before;
               md_title := Py.strip after;
               md_cover_art_url := None |}
  end /\
  forall other artist title,
    Py.contains " -" artist = false ->
    Py.strip artist = artist -> Py.strip title = title ->
    Sources._fetch_icecast_metadata
      (Sources.Response 200
         {| Sources.icy_name := Some (artist ++ " - " ++ title)%string;
            Sources.ice_audio_info := other |})
    = StageFound {| md_artist := artist; md_title := title;
                    md_cover_art_url := None |}.
Proof.
  split.
  - destruct r as [|status h]; simpl; [now left|].
    destruct (status =? 200) eqn:E; simpl.
    2:{ apply Z.eqb_neq in E. right. now exists status, h. }
    apply Z.eqb_eq in E. subst status.
    destruct (Sources.icy_meta h) as [[|c text]|] eqn:I.
    + exists h. split; [reflexivity|].
      intros b a H. rewrite I in H. injection H as H.
      destruct b; simpl in H; discriminate H.
    + pose proof (artist_dash_title_spec (String c text)) as S.
      destruct (Sources.artist_dash_title (String c text)) as [| |m].
      * destruct S.
      * exists h. split; [reflexivity|]. intros b a E. rewrite I in E.
        injection E as E. exact (S b a E).
      * destruct S as (b & a & E & Hmin & ->). exists h, b, a.
        rewrite E in I, Hmin. now repeat split.
    + exists h. split; [reflexivity|]. intros b a E. rewrite I in E.
      discriminate E.
  - intros other artist title H Sa St.
    unfold Sources._fetch_icecast_metadata, Sources.icy_meta. simpl.
    rewrite <- (artist_dash_title_round_trip artist title H Sa St).
    destruct artist; reflexivity.
Qed.

Lemma icecast_header_is_cut_at_the_first_dash_witness :
  Sources._fetch_icecast_metadata
    (Sources.Response 200
       {| Sources.icy_name := Some "a-ha - Take On Me";
          Sources.ice_audio_info := None |})
  = StageFound {| md_artist := "a-ha"; md_title := "Take On Me";
                  md_cover_art_url := None |} /\
  Sources._fetch_icecast_metadata
    (Sources.Response 200
       {| Sources.icy_name := Some "";
          Sources.ice_audio_info := Some " AC - DC  -  T.N.T. " |})
  = StageFound {| md_artist := "AC"; md_title := "DC  -  T.N.T.";
                  md_cover_art_url := None |}.
Proof.
  destruct (icecast_header_is_cut_at_the_first_dash Sources.Unreachable)
    as [_ H].
  split; [|reflexivity].
  apply (H None "a-ha" "Take On Me"); reflexivity.
Defined.

(** X27.  What [_scrape_onlineradiobox] makes of a response.  It raises
    when the request fails or the status is not 200.  When the page has a
    track element with both an artist and a title element, their texts are
    the observation as they are; when one of them is missing, the text of
    the track element is cut at the first " - " as for the stream; with no
    track element, or a text without " - ", the result is [None].  The
    observation never carries a cover URL. *)
Theorem onlineradiobox_prefers_the_structured_elements
  (r : Sources.reply (option Sources.track_info)) :
  match Sources._scrape_onlineradiobox r with
  | StageRaises =>
      r = Sources.Unreachable \/
      exists status f, r = Sources.Response status f /\ status <> 200
  | StageNone =>
      r = Sources.Response 200 None \/
      exists info,
        r = Sources.Response 200 (Some info) /\
        (Sources.artist_elem info = None \/ Sources.title_elem info = None) /\
        forall before after,
          Sources.text info <> (before ++ " - " ++ after)%string
  | StageFound m =>
      exists info,
        r = Sources.Response 200 (Some info) /\
        md_cover_art_url m = None /\
        ((Sources.artist_elem info = Some (md_artist m) /\
          Sources.title_elem info = Some (md_title m)) \/
         ((Sources.artist_elem info = None \/ Sources.title_elem info = None) /\
          exists before after,
            Sources.text info = (before ++ " - " ++ after)%string /\
            (forall p q,
                Sources.text info = (p ++ " - " ++ q)%string ->
                (String.length before <= String.length p)%nat) /\
            md_artist m = Py.strip before /\
            md_title m = Py.strip after))
  end.
Proof.
  destruct r as [|status f]; simpl; [now left|].
  destruct (status =? 200) eqn:E; simpl.
  2:{ apply Z.eqb_neq in E. right. now exists status, f. }
  apply Z.eqb_eq in E. subst status.
  destruct f as [info|]; [|now left].
  assert (Sources.artist_elem info = None \/ Sources.title_elem info = None ->
          match Sources.artist_dash_title (Sources.text info) with
          | StageRaises =>
              Sources.Response 200 (Some info)
              = @Sources.Unreachable (option Sources.track_info) \/
              exists status f,
                Sources.Response 200 (Some info) = Sources.Response status f /\
                status <> 200
          | StageNone =>
              Sources.Response 200 (Some info) = Sources.Response 200 None \/
              exists info0,
                Sources.Response 200 (Some info)
                = Sources.Response 200 (Some info0) /\
                (Sources.artist_elem info0 = None \/
                 Sources.title_elem info0 = None) /\
                forall before after,
                  Sources.text info0 <> (before ++ " - " ++ after)%string
          | StageFound m =>
              exists info0,
                Sources.Response 200 (Some info)
                = Sources.Response 200 (Some info0) /\
                md_cover_art_url m = None /\
                ((Sources.artist_elem info0 = Some (md_artist m) /\
                  Sources.title_elem info0 = Some (md_title m)) \/
                 ((Sources.artist_elem info0 = None \/
                   Sources.title_elem info0 = None) /\
                  exists before after,
                    Sources.text info0 = (before ++ " - " ++ after)%string /\
                    (forall p q,
                        Sources.text info0 = (p ++ " - " ++ q)%string ->
                        (String.length before <= String.length p)%nat) /\
                    md_artist m = Py.strip before /\
                    md_title m = Py.strip after))
          end) as T.
  { intros Hn.
    pose proof (artist_dash_title_spec (Sources.text info)) as S.
    destruct (Sources.artist_dash_title (Sources.text info)) as [| |m].
    - destruct S.
    - right. exists info. now repeat split.
    - destruct S as (b & a & E & Hmin & ->). exists info.
      split; [reflexivity|]. split; [reflexivity|]. right.
      split; [exact Hn|]. exists b, a. now repeat split. }
  destruct (Sources.artist_elem info) as [a|] eqn:A;
    [destruct (Sources.title_elem info) as [t|] eqn:Ti|].
  - exists info. split; [reflexivity|]. split; [reflexivity|]. now left.
  - apply T. now right.
  - apply T. now left.
Qed.

Lemma fallback_chain_caches env v m w1 :
  NPOClient.fallback_chain env v = (Ok (Some m), w1) ->
  cached_metadata w1 = Some m /\
  (exists fetched, last_fetch w1 = Some fetched) /\
  exists new, trace w1 = trace v ++ Upstream Website :: new.
Proof.
  intros H.
  destruct (fallback_chain_first_success env v) as (C1 & C2 & C3 & C4).
  destruct (found_cases (upstream env (calls v) Website)) as [N1|[m1 S1]].
  2:{ destruct (C1 m1 S1) as (w' & E & T & Hc & Hf).
      rewrite E in H. injection H as <- <-.
      split; [exact Hc|]. split; [eexists; exact Hf|].
      exists []. exact T. }
  destruct (found_cases (upstream env (1 + calls v) Icecast))
    as [N2|[m2 S2]].
  2:{ destruct (C2 m2 N1 S2) as (w' & E & T & Hc & Hf).
      rewrite E in H. injection H as <- <-.
      split; [exact Hc|]. split; [eexists; exact Hf|].
      eexists. exact T. }
  destruct (found_cases (upstream env (2 + calls v) Onlineradiobox))
    as [N3|[m3 S3]].
  2:{ destruct (C3 m3 N1 N2 S3) as (w' & E & T & Hc & Hf).
      rewrite E in H. injection H as <- <-.
      split; [exact Hc|]. split; [eexists; exact Hf|].
      eexists. exact T. }
  rewrite (proj2 (C4 _) (conj N1 (conj N2 (conj N3 eq_refl)))) in H.
  discriminate.
Qed.

Lemma get_current_metadata_hit env v m fetched :
  cached_metadata v = Some m -> last_fetch v = Some fetched ->
  clock env (calls v) - fetched < seconds 30 ->
  NPOClient.get_current_metadata env v = (Ok (Some m), bump v).
Proof.
  intros C F L.
  unfold NPOClient.get_current_metadata, bind, gets, now, ret.
  rewrite C, F. unfold NPOClient.cache_duration.
  apply Z.ltb_lt in L. now rewrite L.
Qed.

(** X28.  An observation returned by [get_current_metadata] is the one
    the client holds in its cache afterwards, and a call made while less
    than 30 seconds have passed since it was fetched returns it again
    without contacting any source.  Conversely an observation that was
    returned without a request was in the cache and fetched less than 30
    seconds before: the client never serves an older one. *)
Theorem observation_is_served_from_the_cache
  (env : environment) (w w1 : world) (m : metadata) :
  NPOClient.get_current_metadata env w = (Ok (Some m), w1) ->
  cached_metadata w1 = Some m /\
  (exists fetched,
      last_fetch w1 = Some fetched /\
      (clock env (calls w1) - fetched < seconds 30 ->
       NPOClient.get_current_metadata env w1 = (Ok (Some m), bump w1) /\
       trace (bump w1) = trace w1)) /\
  (trace w1 = trace w ->
   cached_metadata w = Some m /\
   exists fetched,
     last_fetch w = Some fetched /\
     clock env (calls w) - fetched < seconds 30).
Proof.
  intros H.
  assert (forall v, (v = w \/ v = bump w) ->
            NPOClient.fallback_chain env v = (Ok (Some m), w1) ->
            cached_metadata w1 = Some m /\
            (exists fetched,
                last_fetch w1 = Some fetched /\
                (clock env (calls w1) - fetched < seconds 30 ->
                 NPOClient.get_current_metadata env w1
                   = (Ok (Some m), bump w1) /\
                 trace (bump w1) = trace w1)) /\
            (trace w1 = trace w ->
             cached_metadata w = Some m /\
             exists fetched,
               last_fetch w = Some fetched /\
               clock env (calls w) - fetched < seconds 30)) as Chain.
  { intros v Hv E. destruct (fallback_chain_caches env v m w1 E)
      as (Hc & (f & Hf) & new & T).
    split; [exact Hc|]. split.
    - exists f. split; [exact Hf|]. intros L.
      split; [now apply (get_current_metadata_hit env w1 m f)|reflexivity].
    - intros Same. exfalso.
      assert (trace v = trace w) as Tv by (destruct Hv; now subst v).
      rewrite Tv, Same in T.
      rewrite <- (app_nil_r (trace w)) in T at 1.
      apply app_inv_head in T. discriminate. }
  unfold NPOClient.get_current_metadata in H.
  unfold bind at 1 in H. unfold gets at 1 in H.
  unfold bind at 1 in H. unfold gets at 1 in H.
  destruct (cached_metadata w) as [m0|] eqn:C;
    [destruct (last_fetch w) as [f|] eqn:F|].
  - unfold bind, now in H.
    destruct (clock env (calls w) - f <? NPOClient.cache_duration) eqn:L.
    + injection H as <- <-. apply Z.ltb_lt in L.
      split; [exact C|]. split.
      * exists f. split; [exact F|]. intros L'.
        split; [|reflexivity].
        now apply (get_current_metadata_hit env (bump w) m0 f).
      * intros _. split; [reflexivity|]. now exists f.
    + apply (Chain (bump w)); [now right|exact H].
  - apply (Chain w); [now left|exact H].
  - apply (Chain w); [now left|exact H].
Qed.

Lemma observation_is_served_from_the_cache_witness :
  exists w1 w2,
    NPOClient.get_current_metadata Samples.calm Samples.fresh
      = (Ok (Some Samples.on_air), w1) /\
    NPOClient.get_current_metadata Samples.calm w1
      = (Ok (Some Samples.on_air), w2) /\
    trace w2 = trace w1.
Proof.
  destruct (NPOClient.get_current_metadata Samples.calm Samples.fresh)
    as [r w1] eqn:E.
  assert (r = Ok (Some Samples.on_air)) as ->
    by (vm_compute in E; now injection E as <- _).
  destruct (observation_is_served_from_the_cache
              Samples.calm Samples.fresh w1 Samples.on_air E)
    as (_ & (f & Hf & Hit) & _).
  exists w1, (bump w1). split; [reflexivity|].
  apply Hit. vm_compute in E. injection E as <-.
  vm_compute in Hf. injection Hf as <-. reflexivity.
Defined.

End SourceFacts.

(* ------------------------------------------------------------------ *)
(** ** The options flow *)

Module FlowFacts.
Import Database Spec FrameFacts StorageFacts EffectFacts RuleFacts WriteFacts.
Import NotifyFacts.

Lemma contains_char_tail sep c r :
  Py.contains (String sep "") (String c r) = false ->
  Py.contains (String sep "") r = false.
Proof. rewrite contains_char. intros H. now apply orb_false_iff in H. Qed.

Lemma contains_char_lstrip_bounded sep (n : nat) : forall s,
  (String.length s <= n)%nat ->
  Py.contains (String sep "") s = false ->
  Py.contains (String sep "") (Py.lstrip s) = false.
Proof.
  induction n as [|n IH]; intros s L H.
  - destruct s; [exact H|simpl in L; lia].
  - destruct s as [|a r]; [exact H|]. simpl in L.
    pose proof (contains_char_tail _ _ _ H) as Hr.
    cbn [Py.lstrip]. destruct (Py.space1 a); [apply IH; [lia|exact Hr]|].
    destruct r as [|b r1]; [exact H|]. simpl in L.
    pose proof (contains_char_tail _ _ _ Hr) as Hr1.
    destruct (Py.space2 a b); [apply IH; [lia|exact Hr1]|].
    destruct r1 as [|c r2]; [exact H|]. simpl in L.
    pose proof (contains_char_tail _ _ _ Hr1) as Hr2.
    destruct (Py.space3 a b c); [apply IH; [lia|exact Hr2]|exact H].
Qed.

Lemma contains_char_lstrip sep s :
  Py.contains (String sep "") s = false ->
  Py.contains (String sep "") (Py.lstrip s) = false.
Proof. apply (contains_char_lstrip_bounded sep (String.length s)). lia. Qed.

Lemma contains_char_rstrip sep s :
  Py.contains (String sep "") s = false ->
  Py.contains (String sep "") (Py.rstrip s) = false.
Proof.
  induction s as [|c r IH]; [auto|]. cbn [Py.rstrip].
  intros H. rewrite contains_char in H. apply orb_false_iff in H.
  destruct H as [Hc Hr]. specialize (IH Hr).
  destruct (Py.blank (String c (Py.rstrip r))); [reflexivity|].
  rewrite contains_char, Hc, IH. reflexivity.
Qed.

Lemma contains_char_strip sep s :
  Py.contains (String sep "") s = false ->
  Py.contains (String sep "") (Py.strip s) = false.
Proof.
  intros H. apply contains_char_rstrip, contains_char_lstrip, H.
Qed.

Lemma split_pieces sep s :
  ConfigFlow.split sep s <> [] /\
  Forall (fun p => Py.contains (String sep "") p = false)
         (ConfigFlow.split sep s).
Proof.
  induction s as [|c r [Hn IH]]; simpl.
  - split; [discriminate|]. now repeat constructor.
  - destruct (Ascii.eqb c sep) eqn:E.
    + split; [discriminate|]. now constructor.
    + destruct (ConfigFlow.split sep r) as [|p rest]; [now contradiction Hn|].
      split; [discriminate|]. inversion IH; subst.
      constructor; [|assumption]. now rewrite contains_char, E.
Qed.

Lemma split_one sep s :
  Py.contains (String sep "") s = false -> ConfigFlow.split sep s = [s].
Proof.
  induction s as [|c r IH]; [reflexivity|].
  rewrite contains_char. intros H. apply orb_false_iff in H.
  destruct H as [Hc Hr]. simpl. now rewrite Hc, (IH Hr).
Qed.

Lemma split_app sep s rest :
  Py.contains (String sep "") s = false ->
  ConfigFlow.split sep (s ++ String sep rest)
  = s :: ConfigFlow.split sep rest.
Proof.
  induction s as [|c r IH].
  - intros _. simpl. now rewrite Ascii.eqb_refl.
  - rewrite contains_char. intros H. apply orb_false_iff in H.
    destruct H as [Hc Hr]. simpl. now rewrite Hc, (IH Hr).
Qed.

Lemma split_join (targets : list string) :
  targets <> [] ->
  Forall (fun t => Py.contains "," t = false) targets ->
  ConfigFlow.split "," (ConfigFlow.join "," targets) = targets.
Proof.
  induction targets as [|x rest IH]; [congruence|].
  intros _ F. inversion F as [|? ? Hx Hr]; subst.
  destruct rest as [|y rest].
  - simpl. now apply split_one.
  - change (ConfigFlow.join "," (x :: y :: rest))
      with (x ++ String "," (ConfigFlow.join "," (y :: rest)))%string.
    rewrite (split_app _ _ _ Hx). f_equal. apply IH; [discriminate|exact Hr].
Qed.

(** X29.  What the options flow stores for the notification settings.
    The targets are the pieces of the text between commas, stripped of
    surrounding white space, the empty ones left out, and
    "persistent_notification" alone when nothing is left: the list stored
    is never empty, no target in it is empty or holds a comma, and it is
    what [get_notification_settings] gives afterwards, with the two toggles
    as submitted.  The positions stored are the numbers between the commas,
    or 1, 2, 3 when a piece is not a number.  Submitting the text the form
    shows for a clean list of targets (joined by commas) stores that list
    again. *)
Theorem options_flow_stores_clean_targets
  (env : environment) (int : string -> option Z) (w w1 : world)
  (targets_text positions_text : string) (current upcoming : bool) :
  ConfigFlow.async_step_notification_settings env int targets_text current
    upcoming positions_text w = (Ok tt, w1) ->
  let st := get_notification_settings_q (db w1) in
  notification_targets st = ConfigFlow.notify_services targets_text /\
  notification_targets st <> [] /\
  Forall (fun t => t <> "" /\ Py.contains "," t = false)
         (notification_targets st) /\
  notify_current_song st = current /\
  notify_upcoming_song st = upcoming /\
  upcoming_notify_positions st =
    match ConfigFlow.upcoming_positions int positions_text with
    | [] =>
        match notification_settings (db w) with
        | None => default_positions
        | Some _ => []
        end
    | p => p
    end /\
  (ConfigFlow.ints int (ConfigFlow.stripped_pieces positions_text) = None ->
   ConfigFlow.upcoming_positions int positions_text = [1; 2; 3]) /\
  forall targets,
    targets <> [] ->
    Forall (fun t => t <> "" /\ Py.contains "," t = false /\
                     Py.strip t = t) targets ->
    ConfigFlow.notify_services (ConfigFlow.join "," targets) = targets.
Proof.
  intros H st.
  assert (ConfigFlow.notify_services targets_text <> [] /\
          Forall (fun t => t <> "" /\ Py.contains "," t = false)
                 (ConfigFlow.notify_services targets_text)) as [Hne Hclean].
  { unfold ConfigFlow.notify_services.
    assert (Forall (fun t => t <> "" /\ Py.contains "," t = false)
                   (ConfigFlow.stripped_pieces targets_text)) as F.
    { unfold ConfigFlow.stripped_pieces. apply Forall_forall. intros t Ht.
      apply filter_In in Ht. destruct Ht as [Ht Hn].
      apply negb_true_iff, String.eqb_neq in Hn. split; [exact Hn|].
      apply in_map_iff in Ht. destruct Ht as (p & <- & Hp).
      apply contains_char_strip.
      destruct (split_pieces "," targets_text) as [_ Fp].
      rewrite Forall_forall in Fp. now apply Fp. }
    destruct (ConfigFlow.stripped_pieces targets_text) as [|t l].
    - split; [discriminate|]. constructor; [|constructor].
      split; [discriminate|reflexivity].
    - split; [discriminate|exact F]. }
  unfold ConfigFlow.async_step_notification_settings in H.
  apply update_notification_settings_ok in H.
  destruct (settings_q_after_update (db w)
              (Some (ConfigFlow.notify_services targets_text))
              (Some current) (Some upcoming)
              (Some (ConfigFlow.upcoming_positions int positions_text)))
    as (Ht & Hc & Hu & Hp).
  assert (db w1
          = Store.update_notification_settings_q (db w)
              (Some (ConfigFlow.notify_services targets_text))
              (Some current) (Some upcoming)
              (Some (ConfigFlow.upcoming_positions int positions_text)))
    as Ed by (now subst w1).
  rewrite <- Ed in Ht, Hc, Hu, Hp. fold st in Ht, Hc, Hu, Hp.
  assert (notification_targets st = ConfigFlow.notify_services targets_text)
    as Et.
  { rewrite Ht. destruct (ConfigFlow.notify_services targets_text);
      [now contradiction Hne|reflexivity]. }
  split; [exact Et|]. rewrite Et.
  split; [exact Hne|]. split; [exact Hclean|].
  split; [exact Hc|]. split; [exact Hu|].
  split.
  { rewrite Hp.
    destruct (ConfigFlow.upcoming_positions int positions_text); reflexivity. }
  split.
  { intros E. unfold ConfigFlow.upcoming_positions. now rewrite E. }
  intros targets Hn F.
  unfold ConfigFlow.notify_services, ConfigFlow.stripped_pieces.
  rewrite split_join.
  - replace (map Py.strip targets) with targets.
    + rewrite filter_all.
      * destruct targets; [now contradiction Hn|reflexivity].
      * eapply Forall_impl; [|exact F]. intros t (Hnt & _).
        now apply negb_true_iff, String.eqb_neq.
    + symmetry. rewrite <- (map_id targets) at 2. apply map_ext_Forall.
      eapply Forall_impl; [|exact F]. now intros t (_ & _ & Hs).
  - exact Hn.
  - eapply Forall_impl; [|exact F]. now intros t (_ & Hc' & _).
Qed.

Lemma options_flow_stores_clean_targets_witness :
  exists w1,
    ConfigFlow.async_step_notification_settings Samples.calm (fun _ => None)
      " notify.phone ,, persistent_notification," true false "one,2"
      Samples.fresh = (Ok tt, w1) /\
    get_notification_settings_q (db w1)
    = {| notification_targets := ["notify.phone"; "persistent_notification"];
         notify_current_song := true;
         notify_upcoming_song := false;
         upcoming_notify_positions := [1; 2; 3] |}.
Proof.
  destruct (ConfigFlow.async_step_notification_settings Samples.calm
              (fun _ => None)
              " notify.phone ,, persistent_notification," true false "one,2"
              Samples.fresh) as [r w1] eqn:E.
  assert (r = Ok tt) as -> by (vm_compute in E; now injection E as <- _).
  pose proof (options_flow_stores_clean_targets _ _ _ _ _ _ _ _ E) as H.
  exists w1. split; [reflexivity|].
  vm_compute in E. injection E as <-. reflexivity.
Defined.

End FlowFacts.
